(** * msplat: spherical-harmonics colour and 3D covariance kernels

    A shallow embedding of the per-primitive CUDA kernels of msplat
    (the SH colour evaluator and [dptr/gs/src/compute_cov3d.cu]) together
    with the properties their specification states about them.

    Conventions of the embedding.
    - [float] arithmetic is read as exact arithmetic over the real numbers
      [R]: every product, sum and comparison of the source is kept, in the
      source's order of evaluation, but nothing is rounded.  Decimal
      literals denote their decimal value.
    - [glm::vec3], [glm::vec4] and [glm::mat3] are records with explicit
      component access.  [glm::mat3] is column-major, as in glm: a matrix is
      three column vectors, [m[i]] is column [i] and [m[i][j]] is the entry
      in column [i], row [j].
    - Device memory is a collection of arrays (lists).  A kernel is a
      computation in a small state-and-error monad [K]: it threads the
      output arrays and a chronological log of the memory accesses it
      performs; a load or a store outside an array has no defined behaviour
      in C and makes the computation fail ([None]).
    - A launch [<<<grid, block>>>] runs the worker for every thread rank
      [0 .. grid*block-1].  Workers only touch the slots of their own
      primitive, so the ranks are run one after the other.
    - The number of primitives [P], the thread rank [idx] and the stride
      [max_coeffs] are natural numbers; the degree [deg] is an integer and
      is tested the way the source tests it.
    - Where a property turns on rounding, the forward formulas are
      evaluated a second time in binary32, in the module [F32]. *)

From Stdlib Require Import Reals Lra Lia ZArith RNsatz.
From Stdlib Require SpecFloat.
From stdpp Require Import base list.

Local Open Scope R_scope.

(** ** glm value types *)

Module glm.

Record vec3 := Vec3 { v3x : R; v3y : R; v3z : R }.
Record vec4 := Vec4 { v4x : R; v4y : R; v4z : R; v4w : R }.

(** [glm::mat3]: [value[3]] column vectors. *)
Record mat3 := Mat3 { col0 : vec3; col1 : vec3; col2 : vec3 }.

Definition vec3_zero : vec3 := Vec3 0 0 0.
Definition vec4_zero : vec4 := Vec4 0 0 0 0.

(** [v[j]] *)
Definition vidx (v : vec3) (j : nat) : R :=
  match j with O => v3x v | S O => v3y v | _ => v3z v end.

(** [m[i]] *)
Definition mcol (m : mat3) (i : nat) : vec3 :=
  match i with O => col0 m | S O => col1 m | _ => col2 m end.

(** [m[i][j]]: column [i], row [j]. *)
Definition at_ (m : mat3) (i j : nat) : R := vidx (mcol m i) j.

(** [glm::mat3(x0, y0, z0, x1, y1, z1, x2, y2, z2)]: the nine scalars fill
    the matrix column after column. *)
Definition mat3_of (x0 y0 z0 x1 y1 z1 x2 y2 z2 : R) : mat3 :=
  Mat3 (Vec3 x0 y0 z0) (Vec3 x1 y1 z1) (Vec3 x2 y2 z2).

(** [glm::mat3(s)]: [s] on the diagonal, zero elsewhere. *)
Definition mat3_diag (s : R) : mat3 :=
  Mat3 (Vec3 s 0 0) (Vec3 0 s 0) (Vec3 0 0 s).

(** [m[0][0] = a; m[1][1] = b; m[2][2] = c;] *)
Definition set_diag (m : mat3) (a b c : R) : mat3 :=
  Mat3 (Vec3 a (v3y (col0 m)) (v3z (col0 m)))
       (Vec3 (v3x (col1 m)) b (v3z (col1 m)))
       (Vec3 (v3x (col2 m)) (v3y (col2 m)) c).

Definition vadd (a b : vec3) : vec3 :=
  Vec3 (v3x a + v3x b) (v3y a + v3y b) (v3z a + v3z b).
Definition vsub (a b : vec3) : vec3 :=
  Vec3 (v3x a - v3x b) (v3y a - v3y b) (v3z a - v3z b).
(** scalar * vector *)
Definition smul (s : R) (v : vec3) : vec3 :=
  Vec3 (s * v3x v) (s * v3y v) (s * v3z v).
(** vector * scalar *)
Definition vmuls (v : vec3) (s : R) : vec3 :=
  Vec3 (v3x v * s) (v3y v * s) (v3z v * s).
(** vector + scalar *)
Definition vadds (v : vec3) (s : R) : vec3 :=
  Vec3 (v3x v + s) (v3y v + s) (v3z v + s).

(** [glm::dot]: the component products are summed left to right. *)
Definition dot (a b : vec3) : R :=
  v3x a * v3x b + v3y a * v3y b + v3z a * v3z b.

(** [x < y] on floats, as a boolean. *)
Definition fltb (x y : R) : bool := if Rlt_dec x y then true else false.

(** [glm::max(x, y)] is [(x < y) ? y : x]; [glm::max(v, s)] applies it to
    every component. *)
Definition fmax (x y : R) : R := if Rlt_dec x y then y else x.
Definition vmax (v : vec3) (s : R) : vec3 :=
  Vec3 (fmax (v3x v) s) (fmax (v3y v) s) (fmax (v3z v) s).

(** [glm::transpose]: [Result[i][j] = m[j][i]]. *)
Definition transpose (m : mat3) : mat3 :=
  mat3_of (at_ m 0 0) (at_ m 1 0) (at_ m 2 0)
          (at_ m 0 1) (at_ m 1 1) (at_ m 2 1)
          (at_ m 0 2) (at_ m 1 2) (at_ m 2 2).

(** [operator*(mat3, mat3)]:
    [Result[c][r] = m1[0][r]*m2[c][0] + m1[1][r]*m2[c][1] + m1[2][r]*m2[c][2]]. *)
Definition mmul_entry (m1 m2 : mat3) (c r : nat) : R :=
  at_ m1 0 r * at_ m2 c 0 + at_ m1 1 r * at_ m2 c 1 + at_ m1 2 r * at_ m2 c 2.
Definition mmul (m1 m2 : mat3) : mat3 :=
  let e := mmul_entry m1 m2 in
  (mat3_of (e 0 0) (e 0 1) (e 0 2)
           (e 1 0) (e 1 1) (e 1 2)
           (e 2 0) (e 2 1) (e 2 2))%nat.

(** [operator*(float, mat3)] scales every column. *)
Definition msmul (s : R) (m : mat3) : mat3 :=
  Mat3 (smul s (col0 m)) (smul s (col1 m)) (smul s (col2 m)).

(** [m[i] *= s] for [i] = 0, 1, 2 in turn. *)
Definition scale_cols (m : mat3) (s0 s1 s2 : R) : mat3 :=
  Mat3 (vmuls (col0 m) s0) (vmuls (col1 m) s1) (vmuls (col2 m) s2).

End glm.

Import glm.

Declare Scope glm_scope.
Delimit Scope glm_scope with glm.
Infix "+^" := vadd (at level 50, left associativity) : glm_scope.
Infix "-^" := vsub (at level 50, left associativity) : glm_scope.
Infix "*^" := smul (at level 40, left associativity) : glm_scope.
Infix "^*" := vmuls (at level 40, left associativity) : glm_scope.
Infix "*m" := mmul (at level 40, left associativity) : glm_scope.
Local Open Scope glm_scope.

#[global] Instance vec3_inhabited : Inhabited vec3 := populate vec3_zero.
#[global] Instance vec4_inhabited : Inhabited vec4 := populate vec4_zero.
#[global] Instance R_inhabited : Inhabited R := populate 0.

(** ** Matrices as mathematics has them

    Used on the specification side only: entry [(r, c)] of a 3x3 matrix is
    [A r c], row first. *)

Module Mat.

Local Open Scope nat_scope.

Definition matrix := nat -> nat -> R.

Definition mult (A B : matrix) : matrix :=
  fun r c => (A r 0%nat * B 0%nat c + A r 1%nat * B 1%nat c + A r 2%nat * B 2%nat c)%R.
Definition trans (A : matrix) : matrix := fun r c => A c r.
Definition scal (s : R) (A : matrix) : matrix := fun r c => (s * A r c)%R.

(** The matrix a column-major [glm::mat3] denotes. *)
Definition of_glm (m : mat3) : matrix := fun r c => at_ m c r.

(** diag(s) *)
Definition diag (s : vec3) : matrix :=
  fun r c => if Nat.eqb r c then vidx s r else 0%R.

(** The rotation matrix of the quaternion [(r, x, y, z)], scalar first, as
    the textbooks have it: row [i], column [j]. *)
Definition rot (q : vec4) : matrix :=
  let r := v4x q in let x := v4y q in let y := v4z q in let z := v4w q in
  fun i j =>
    match i, j with
    | 0, 0 => 1 - 2 * (y * y + z * z)
    | 0, 1 => 2 * (x * y - r * z)
    | 0, 2 => 2 * (x * z + r * y)
    | 1, 0 => 2 * (x * y + r * z)
    | 1, 1 => 1 - 2 * (x * x + z * z)
    | 1, 2 => 2 * (y * z - r * x)
    | 2, 0 => 2 * (x * z - r * y)
    | 2, 1 => 2 * (y * z + r * x)
    | _, _ => 1 - 2 * (x * x + y * y)
    end%R.

(** The symmetric matrix stored as [00, 01, 02, 11, 12, 22]. *)
Definition sym_of_six (c : list R) : matrix :=
  fun i j =>
    match i, j with
    | 0, 0 => c !!! 0
    | 0, 1 | 1, 0 => c !!! 1
    | 0, 2 | 2, 0 => c !!! 2
    | 1, 1 => c !!! 3
    | 1, 2 | 2, 1 => c !!! 4
    | _, _ => c !!! 5
    end.

(** The six stored entries of a matrix: its upper triangle, row by row. *)
Definition upper (A : matrix) : list R :=
  [A 0 0; A 0 1; A 0 2; A 1 1; A 1 2; A 2 2].

(** [A v] and [v^T A v] *)
Definition apply (A : matrix) (v : vec3) : vec3 :=
  let row (i : nat) := (A i 0%nat * v3x v + A i 1%nat * v3y v + A i 2%nat * v3z v)%R in
  Vec3 (row 0) (row 1) (row 2).
Definition quad (A : matrix) (v : vec3) : R := dot v (apply A v).

(** [sum_c A(i,c) B(i,c)]: row [i] of [A] dotted with row [i] of [B]. *)
Definition row_dot (A B : matrix) (i : nat) : R :=
  (A i 0%nat * B i 0%nat + A i 1%nat * B i 1%nat + A i 2%nat * B i 2%nat)%R.

(** [sum_(r,c) A(r,c) B(r,c)] *)
Definition pairing (A B : matrix) : R :=
  (row_dot A B 0 + row_dot A B 1 + row_dot A B 2)%R.

(** Component [i] of a quaternion, and the quaternion with it replaced. *)
Definition qidx (q : vec4) (i : nat) : R :=
  match i with 0 => v4x q | 1 => v4y q | 2 => v4z q | _ => v4w q end.
Definition qset (q : vec4) (i : nat) (t : R) : vec4 :=
  match i with
  | 0 => Vec4 t (v4y q) (v4z q) (v4w q)
  | 1 => Vec4 (v4x q) t (v4z q) (v4w q)
  | 2 => Vec4 (v4x q) (v4y q) t (v4w q)
  | _ => Vec4 (v4x q) (v4y q) (v4z q) t
  end.

(** The partial derivatives of the entries of [rot q] in component [i] of
    [q], in closed form. *)
Definition drot (i : nat) (q : vec4) : matrix :=
  let r := v4x q in let x := v4y q in let y := v4z q in let z := v4w q in
  fun row col =>
    match i, row, col with
    | 0, 0, 0 => 0       | 0, 0, 1 => - 2 * z | 0, 0, 2 => 2 * y
    | 0, 1, 0 => 2 * z   | 0, 1, 1 => 0       | 0, 1, 2 => - 2 * x
    | 0, 2, 0 => - 2 * y | 0, 2, 1 => 2 * x   | 0, _, _ => 0
    | 1, 0, 0 => 0       | 1, 0, 1 => 2 * y   | 1, 0, 2 => 2 * z
    | 1, 1, 0 => 2 * y   | 1, 1, 1 => - 4 * x | 1, 1, 2 => - 2 * r
    | 1, 2, 0 => 2 * z   | 1, 2, 1 => 2 * r   | 1, _, _ => - 4 * x
    | 2, 0, 0 => - 4 * y | 2, 0, 1 => 2 * x   | 2, 0, 2 => 2 * r
    | 2, 1, 0 => 2 * x   | 2, 1, 1 => 0       | 2, 1, 2 => 2 * z
    | 2, 2, 0 => - 2 * r | 2, 2, 1 => 2 * z   | 2, _, _ => - 4 * y
    | _, 0, 0 => - 4 * z | _, 0, 1 => - 2 * r | _, 0, 2 => 2 * x
    | _, 1, 0 => 2 * r   | _, 1, 1 => - 4 * z | _, 1, 2 => 2 * y
    | _, 2, 0 => 2 * x   | _, 2, 1 => 2 * y   | _, _, _ => 0
    end%R.

End Mat.

(** ** Device memory, access log and the kernel monad *)

Inductive buffer :=
  | b_dirs | b_shs | b_visibility_filter | b_colors | b_clamped
  | b_dL_dcolors | b_dL_ddirs | b_dL_dshs
  | b_scales | b_uquats | b_visible | b_cov3Ds
  | b_dL_dcov3Ds | b_dL_dscales | b_dL_duquats.

Inductive event :=
  | Launch (grid block : nat)
  | Load (b : buffer) (i : nat)
  | Store (b : buffer) (i : nat).

Definition K (St A : Type) : Type := St * list event -> option (A * (St * list event)).

#[global] Instance K_ret {St} : MRet (K St) := fun A a w => Some (a, w).
#[global] Instance K_bind {St} : MBind (K St) := fun A B f m w =>
  match m w with
  | Some (a, w') => f a w'
  | None => None
  end.

Section Memory.
Context {St : Type}.

Definition emit (e : event) : K St unit :=
  fun w => Some (tt, (w.1, w.2 ++ [e])).

(** [l[i]] on a read-only array. *)
Definition load {T} (b : buffer) (l : list T) (i : nat) : K St T :=
  fun w => match l !! i with
           | Some v => Some (v, (w.1, w.2 ++ [Load b i]))
           | None => None
           end.

(** [l[off], ..., l[off+n-1]] *)
Fixpoint load_block {T} (b : buffer) (l : list T) (off n : nat) : K St (list T) :=
  match n with
  | O => mret []
  | S n' => v ← load b l off; vs ← load_block b l (S off) n'; mret (v :: vs)
  end.

(** [out[i] = v] on an output array, given as a field of the state. *)
Definition store {T} (b : buffer) (get : St -> list T) (set : list T -> St -> St)
    (i : nat) (v : T) : K St unit :=
  fun w => if decide (i < length (get w.1))%nat
           then Some (tt, (set (<[i := v]> (get w.1)) w.1, w.2 ++ [Store b i]))
           else None.

(** [out[off] = v0; out[off+1] = v1; ...] *)
Fixpoint store_block {T} (b : buffer) (get : St -> list T) (set : list T -> St -> St)
    (off : nat) (vs : list T) : K St unit :=
  match vs with
  | [] => mret tt
  | v :: vs' => store b get set off v;; store_block b get set (S off) vs'
  end.

(** The guard every kernel starts with:
    [if (idx >= P || !visible[idx]) return;].
    [||] evaluates its right operand only when the left one is false. *)
Definition skipped (b : buffer) (P : nat) (visible : list bool) (idx : nat) : K St bool :=
  if bool_decide (P ≤ idx)%nat then mret true
  else v ← load b visible idx; mret (negb v).

(** Runs [body idx] for each thread rank. *)
Fixpoint for_ranks (body : nat -> K St unit) (ranks : list nat) : K St unit :=
  match ranks with
  | [] => mret tt
  | idx :: rest => body idx;; for_ranks body rest
  end.

(** [kernel <<<grid, block>>> (...)] *)
Definition launch (grid block : nat) (kernel : nat -> K St unit) : K St unit :=
  emit (Launch grid block);; for_ranks kernel (seq 0 (grid * block)).

(** The final output arrays, and the access log, of a computation started
    with an empty log. *)
Definition exec {A} (k : K St A) (s : St) : option St :=
  match k (s, []) with Some (_, w) => Some w.1 | None => None end.

End Memory.

(** [p[k]] on a block of values already loaded through the pointer [p]. *)
Definition elt {T} `{Inhabited T} (p : list T) (k : nat) : T := p !!! k.

(** ** The covariance builder: [dptr/gs/src/compute_cov3d.cu] *)

Module Cov3D.

Definition scale_vector_to_matrix (scale : vec3) : mat3 :=
  let S := mat3_diag 1 in
  set_diag S (v3x scale) (v3y scale) (v3z scale).

Definition unit_quaternion_to_rotmatrix (uquat : vec4) : mat3 :=
  let r := v4x uquat in
  let x := v4y uquat in
  let y := v4z uquat in
  let z := v4w uquat in
  mat3_of
    (1 - 2 * (y * y + z * z))
    (2 * (x * y - r * z))
    (2 * (x * z + r * y))
    (2 * (x * y + r * z))
    (1 - 2 * (x * x + z * z))
    (2 * (y * z - r * x))
    (2 * (x * z - r * y))
    (2 * (y * z + r * x))
    (1 - 2 * (x * x + y * y)).

(** The forward kernel has one output array, [cov3Ds]. *)
Definition cov3Ds (s : list R) : list R := s.
Definition set_cov3Ds (l : list R) (_ : list R) : list R := l.

(** The local [Sigma] of [compute_cov3d_forward]. *)
Definition Sigma (scale : vec3) (quat : vec4) : mat3 :=
  let S := scale_vector_to_matrix scale in
  let R := unit_quaternion_to_rotmatrix quat in
  let M := S *m R in
  transpose M *m M.

(** The values assigned to [cov3D[0]], ..., [cov3D[5]], in that order. *)
Definition cov3D_values (scale : vec3) (quat : vec4) : list R :=
  let Sigma := Sigma scale quat in
  [at_ Sigma 0 0; at_ Sigma 0 1; at_ Sigma 0 2;
   at_ Sigma 1 1; at_ Sigma 1 2; at_ Sigma 2 2].

(** [compute_cov3d_forward(scale, quat, cov3D)], with [cov3D] the position
    of the pointer in the output array. *)
Definition compute_cov3d_forward (scale : vec3) (quat : vec4) (cov3D : nat)
    : K (list R) unit :=
  store_block b_cov3Ds cov3Ds set_cov3Ds cov3D (cov3D_values scale quat).

(** [compute_cov3_backward(scale, quat, dL_dcov3D, dL_dscale, dL_dquat)]:
    [dL_dcov3D] holds the six floats behind the pointer; the two results
    are the values left in the reference parameters. *)
Definition compute_cov3_backward (scale : vec3) (quat : vec4) (dL_dcov3D : list R)
    : vec3 * vec4 :=
  let S := scale_vector_to_matrix scale in
  let R := unit_quaternion_to_rotmatrix quat in
  let M := S *m R in
  let dL_dSigma := mat3_of
    (elt dL_dcov3D 0) (0.5 * elt dL_dcov3D 1) (0.5 * elt dL_dcov3D 2)
    (0.5 * elt dL_dcov3D 1) (elt dL_dcov3D 3) (0.5 * elt dL_dcov3D 4)
    (0.5 * elt dL_dcov3D 2) (0.5 * elt dL_dcov3D 4) (elt dL_dcov3D 5) in
  let dL_dM := msmul 2 M *m dL_dSigma in
  let Rt := transpose R in
  let dL_dMt := transpose dL_dM in
  let dL_dscale :=
    Vec3 (dot (mcol Rt 0) (mcol dL_dMt 0))
         (dot (mcol Rt 1) (mcol dL_dMt 1))
         (dot (mcol Rt 2) (mcol dL_dMt 2)) in
  let dL_dMt := scale_cols dL_dMt (v3x scale) (v3y scale) (v3z scale) in
  let r := v4x quat in
  let x := v4y quat in
  let y := v4z quat in
  let z := v4w quat in
  let dL_dquat :=
    Vec4
      (2 * z * (at_ dL_dMt 0 1 - at_ dL_dMt 1 0) +
       2 * y * (at_ dL_dMt 2 0 - at_ dL_dMt 0 2) +
       2 * x * (at_ dL_dMt 1 2 - at_ dL_dMt 2 1))
      (2 * y * (at_ dL_dMt 1 0 + at_ dL_dMt 0 1) +
       2 * z * (at_ dL_dMt 2 0 + at_ dL_dMt 0 2) +
       2 * r * (at_ dL_dMt 1 2 - at_ dL_dMt 2 1) -
       4 * x * (at_ dL_dMt 2 2 + at_ dL_dMt 1 1))
      (2 * x * (at_ dL_dMt 1 0 + at_ dL_dMt 0 1) +
       2 * r * (at_ dL_dMt 2 0 - at_ dL_dMt 0 2) +
       2 * z * (at_ dL_dMt 1 2 + at_ dL_dMt 2 1) -
       4 * y * (at_ dL_dMt 2 2 + at_ dL_dMt 0 0))
      (2 * r * (at_ dL_dMt 0 1 - at_ dL_dMt 1 0) +
       2 * x * (at_ dL_dMt 2 0 + at_ dL_dMt 0 2) +
       2 * y * (at_ dL_dMt 1 2 + at_ dL_dMt 2 1) -
       4 * z * (at_ dL_dMt 1 1 + at_ dL_dMt 0 0)) in
  (dL_dscale, dL_dquat).

Definition computeCov3DForwardCUDAKernel (P : nat)
    (scales : list vec3) (uquats : list vec4) (visible : list bool)
    (idx : nat) : K (list R) unit :=
  skip ← skipped b_visible P visible idx;
  if skip : bool then mret tt else
  scale ← load b_scales scales idx;
  quat ← load b_uquats uquats idx;
  compute_cov3d_forward scale quat (6 * idx).

(** The two output arrays of the backward kernel. *)
Record grads := Grads { dL_dscales : list vec3; dL_duquats : list vec4 }.

Definition set_dL_dscales (l : list vec3) (g : grads) : grads :=
  Grads l (dL_duquats g).
Definition set_dL_duquats (l : list vec4) (g : grads) : grads :=
  Grads (dL_dscales g) l.

Definition computeCov3DBackwardCUDAKernel (P : nat)
    (scales : list vec3) (uquats : list vec4) (visible : list bool)
    (dL_dcov3Ds : list R) (idx : nat) : K grads unit :=
  skip ← skipped b_visible P visible idx;
  if skip : bool then mret tt else
  scale ← load b_scales scales idx;
  quat ← load b_uquats uquats idx;
  dL_dcov3D ← load_block b_dL_dcov3Ds dL_dcov3Ds (6 * idx) 6;
  let '(dL_dscale, dL_dquat) := compute_cov3_backward scale quat dL_dcov3D in
  store b_dL_dscales dL_dscales set_dL_dscales idx dL_dscale;;
  store b_dL_duquats dL_duquats set_dL_duquats idx dL_dquat.

(** [torch::Tensor computeCov3DForward(scales, uquats, visible)].
    A tensor of shape [P x 3] is the list of its [P] rows; [CHECK_INPUT]
    (device and contiguity of the tensors) has nothing to check on lists.
    The result is the returned tensor, flat, with the log of the call. *)
Definition computeCov3DForward
    (scales : list vec3) (uquats : list vec4) (visible : list bool)
    : option (list R * list event) :=
  let P := length scales in
  let cov3Ds : list R := replicate (P * 6) 0 in
  '(_, w) ← (if bool_decide (P ≠ 0%nat)
             then launch ((P + 255) / 256) 256
                    (computeCov3DForwardCUDAKernel P scales uquats visible)
             else mret tt) (cov3Ds, []);
  Some w.

(** [computeCov3DBackward(scales, uquats, visible, dL_dcov3Ds)] *)
Definition computeCov3DBackward
    (scales : list vec3) (uquats : list vec4) (visible : list bool)
    (dL_dcov3Ds : list R) : option (grads * list event) :=
  let P := length scales in
  let dL_dscales := replicate P vec3_zero in
  let dL_duquats := replicate P vec4_zero in
  '(_, w) ← (if bool_decide (P ≠ 0%nat)
             then launch ((P + 255) / 256) 256
                    (computeCov3DBackwardCUDAKernel P scales uquats visible dL_dcov3Ds)
             else mret tt) (Grads dL_dscales dL_duquats, []);
  Some w.

End Cov3D.

(** ** The spherical-harmonics colour evaluator *)

Module SH.

Definition SH_C0 : R := 0.28209479177387814.
Definition SH_C1 : R := 0.4886025119029199.
Definition SH_C2 (i : nat) : R :=
  match i with
  | 0%nat => 1.0925484305920792
  | 1%nat => -1.0925484305920792
  | 2%nat => 0.31539156525252005
  | 3%nat => -1.0925484305920792
  | _ => 0.5462742152960396
  end.
Definition SH_C3 (i : nat) : R :=
  match i with
  | 0%nat => -0.5900435899266435
  | 1%nat => 2.890611442640554
  | 2%nat => -0.4570457994644658
  | 3%nat => 0.3731763325901154
  | 4%nat => -0.4570457994644658
  | 5%nat => 1.445305721320277
  | _ => -0.5900435899266435
  end.

(** How many coefficients [sh[0], sh[1], ...] the kernels touch at degree
    [deg], following the tests [deg > 0], [deg > 1], [deg > 2]:
    [(deg + 1)^2] for the degrees 0 to 3. *)
Definition coeffs (deg : Z) : nat :=
  if (deg >? 0)%Z then
    if (deg >? 1)%Z then
      if (deg >? 2)%Z then 16 else 9
    else 4
  else 1.

(** The local [result] of the forward kernel once [result += 0.5f] is done:
    the colour before clamping.  [sh] is the block of coefficients behind
    the pointer [shs + idx * max_coeffs]. *)
Definition result (deg : Z) (dir : vec3) (sh : list vec3) : vec3 :=
  let result := SH_C0 *^ elt sh 0 in
  let result :=
    if (deg >? 0)%Z then
      let x := v3x dir in
      let y := v3y dir in
      let z := v3z dir in
      let result :=
        result -^ SH_C1 * y *^ elt sh 1 +^ SH_C1 * z *^ elt sh 2 -^ SH_C1 * x *^ elt sh 3 in
      if (deg >? 1)%Z then
        let xx := x * x in let yy := y * y in let zz := z * z in
        let xy := x * y in let yz := y * z in let xz := x * z in
        let result :=
          result +^
            SH_C2 0 * xy *^ elt sh 4 +^
            SH_C2 1 * yz *^ elt sh 5 +^
            SH_C2 2 * (2 * zz - xx - yy) *^ elt sh 6 +^
            SH_C2 3 * xz *^ elt sh 7 +^
            SH_C2 4 * (xx - yy) *^ elt sh 8 in
        if (deg >? 2)%Z then
          result +^
            SH_C3 0 * y * (3 * xx - yy) *^ elt sh 9 +^
            SH_C3 1 * xy * z *^ elt sh 10 +^
            SH_C3 2 * y * (4 * zz - xx - yy) *^ elt sh 11 +^
            SH_C3 3 * z * (2 * zz - 3 * xx - 3 * yy) *^ elt sh 12 +^
            SH_C3 4 * x * (4 * zz - xx - yy) *^ elt sh 13 +^
            SH_C3 5 * z * (xx - yy) *^ elt sh 14 +^
            SH_C3 6 * x * (xx - 3 * yy) *^ elt sh 15
        else result
      else result
    else result in
  vadds result 0.5.

(** The two output arrays of the forward kernel. *)
Record fwd := Fwd { colors : list vec3; clamped : list bool }.

Definition set_colors (l : list vec3) (o : fwd) : fwd := Fwd l (clamped o).
Definition set_clamped (l : list bool) (o : fwd) : fwd := Fwd (colors o) l.

(** The worker of thread rank [idx].  The coefficients [sh[0..n-1]] that the
    body reads at this degree are loaded in one block, after [dirs[idx]]. *)
Definition ComputeColorFromSHForwardCUDAKernel (P : nat) (deg : Z) (max_coeffs : nat)
    (dirs : list vec3) (shs : list vec3) (visibility_filter : list bool)
    (idx : nat) : K fwd unit :=
  skip ← skipped b_visibility_filter P visibility_filter idx;
  if skip : bool then mret tt else
  dir ← load b_dirs dirs idx;
  sh ← load_block b_shs shs (idx * max_coeffs) (coeffs deg);
  let result := result deg dir sh in
  store b_clamped clamped set_clamped (3 * idx + 0) (fltb (v3x result) 0);;
  store b_clamped clamped set_clamped (3 * idx + 1) (fltb (v3y result) 0);;
  store b_clamped clamped set_clamped (3 * idx + 2) (fltb (v3z result) 0);;
  store b_colors colors set_colors idx (vmax result 0).

(** The body of the backward kernel after its loads: the values assigned to
    [dL_dsh[0]], [dL_dsh[1]], ... in order, and the final [dL_ddir].
    [dL_dcolor] is the colour gradient after the clamping rule. *)
Definition backward (deg : Z) (dir : vec3) (sh : list vec3) (dL_dcolor : vec3)
    : list vec3 * vec3 :=
  let dRGBdx := Vec3 0 0 0 in
  let dRGBdy := Vec3 0 0 0 in
  let dRGBdz := Vec3 0 0 0 in
  let x := v3x dir in
  let y := v3y dir in
  let z := v3z dir in
  let dRGBdsh0 := SH_C0 in
  let dL_dsh := [dRGBdsh0 *^ dL_dcolor] in
  let '(dL_dsh, dRGBdx, dRGBdy, dRGBdz) :=
    if (deg >? 0)%Z then
      let dRGBdsh1 := (- SH_C1) * y in
      let dRGBdsh2 := SH_C1 * z in
      let dRGBdsh3 := (- SH_C1) * x in
      let dL_dsh := dL_dsh ++
        [dRGBdsh1 *^ dL_dcolor; dRGBdsh2 *^ dL_dcolor; dRGBdsh3 *^ dL_dcolor] in
      let dRGBdx := (- SH_C1) *^ elt sh 3 in
      let dRGBdy := (- SH_C1) *^ elt sh 1 in
      let dRGBdz := SH_C1 *^ elt sh 2 in
      if (deg >? 1)%Z then
        let xx := x * x in let yy := y * y in let zz := z * z in
        let xy := x * y in let yz := y * z in let xz := x * z in
        let dRGBdsh4 := SH_C2 0 * xy in
        let dRGBdsh5 := SH_C2 1 * yz in
        let dRGBdsh6 := SH_C2 2 * (2 * zz - xx - yy) in
        let dRGBdsh7 := SH_C2 3 * xz in
        let dRGBdsh8 := SH_C2 4 * (xx - yy) in
        let dL_dsh := dL_dsh ++
          [dRGBdsh4 *^ dL_dcolor; dRGBdsh5 *^ dL_dcolor; dRGBdsh6 *^ dL_dcolor;
           dRGBdsh7 *^ dL_dcolor; dRGBdsh8 *^ dL_dcolor] in
        let dRGBdx := dRGBdx +^
          (SH_C2 0 * y *^ elt sh 4 +^ SH_C2 2 * 2 * (- x) *^ elt sh 6 +^
           SH_C2 3 * z *^ elt sh 7 +^ SH_C2 4 * 2 * x *^ elt sh 8) in
        let dRGBdy := dRGBdy +^
          (SH_C2 0 * x *^ elt sh 4 +^ SH_C2 1 * z *^ elt sh 5 +^
           SH_C2 2 * 2 * (- y) *^ elt sh 6 +^ SH_C2 4 * 2 * (- y) *^ elt sh 8) in
        let dRGBdz := dRGBdz +^
          (SH_C2 1 * y *^ elt sh 5 +^ SH_C2 2 * 2 * 2 * z *^ elt sh 6 +^
           SH_C2 3 * x *^ elt sh 7) in
        if (deg >? 2)%Z then
          let dRGBdsh9 := SH_C3 0 * y * (3 * xx - yy) in
          let dRGBdsh10 := SH_C3 1 * xy * z in
          let dRGBdsh11 := SH_C3 2 * y * (4 * zz - xx - yy) in
          let dRGBdsh12 := SH_C3 3 * z * (2 * zz - 3 * xx - 3 * yy) in
          let dRGBdsh13 := SH_C3 4 * x * (4 * zz - xx - yy) in
          let dRGBdsh14 := SH_C3 5 * z * (xx - yy) in
          let dRGBdsh15 := SH_C3 6 * x * (xx - 3 * yy) in
          let dL_dsh := dL_dsh ++
            [dRGBdsh9 *^ dL_dcolor; dRGBdsh10 *^ dL_dcolor; dRGBdsh11 *^ dL_dcolor;
             dRGBdsh12 *^ dL_dcolor; dRGBdsh13 *^ dL_dcolor; dRGBdsh14 *^ dL_dcolor;
             dRGBdsh15 *^ dL_dcolor] in
          let dRGBdx := dRGBdx +^ (
            SH_C3 0 *^ elt sh 9 ^* 3 ^* 2 ^* xy +^
            SH_C3 1 *^ elt sh 10 ^* yz +^
            SH_C3 2 *^ elt sh 11 ^* (-2) ^* xy +^
            SH_C3 3 *^ elt sh 12 ^* (-3) ^* 2 ^* xz +^
            SH_C3 4 *^ elt sh 13 ^* ((-3) * xx + 4 * zz - yy) +^
            SH_C3 5 *^ elt sh 14 ^* 2 ^* xz +^
            SH_C3 6 *^ elt sh 15 ^* 3 ^* (xx - yy)) in
          let dRGBdy := dRGBdy +^ (
            SH_C3 0 *^ elt sh 9 ^* 3 ^* (xx - yy) +^
            SH_C3 1 *^ elt sh 10 ^* xz +^
            SH_C3 2 *^ elt sh 11 ^* ((-3) * yy + 4 * zz - xx) +^
            SH_C3 3 *^ elt sh 12 ^* (-3) ^* 2 ^* yz +^
            SH_C3 4 *^ elt sh 13 ^* (-2) ^* xy +^
            SH_C3 5 *^ elt sh 14 ^* (-2) ^* yz +^
            SH_C3 6 *^ elt sh 15 ^* (-3) ^* 2 ^* xy) in
          let dRGBdz := dRGBdz +^ (
            SH_C3 1 *^ elt sh 10 ^* xy +^
            SH_C3 2 *^ elt sh 11 ^* 4 ^* 2 ^* yz +^
            SH_C3 3 *^ elt sh 12 ^* 3 ^* (2 * zz - xx - yy) +^
            SH_C3 4 *^ elt sh 13 ^* 4 ^* 2 ^* xz +^
            SH_C3 5 *^ elt sh 14 ^* (xx - yy)) in
          (dL_dsh, dRGBdx, dRGBdy, dRGBdz)
        else (dL_dsh, dRGBdx, dRGBdy, dRGBdz)
      else (dL_dsh, dRGBdx, dRGBdy, dRGBdz)
    else (dL_dsh, dRGBdx, dRGBdy, dRGBdz) in
  let dL_ddir := Vec3 (dot dRGBdx dL_dcolor) (dot dRGBdy dL_dcolor) (dot dRGBdz dL_dcolor) in
  (dL_dsh, dL_ddir).

(** [dL_dcolor.x *= clamped[3 * idx + 0] ? 0 : 1;] and likewise for y, z. *)
Definition clamp_rule (dL_dcolor : vec3) (c0 c1 c2 : bool) : vec3 :=
  Vec3 (v3x dL_dcolor * (if c0 then 0 else 1))
       (v3y dL_dcolor * (if c1 then 0 else 1))
       (v3z dL_dcolor * (if c2 then 0 else 1)).

(** The two output arrays of the backward kernel. *)
Record bwd := Bwd { dL_ddirs : list vec3; dL_dshs : list vec3 }.

Definition set_dL_ddirs (l : list vec3) (o : bwd) : bwd := Bwd l (dL_dshs o).
Definition set_dL_dshs (l : list vec3) (o : bwd) : bwd := Bwd (dL_ddirs o) l.

(** The worker of thread rank [idx].  The backward body never reads [sh[0]];
    the coefficients [sh[1..n-1]] it reads at this degree are loaded in one
    block, and position 0 of the local view [sh] is a placeholder. *)
Definition ComputeColorFromSHBackwardCUDAKernel (P : nat) (deg : Z) (max_coeffs : nat)
    (dirs : list vec3) (shs : list vec3) (visibility_filter : list bool)
    (clamped : list bool) (dL_dcolors : list vec3)
    (idx : nat) : K bwd unit :=
  skip ← skipped b_visibility_filter P visibility_filter idx;
  if skip : bool then mret tt else
  dir ← load b_dirs dirs idx;
  dL_dcolor ← load b_dL_dcolors dL_dcolors idx;
  c0 ← load b_clamped clamped (3 * idx + 0);
  c1 ← load b_clamped clamped (3 * idx + 1);
  c2 ← load b_clamped clamped (3 * idx + 2);
  let dL_dcolor := clamp_rule dL_dcolor c0 c1 c2 in
  sh ← load_block b_shs shs (idx * max_coeffs + 1) (coeffs deg - 1);
  let sh := vec3_zero :: sh in
  let '(dL_dsh, dL_ddir) := backward deg dir sh dL_dcolor in
  store_block b_dL_dshs dL_dshs set_dL_dshs (idx * max_coeffs) dL_dsh;;
  store b_dL_ddirs dL_ddirs set_dL_ddirs idx dL_ddir.

(** The host launchers.  The [float*] arguments are the same arrays seen as
    arrays of [glm::vec3]. *)
Definition ComputeColorFromSHForwardCUDA (P : nat) (deg : Z) (max_coeffs : nat)
    (dirs : list vec3) (shs : list vec3) (visibility_filter : list bool)
    : K fwd unit :=
  launch ((P + 255) / 256) 256
    (ComputeColorFromSHForwardCUDAKernel P deg max_coeffs dirs shs visibility_filter).

Definition ComputeColorFromSHBackwardCUDA (P : nat) (deg : Z) (max_coeffs : nat)
    (dirs : list vec3) (shs : list vec3) (visibility_filter : list bool)
    (clamped : list bool) (dL_dcolors : list vec3) : K bwd unit :=
  launch ((P + 255) / 256) 256
    (ComputeColorFromSHBackwardCUDAKernel P deg max_coeffs dirs shs
       visibility_filter clamped dL_dcolors).

End SH.

(** ** What one worker does to the output arrays

    The net effect of worker [idx] on the output arrays, as a function:
    used to describe the result of a whole launch. *)

Definition cov_fwd_effect (P : nat) (scales : list vec3) (uquats : list vec4)
    (visible : list bool) (idx : nat) (out : list R) : list R :=
  match visible !! idx, scales !! idx, uquats !! idx with
  | Some true, Some scale, Some quat =>
      if bool_decide (idx < P)%nat
      then list_inserts (6 * idx) (Cov3D.cov3D_values scale quat) out else out
  | _, _, _ => out
  end.

Definition cov_bwd_effect (P : nat) (scales : list vec3) (uquats : list vec4)
    (visible : list bool) (dL_dcov3Ds : list R)
    (idx : nat) (out : Cov3D.grads) : Cov3D.grads :=
  match visible !! idx, scales !! idx, uquats !! idx with
  | Some true, Some scale, Some quat =>
      if bool_decide (idx < P)%nat
      then
        let g := Cov3D.compute_cov3_backward scale quat
                   (take 6 (drop (6 * idx) dL_dcov3Ds)) in
        Cov3D.Grads (<[idx := g.1]> (Cov3D.dL_dscales out))
                    (<[idx := g.2]> (Cov3D.dL_duquats out))
      else out
  | _, _, _ => out
  end.

(** Both gradient arrays hold one row per primitive. *)
Definition grads_sized (P : nat) (g : Cov3D.grads) : Prop :=
  length (Cov3D.dL_dscales g) = P /\ length (Cov3D.dL_duquats g) = P.

(** ** The covariance in matrix terms

    Specification side: the two readings of "[Sigma = M^T M] with [M] made
    of [S] and the rotation matrix [R] of the quaternion". *)

(** [M^T M] for [M = S R^T], with [S = diag(scale)] and [R] the rotation
    matrix of the quaternion. *)
Definition cov_R_S2_Rt (scale : vec3) (quat : vec4) : Mat.matrix :=
  let M := Mat.mult (Mat.diag scale) (Mat.trans (Mat.rot quat)) in
  Mat.mult (Mat.trans M) M.

(** [M^T M] for [M = S R], the same with the rotation matrix itself. *)
Definition cov_Rt_S2_R (scale : vec3) (quat : vec4) : Mat.matrix :=
  let M := Mat.mult (Mat.diag scale) (Mat.rot quat) in
  Mat.mult (Mat.trans M) M.

(** The scalar [sum_k g[k] * cov3D[k]]: the covariance of a primitive
    paired with the gradient [g] that flows into its six entries. *)
Definition cov_pairing (g : list R) (scale : vec3) (quat : vec4) : R :=
  let c := Cov3D.cov3D_values scale quat in
  elt g 0 * elt c 0 + elt g 1 * elt c 1 + elt g 2 * elt c 2 +
  elt g 3 * elt c 3 + elt g 4 * elt c 4 + elt g 5 * elt c 5.

(** The full symmetric matrix of a six-entry gradient, the off-diagonal
    entries halved. *)
Definition halved_sym (g : list R) : Mat.matrix :=
  fun r c =>
    if Nat.eqb r c then Mat.sym_of_six g r c else 0.5 * Mat.sym_of_six g r c.

(** ** A small scene

    Two primitives, the first visible and turned by the unit quaternion
    [(3/5, 0, 0, 4/5)], the second culled. *)

Module Scene.

Definition scales : list vec3 := [Vec3 2 1 1; Vec3 1 1 1].
Definition uquats : list vec4 := [Vec4 (3/5) 0 0 (4/5); Vec4 1 0 0 0].
Definition visible : list bool := [true; false].
Definition cov3Ds : list R := replicate 12 0.
Definition dL_dcov3Ds : list R := [1; 2; 0; 0; 0; 1; 0; 0; 0; 0; 0; 0].
Definition grads0 : Cov3D.grads :=
  Cov3D.Grads (replicate 2 vec3_zero) (replicate 2 vec4_zero).

End Scene.

(** ** The spherical-harmonics expansion in mathematical terms

    Specification side: the basis functions, the truncated expansion, the
    clamp and the normalization that the properties below are stated
    with. *)

(** The real spherical-harmonics basis function number [k] of bands 0 to 3
    at the point [dir], with the band constants of the source. *)
Definition SH_basis (k : nat) (dir : vec3) : R :=
  let x := v3x dir in
  let y := v3y dir in
  let z := v3z dir in
  match k with
  | 0%nat => SH.SH_C0
  | 1%nat => - SH.SH_C1 * y
  | 2%nat => SH.SH_C1 * z
  | 3%nat => - SH.SH_C1 * x
  | 4%nat => SH.SH_C2 0 * (x * y)
  | 5%nat => SH.SH_C2 1 * (y * z)
  | 6%nat => SH.SH_C2 2 * (2 * (z * z) - x * x - y * y)
  | 7%nat => SH.SH_C2 3 * (x * z)
  | 8%nat => SH.SH_C2 4 * (x * x - y * y)
  | 9%nat => SH.SH_C3 0 * y * (3 * (x * x) - y * y)
  | 10%nat => SH.SH_C3 1 * (x * y) * z
  | 11%nat => SH.SH_C3 2 * y * (4 * (z * z) - x * x - y * y)
  | 12%nat => SH.SH_C3 3 * z * (2 * (z * z) - 3 * (x * x) - 3 * (y * y))
  | 13%nat => SH.SH_C3 4 * x * (4 * (z * z) - x * x - y * y)
  | 14%nat => SH.SH_C3 5 * z * (x * x - y * y)
  | 15%nat => SH.SH_C3 6 * x * (x * x - 3 * (y * y))
  | _ => 0
  end.

(** The expansion truncated to its first [n] terms:
    [sum_(k < n) SH_basis k dir * sh[k]], channel by channel. *)
Definition SH_expansion (n : nat) (dir : vec3) (sh : list vec3) : vec3 :=
  foldl (fun acc k => acc +^ SH_basis k dir *^ elt sh k) vec3_zero (seq 0 n).

(** The colour and the clamp mask that go with a pre-clamp value. *)
Definition clamp_color (raw : vec3) : vec3 := vmax raw 0.
Definition clamp_mask (raw : vec3) : list bool :=
  [fltb (v3x raw) 0; fltb (v3y raw) 0; fltb (v3z raw) 0].

(** [v / |v|] *)
Definition normalize (v : vec3) : vec3 := v ^* (/ sqrt (dot v v)).

(** A one-primitive scene for the colour evaluator: direction [(0, 0, 1)],
    every coefficient [(1, 1, 1)]. *)
Module SHScene.

Definition dirs : list vec3 := [Vec3 0 0 1].
Definition shs : list vec3 := replicate 16 (Vec3 1 1 1).
Definition visibility_filter : list bool := [true].
Definition fwd0 : SH.fwd := SH.Fwd [vec3_zero] [true; true; true].
Definition clamped : list bool := [false; true; false].
Definition dL_dcolors : list vec3 := [Vec3 1 2 3].
Definition bwd0 : SH.bwd := SH.Bwd [vec3_zero] (replicate 16 vec3_zero).

End SHScene.

(** ** The output slots of one primitive *)

Definition fwd_slots (i : nat) (o : SH.fwd) : option vec3 * list bool :=
  (SH.colors o !! i, take 3 (drop (3 * i) (SH.clamped o))).
Definition bwd_slots (max_coeffs i : nat) (o : SH.bwd) : option vec3 * list vec3 :=
  (SH.dL_ddirs o !! i, take max_coeffs (drop (i * max_coeffs) (SH.dL_dshs o))).
Definition cov_slots (i : nat) (o : list R) : list R := take 6 (drop (6 * i) o).
Definition grads_slots (i : nat) (g : Cov3D.grads) : option vec3 * option vec4 :=
  (Cov3D.dL_dscales g !! i, Cov3D.dL_duquats g !! i).

(** The primitives whose worker returns at the guard. *)
Definition is_skipped (P : nat) (visible : list bool) (i : nat) : Prop :=
  (P <= i)%nat \/ visible !! i = Some false.

(** ** Quaternions, determinant and trace

    Specification side: the notions the further properties of the
    covariance builder are stated with. *)

(** [r^2 + x^2 + y^2 + z^2] *)
Definition norm2 (q : vec4) : R :=
  v4x q * v4x q + v4y q * v4y q + v4z q * v4z q + v4w q * v4w q.
(** [-q], and the conjugate [(r, -x, -y, -z)] *)
Definition qneg (q : vec4) : vec4 := Vec4 (- v4x q) (- v4y q) (- v4z q) (- v4w q).
Definition qconj (q : vec4) : vec4 := Vec4 (v4x q) (- v4y q) (- v4z q) (- v4w q).
(** [a * u + v] on quaternion-shaped values *)
Definition qaxpy (a : R) (u v : vec4) : vec4 :=
  Vec4 (a * v4x u + v4x v) (a * v4y u + v4y v) (a * v4z u + v4z v) (a * v4w u + v4w v).
(** [a * u + v] on six-entry gradients *)
Definition axpy (a : R) (u v : list R) : list R := zip_with (fun x y => a * x + y) u v.

Definition det (A : Mat.matrix) : R :=
  A 0%nat 0%nat * (A 1%nat 1%nat * A 2%nat 2%nat - A 1%nat 2%nat * A 2%nat 1%nat)
  - A 0%nat 1%nat * (A 1%nat 0%nat * A 2%nat 2%nat - A 1%nat 2%nat * A 2%nat 0%nat)
  + A 0%nat 2%nat * (A 1%nat 0%nat * A 2%nat 1%nat - A 1%nat 1%nat * A 2%nat 0%nat).
Definition tr (A : Mat.matrix) : R := A 0%nat 0%nat + A 1%nat 1%nat + A 2%nat 2%nat.
(** The sum of the three principal 2x2 minors. *)
Definition minors (A : Mat.matrix) : R :=
  (A 0%nat 0%nat * A 1%nat 1%nat - A 0%nat 1%nat * A 1%nat 0%nat)
  + (A 0%nat 0%nat * A 2%nat 2%nat - A 0%nat 2%nat * A 2%nat 0%nat)
  + (A 1%nat 1%nat * A 2%nat 2%nat - A 1%nat 2%nat * A 2%nat 1%nat).

(** A six-entry covariance gradient to try the backward pass on. *)
Definition probe6 : list R := [1; 2; 0; 0; 0; 1].

(** The net effect of worker [idx] of the two colour kernels. *)
Definition sh_fwd_effect (P : nat) (deg : Z) (max_coeffs : nat)
    (dirs shs : list vec3) (visibility_filter : list bool)
    (idx : nat) (out : SH.fwd) : SH.fwd :=
  match visibility_filter !! idx, dirs !! idx with
  | Some true, Some dir =>
      if bool_decide (idx < P)%nat
      then
        let raw := SH.result deg dir
                     (take (SH.coeffs deg) (drop (idx * max_coeffs) shs)) in
        SH.Fwd (<[idx := clamp_color raw]> (SH.colors out))
               (list_inserts (3 * idx) (clamp_mask raw) (SH.clamped out))
      else out
  | _, _ => out
  end.

Definition sh_bwd_effect (P : nat) (deg : Z) (max_coeffs : nat)
    (dirs shs : list vec3) (visibility_filter clamped : list bool)
    (dL_dcolors : list vec3) (idx : nat) (out : SH.bwd) : SH.bwd :=
  match visibility_filter !! idx, dirs !! idx, dL_dcolors !! idx,
        clamped !! (3 * idx + 0)%nat, clamped !! (3 * idx + 1)%nat,
        clamped !! (3 * idx + 2)%nat with
  | Some true, Some dir, Some g, Some c0, Some c1, Some c2 =>
      if bool_decide (idx < P)%nat
      then
        let sh := vec3_zero
                  :: take (SH.coeffs deg - 1) (drop (idx * max_coeffs + 1) shs) in
        let r := SH.backward deg dir sh (SH.clamp_rule g c0 c1 c2) in
        SH.Bwd (<[idx := r.2]> (SH.dL_ddirs out))
               (list_inserts (idx * max_coeffs) r.1 (SH.dL_dshs out))
      else out
  | _, _, _, _, _, _ => out
  end.

(** The output arrays of the colour kernels hold the [P] primitives. *)
Definition fwd_sized (P : nat) (o : SH.fwd) : Prop :=
  (P <= length (SH.colors o))%nat /\ (3 * P <= length (SH.clamped o))%nat.
Definition bwd_sized (P max_coeffs : nat) (o : SH.bwd) : Prop :=
  (P <= length (SH.dL_ddirs o))%nat /\ (P * max_coeffs <= length (SH.dL_dshs o))%nat.

(** The output arrays after the workers [ranks] have run one after the
    other, worker [idx] acting as [f idx]. *)
Definition run_workers {St} (f : nat -> St -> St) (s : St) (ranks : list nat) : St :=
  foldl (fun s idx => f idx s) s ranks.

(** * The kernels in binary32

    The development above computes with exact reals.  The kernels compute
    in [float]: every literal is read as the nearest binary32 value and
    every operation is rounded to binary32 (round to nearest, ties to
    even).  This module evaluates the forward formulas that way, on the
    IEEE-754 operations of [SpecFloat] at precision 24, to tell what of the
    exact results survives rounding.  Each multiplication and addition is
    rounded on its own. *)

Module F32.

Definition f32 : Type := SpecFloat.spec_float.

Definition prec : Z := 24.
Definition emax : Z := 128.

Definition add (a b : f32) : f32 := SpecFloat.SFadd prec emax a b.
Definition sub (a b : f32) : f32 := SpecFloat.SFsub prec emax a b.
Definition mul (a b : f32) : f32 := SpecFloat.SFmul prec emax a b.
(** [a < b]: false when either is a NaN. *)
Definition ltb (a b : f32) : bool := SpecFloat.SFltb a b.

(** The literal [num/den] with suffix [f]: the binary32 value nearest to
    the rational.  The quotient is taken with 256 more bits than needed and
    a sticky bit for its remainder, then rounded once. *)
Definition lit (num : Z) (den : positive) : f32 :=
  let '(d, r) := Z.div_eucl (num * 2 ^ 256) (Zpos den) in
  let sticky := if (r =? 0)%Z then 0%Z else 1%Z in
  SpecFloat.binary_normalize prec emax (2 * d + sticky) (- 257) false.

(** An [int] converted to [float]. *)
Definition of_int (n : Z) : f32 := lit n 1.

(** The real number a finite value stands for (0 for the others). *)
Definition to_R (a : f32) : R :=
  match a with
  | SpecFloat.S754_finite s m e =>
      let v := if (0 <=? e)%Z then IZR (Zpos m * 2 ^ e)
               else IZR (Zpos m) / IZR (2 ^ (- e)) in
      if s then - v else v
  | _ => 0
  end.

Definition is_finite (a : f32) : bool :=
  match a with
  | SpecFloat.S754_finite _ _ _ | SpecFloat.S754_zero _ => true
  | _ => false
  end.

Declare Scope f32_scope.
Delimit Scope f32_scope with f32.
Bind Scope f32_scope with f32.
Infix "+" := add : f32_scope.
Infix "-" := sub : f32_scope.
Infix "*" := mul : f32_scope.
Local Open Scope f32_scope.

(** ** glm value types over binary32 *)

Record vec3 := Vec3 { v3x : f32; v3y : f32; v3z : f32 }.
Record vec4 := Vec4 { v4x : f32; v4y : f32; v4z : f32; v4w : f32 }.
Record mat3 := Mat3 { col0 : vec3; col1 : vec3; col2 : vec3 }.

Definition vidx (v : vec3) (j : nat) : f32 :=
  match j with O => v3x v | S O => v3y v | _ => v3z v end.
Definition mcol (m : mat3) (i : nat) : vec3 :=
  match i with O => col0 m | S O => col1 m | _ => col2 m end.
(** [m[i][j]]: column [i], row [j]. *)
Definition at_ (m : mat3) (i j : nat) : f32 := vidx (mcol m i) j.

Definition mat3_of (x0 y0 z0 x1 y1 z1 x2 y2 z2 : f32) : mat3 :=
  Mat3 (Vec3 x0 y0 z0) (Vec3 x1 y1 z1) (Vec3 x2 y2 z2).

(** [glm::mat3(s)] *)
Definition mat3_diag (s : f32) : mat3 :=
  Mat3 (Vec3 s (of_int 0) (of_int 0)) (Vec3 (of_int 0) s (of_int 0))
       (Vec3 (of_int 0) (of_int 0) s).

(** [m[0][0] = a; m[1][1] = b; m[2][2] = c;] *)
Definition set_diag (m : mat3) (a b c : f32) : mat3 :=
  Mat3 (Vec3 a (v3y (col0 m)) (v3z (col0 m)))
       (Vec3 (v3x (col1 m)) b (v3z (col1 m)))
       (Vec3 (v3x (col2 m)) (v3y (col2 m)) c).

Definition vadd (a b : vec3) : vec3 :=
  Vec3 (v3x a + v3x b) (v3y a + v3y b) (v3z a + v3z b).
Definition vsub (a b : vec3) : vec3 :=
  Vec3 (v3x a - v3x b) (v3y a - v3y b) (v3z a - v3z b).
(** scalar * vector *)
Definition smul (s : f32) (v : vec3) : vec3 :=
  Vec3 (s * v3x v) (s * v3y v) (s * v3z v).
(** vector + scalar *)
Definition vadds (v : vec3) (s : f32) : vec3 :=
  Vec3 (v3x v + s) (v3y v + s) (v3z v + s).

(** [glm::max(x, y)] is [(x < y) ? y : x]. *)
Definition fmax (x y : f32) : f32 := if ltb x y then y else x.
Definition vmax (v : vec3) (s : f32) : vec3 :=
  Vec3 (fmax (v3x v) s) (fmax (v3y v) s) (fmax (v3z v) s).

(** [glm::transpose] *)
Definition transpose (m : mat3) : mat3 :=
  mat3_of (at_ m 0 0) (at_ m 1 0) (at_ m 2 0)
          (at_ m 0 1) (at_ m 1 1) (at_ m 2 1)
          (at_ m 0 2) (at_ m 1 2) (at_ m 2 2).

(** [operator*(mat3, mat3)]: the three products of an entry are summed
    left to right. *)
Definition mmul_entry (m1 m2 : mat3) (c r : nat) : f32 :=
  at_ m1 0 r * at_ m2 c 0 + at_ m1 1 r * at_ m2 c 1 + at_ m1 2 r * at_ m2 c 2.
Definition mmul (m1 m2 : mat3) : mat3 :=
  let e := mmul_entry m1 m2 in
  (mat3_of (e 0 0) (e 0 1) (e 0 2)
           (e 1 0) (e 1 1) (e 1 2)
           (e 2 0) (e 2 1) (e 2 2))%nat.

Infix "+^" := vadd (at level 50, left associativity) : f32_scope.
Infix "-^" := vsub (at level 50, left associativity) : f32_scope.
Infix "*^" := smul (at level 40, left associativity) : f32_scope.
Infix "*m" := mmul (at level 40, left associativity) : f32_scope.

#[global] Instance vec3_inhabited : Inhabited vec3 :=
  populate (Vec3 (of_int 0) (of_int 0) (of_int 0)).

(** ** [compute_cov3d.cu], forward *)

Definition scale_vector_to_matrix (scale : vec3) : mat3 :=
  let S := mat3_diag (lit 1 1) in
  set_diag S (v3x scale) (v3y scale) (v3z scale).

Definition unit_quaternion_to_rotmatrix (uquat : vec4) : mat3 :=
  let r := v4x uquat in
  let x := v4y uquat in
  let y := v4z uquat in
  let z := v4w uquat in
  let one := lit 1 1 in
  let two := lit 2 1 in
  mat3_of
    (one - two * (y * y + z * z))
    (two * (x * y - r * z))
    (two * (x * z + r * y))
    (two * (x * y + r * z))
    (one - two * (x * x + z * z))
    (two * (y * z - r * x))
    (two * (x * z - r * y))
    (two * (y * z + r * x))
    (one - two * (x * x + y * y)).

(** The local [Sigma] of [compute_cov3d_forward]. *)
Definition Sigma (scale : vec3) (quat : vec4) : mat3 :=
  let S := scale_vector_to_matrix scale in
  let R := unit_quaternion_to_rotmatrix quat in
  let M := S *m R in
  transpose M *m M.

(** The values assigned to [cov3D[0]], ..., [cov3D[5]], in that order. *)
Definition cov3D_values (scale : vec3) (quat : vec4) : list f32 :=
  let Sigma := Sigma scale quat in
  [at_ Sigma 0 0; at_ Sigma 0 1; at_ Sigma 0 2;
   at_ Sigma 1 1; at_ Sigma 1 2; at_ Sigma 2 2].

(** ** The colour kernels, forward *)

Definition SH_C0 : f32 := lit 28209479177387814 100000000000000000.
Definition SH_C1 : f32 := lit 4886025119029199 10000000000000000.
Definition SH_C2 (i : nat) : f32 :=
  match i with
  | 0%nat => lit 10925484305920792 10000000000000000
  | 1%nat => lit (-10925484305920792) 10000000000000000
  | 2%nat => lit 31539156525252005 100000000000000000
  | 3%nat => lit (-10925484305920792) 10000000000000000
  | _ => lit 5462742152960396 10000000000000000
  end.
Definition SH_C3 (i : nat) : f32 :=
  match i with
  | 0%nat => lit (-5900435899266435) 10000000000000000
  | 1%nat => lit 2890611442640554 1000000000000000
  | 2%nat => lit (-4570457994644658) 10000000000000000
  | 3%nat => lit 3731763325901154 10000000000000000
  | 4%nat => lit (-4570457994644658) 10000000000000000
  | 5%nat => lit 1445305721320277 1000000000000000
  | _ => lit (-5900435899266435) 10000000000000000
  end.

(** The local [result] of the forward kernel once [result += 0.5f] is
    done. *)
Definition result (deg : Z) (dir : vec3) (sh : list vec3) : vec3 :=
  let two := lit 2 1 in
  let three := lit 3 1 in
  let four := lit 4 1 in
  let result := SH_C0 *^ elt sh 0 in
  let result :=
    if (deg >? 0)%Z then
      let x := v3x dir in
      let y := v3y dir in
      let z := v3z dir in
      let result :=
        result -^ SH_C1 * y *^ elt sh 1 +^ SH_C1 * z *^ elt sh 2 -^ SH_C1 * x *^ elt sh 3 in
      if (deg >? 1)%Z then
        let xx := x * x in let yy := y * y in let zz := z * z in
        let xy := x * y in let yz := y * z in let xz := x * z in
        let result :=
          result +^
            SH_C2 0 * xy *^ elt sh 4 +^
            SH_C2 1 * yz *^ elt sh 5 +^
            SH_C2 2 * (two * zz - xx - yy) *^ elt sh 6 +^
            SH_C2 3 * xz *^ elt sh 7 +^
            SH_C2 4 * (xx - yy) *^ elt sh 8 in
        if (deg >? 2)%Z then
          result +^
            SH_C3 0 * y * (three * xx - yy) *^ elt sh 9 +^
            SH_C3 1 * xy * z *^ elt sh 10 +^
            SH_C3 2 * y * (four * zz - xx - yy) *^ elt sh 11 +^
            SH_C3 3 * z * (two * zz - three * xx - three * yy) *^ elt sh 12 +^
            SH_C3 4 * x * (four * zz - xx - yy) *^ elt sh 13 +^
            SH_C3 5 * z * (xx - yy) *^ elt sh 14 +^
            SH_C3 6 * x * (xx - three * yy) *^ elt sh 15
        else result
      else result
    else result in
  vadds result (lit 5 10).

(** The three flags and the colour the forward worker stores:
    [clamped[3 * idx + c] = (result.c < 0)] and
    [colors[idx] = glm::max(result, 0.0f)]. *)
Definition forward (deg : Z) (dir : vec3) (sh : list vec3) : list bool * vec3 :=
  let result := result deg dir sh in
  ([ltb (v3x result) (of_int 0); ltb (v3y result) (of_int 0);
    ltb (v3z result) (of_int 0)],
   vmax result (lit 0 1)).

(** [dL_dcolor.x *= clamped[3 * idx + 0] ? 0 : 1;] and likewise for y, z, in
    the backward kernel. *)
Definition clamp_rule (dL_dcolor : vec3) (c0 c1 c2 : bool) : vec3 :=
  Vec3 (v3x dL_dcolor * of_int (if c0 then 0 else 1))
       (v3y dL_dcolor * of_int (if c1 then 0 else 1))
       (v3z dL_dcolor * of_int (if c2 then 0 else 1)).

End F32.

(** A rotation about the third axis, by the quaternion (0.6f, 0, 0, 0.8f),
    of a primitive that extends along its first axis only; and a probe
    vector. *)
Module FloatScene.

Definition scale : F32.vec3 := F32.Vec3 (F32.lit 1 1) (F32.lit 0 1) (F32.lit 0 1).
Definition quat : F32.vec4 :=
  F32.Vec4 (F32.lit 6 10) (F32.lit 0 1) (F32.lit 0 1) (F32.lit 8 10).
Definition probe : vec3 := Vec3 24 7 0.

(** One primitive seen along the third axis, its coefficient 0 all ones. *)
Definition dir : F32.vec3 := F32.Vec3 (F32.lit 0 1) (F32.lit 0 1) (F32.lit 1 1).
Definition sh : list F32.vec3 := [F32.Vec3 (F32.lit 1 1) (F32.lit 1 1) (F32.lit 1 1)].

End FloatScene.

(** * Properties *)

(** ** Running computations of the kernel monad *)

Section MemoryFacts.
Context {St : Type}.
Implicit Types (w : St * list event) (b : buffer).

Lemma bind_run {A B} (m : K St A) (f : A -> K St B) w :
  (m ≫= f) w = match m w with Some (a, w') => f a w' | None => None end.
Proof. reflexivity. Qed.

Lemma ret_run {A} (a : A) w : (mret a : K St A) w = Some (a, w).
Proof. reflexivity. Qed.

Lemma load_run {T} b (l : list T) i v w :
  l !! i = Some v -> load b l i w = Some (v, (w.1, w.2 ++ [Load b i])).
Proof. intros H. unfold load. now rewrite H. Qed.

Lemma load_block_run {T} b (l : list T) n : forall off w,
  (off + n <= length l)%nat ->
  load_block b l off n w
  = Some (take n (drop off l), (w.1, w.2 ++ map (Load b) (seq off n))).
Proof.
  induction n as [|n IH]; intros off w Hlen.
  - cbn. rewrite app_nil_r. now destruct w.
  - destruct (lookup_lt_is_Some_2 l off) as [v Hv]; [lia|].
    cbn [load_block]. rewrite bind_run, (load_run _ _ _ _ _ Hv).
    rewrite bind_run, IH by lia. cbn [fst snd].
    rewrite ret_run. cbn [seq map]. rewrite <- app_assoc. cbn [app].
    do 3 f_equal.
    rewrite (drop_S _ _ _ Hv). reflexivity.
Qed.

Lemma skipped_out b (P : nat) (visible : list bool) idx w :
  (P <= idx)%nat -> skipped b P visible idx w = Some (true, w).
Proof. intros H. unfold skipped. now rewrite bool_decide_eq_true_2. Qed.

Lemma skipped_in b (P : nat) (visible : list bool) idx v w :
  (idx < P)%nat -> visible !! idx = Some v ->
  skipped b P visible idx w = Some (negb v, (w.1, w.2 ++ [Load b idx])).
Proof.
  intros H Hv. unfold skipped. rewrite bool_decide_eq_false_2 by lia.
  rewrite bind_run, (load_run _ _ _ _ _ Hv). reflexivity.
Qed.

Lemma exec_run {A} (k : K St A) s a s' tr :
  k (s, []) = Some (a, (s', tr)) -> exec k s = Some s'.
Proof. intros H. unfold exec. now rewrite H. Qed.

Section Field.
Context {T : Type} (get : St -> list T) (set : list T -> St -> St).
Hypothesis get_set : forall l s, get (set l s) = l.
Hypothesis set_set : forall l l' s, set l (set l' s) = set l s.
Hypothesis set_get : forall s, set (get s) s = s.

Lemma store_run b i (v : T) w :
  (i < length (get w.1))%nat ->
  store b get set i v w
  = Some (tt, (set (<[i := v]> (get w.1)) w.1, w.2 ++ [Store b i])).
Proof. intros H. unfold store. now rewrite decide_True. Qed.

Lemma store_block_run b (vs : list T) : forall off w,
  (off + length vs <= length (get w.1))%nat ->
  store_block b get set off vs w
  = Some (tt, (set (list_inserts off vs (get w.1)) w.1,
               w.2 ++ map (Store b) (seq off (length vs)))).
Proof.
  induction vs as [|v vs IH]; intros off w Hlen.
  - cbn. rewrite set_get, app_nil_r. now destruct w.
  - cbn [store_block length] in *. rewrite bind_run, store_run by lia.
    rewrite IH; cbn [fst snd].
    + rewrite get_set, set_set. cbn [seq map list_inserts].
      rewrite <- app_assoc. cbn [app]. do 4 f_equal.
      rewrite list_insert_inserts_lt by lia. reflexivity.
    + rewrite get_set, length_insert. lia.
Qed.

End Field.
End MemoryFacts.

Lemma take_drop_inserts {A} (l k : list A) i :
  (i + length k <= length l)%nat ->
  take (length k) (drop i (list_inserts i k l)) = k.
Proof.
  intros H. apply list_eq. intros j.
  destruct (decide (j < length k)%nat) as [Hj|Hj].
  - rewrite lookup_take_lt, lookup_drop, list_lookup_inserts by lia.
    f_equal. lia.
  - rewrite lookup_take_ge by lia. symmetry. apply lookup_ge_None. lia.
Qed.

Lemma six_cases (g : list R) :
  length g = 6%nat -> exists g0 g1 g2 g3 g4 g5, g = [g0; g1; g2; g3; g4; g5].
Proof.
  intros H. do 6 (destruct g as [|? g]; [discriminate|]).
  destruct g; [|discriminate]. eauto 10.
Qed.

(** ** Derivatives of polynomial expressions *)

Lemma dpl_ext (f : R -> R) x l l' :
  derivable_pt_lim f x l -> l = l' -> derivable_pt_lim f x l'.
Proof. intros H <-. exact H. Qed.

Lemma dpl_plus (f g : R -> R) x lf lg :
  derivable_pt_lim f x lf -> derivable_pt_lim g x lg ->
  derivable_pt_lim (fun t => f t + g t) x (lf + lg).
Proof. apply derivable_pt_lim_plus. Qed.

Lemma dpl_minus (f g : R -> R) x lf lg :
  derivable_pt_lim f x lf -> derivable_pt_lim g x lg ->
  derivable_pt_lim (fun t => f t - g t) x (lf - lg).
Proof. apply derivable_pt_lim_minus. Qed.

Lemma dpl_mult (f g : R -> R) x lf lg :
  derivable_pt_lim f x lf -> derivable_pt_lim g x lg ->
  derivable_pt_lim (fun t => f t * g t) x (lf * g x + f x * lg).
Proof. apply derivable_pt_lim_mult. Qed.

Lemma dpl_opp (f : R -> R) x lf :
  derivable_pt_lim f x lf -> derivable_pt_lim (fun t => - f t) x (- lf).
Proof. apply derivable_pt_lim_opp. Qed.

(** Differentiates an expression built from [+], [-], [*] and constants,
    leaving the derivative it finds in the goal's existential. *)
Ltac differentiate :=
  lazymatch goal with
  | |- derivable_pt_lim (fun _ => ?c) _ _ => apply derivable_pt_lim_const
  | |- derivable_pt_lim (fun t => t) _ _ => apply derivable_pt_lim_id
  | |- derivable_pt_lim (fun t => @?f t + @?g t) _ _ =>
      refine (dpl_plus f g _ _ _ _ _); differentiate
  | |- derivable_pt_lim (fun t => @?f t - @?g t) _ _ =>
      refine (dpl_minus f g _ _ _ _ _); differentiate
  | |- derivable_pt_lim (fun t => @?f t * @?g t) _ _ =>
      refine (dpl_mult f g _ _ _ _ _); differentiate
  | |- derivable_pt_lim (fun t => - @?f t) _ _ =>
      refine (dpl_opp f _ _ _); differentiate
  end.

(** Unfolds the embedding down to real arithmetic. *)
Ltac to_reals :=
  cbv -[Rplus Rmult Rminus Ropp Rdiv Rinv IZR Rlt_dec Rle_dec
        SH.SH_C0 SH.SH_C1 SH.SH_C2 SH.SH_C3 derivable_pt_lim Rlt Rle Rge Rgt].

(** [f] has derivative [l] at [x]; solved by differentiating [f] and
    comparing the result with [l] as polynomials. *)
Ltac derivative :=
  to_reals; eapply dpl_ext; [differentiate | cbv beta; field].

(** Writes out the powers of two that [F32.to_R] leaves in the goal. *)
Ltac powers_of_two :=
  repeat match goal with
         | |- context [IZR (2 ^ ?e)] =>
             let v := eval vm_compute in (2 ^ e)%Z in change (2 ^ e)%Z with v
         end.

(** ** Launches *)

Lemma seq_split_at (n i : nat) :
  (i < n)%nat -> seq 0 n = seq 0 i ++ i :: seq (S i) (n - S i).
Proof.
  intros H. replace n with (i + S (n - S i))%nat at 1 by lia.
  rewrite seq_app. reflexivity.
Qed.

Section LaunchFacts.
Context {St : Type}.

(** A worker that returns at once leaves no mark. *)
Lemma for_ranks_idle (body : nat -> K St unit) ranks w :
  (forall idx w', idx ∈ ranks -> body idx w' = Some (tt, w')) ->
  for_ranks body ranks w = Some (tt, w).
Proof.
  induction ranks as [|i ranks IH]; intros H; [reflexivity|].
  cbn [for_ranks]. rewrite bind_run, H by constructor.
  apply IH. intros idx w' Hin. apply H. now constructor.
Qed.

(** When every worker succeeds and acts on the output arrays as [f] says,
    so does the sequence of workers. *)
Lemma for_ranks_run (body : nat -> K St unit) (f : nat -> St -> St)
    (I : St -> Prop) ranks :
  (forall idx s tr, I s ->
     I (f idx s) /\ exists tr', body idx (s, tr) = Some (tt, (f idx s, tr'))) ->
  forall s tr, I s ->
  I (foldl (fun s idx => f idx s) s ranks) /\
  exists tr', for_ranks body ranks (s, tr)
              = Some (tt, (foldl (fun s idx => f idx s) s ranks, tr')).
Proof.
  intros Hbody. induction ranks as [|i ranks IH]; intros s tr Hs.
  - split; [assumption|]. now exists tr.
  - destruct (Hbody i s tr Hs) as [HI [tr1 E1]].
    destruct (IH (f i s) tr1 HI) as [HI' [tr2 E2]].
    split; [assumption|]. exists tr2.
    cbn [for_ranks foldl]. now rewrite bind_run, E1.
Qed.

Lemma launch_run grid block (kernel : nat -> K St unit) w :
  launch grid block kernel w
  = for_ranks kernel (seq 0 (grid * block)) (w.1, w.2 ++ [Launch grid block]).
Proof. reflexivity. Qed.

(** An update that leaves a property of the state alone, iterated. *)
Lemma foldl_frame (f : nat -> St -> St) {V} (obs : St -> V) ranks :
  (forall idx s, idx ∈ ranks -> obs (f idx s) = obs s) ->
  forall s, obs (foldl (fun s idx => f idx s) s ranks) = obs s.
Proof.
  induction ranks as [|i ranks IH]; intros H s; [reflexivity|].
  cbn [foldl]. rewrite IH.
  - apply H. constructor.
  - intros idx s' Hin. apply H. now constructor.
Qed.

Lemma foldl_inv (f : nat -> St -> St) (I : St -> Prop) ranks :
  (forall idx s, I s -> I (f idx s)) ->
  forall s, I s -> I (foldl (fun s idx => f idx s) s ranks).
Proof.
  intros H. induction ranks as [|i ranks IH]; intros s Hs; [assumption|].
  cbn [foldl]. apply IH, H, Hs.
Qed.

(** Over the ranks [0 .. n-1], what is observed of primitive [i] at the end
    is what its own worker left. *)
Lemma foldl_seq_own (f : nat -> St -> St) {V} (obs : St -> V) n i :
  (i < n)%nat ->
  (forall idx s, idx <> i -> obs (f idx s) = obs s) ->
  forall s, obs (foldl (fun s idx => f idx s) s (seq 0 n))
            = obs (f i (foldl (fun s idx => f idx s) s (seq 0 i))).
Proof.
  intros Hi Hother s. rewrite (seq_split_at n i Hi), foldl_app. cbn [foldl].
  apply foldl_frame. intros idx s' Hin. apply Hother.
  apply elem_of_seq in Hin. lia.
Qed.

End LaunchFacts.

(** The launch grid covers every primitive. *)
Lemma grid_covers (P : nat) : (P <= (P + 255) / 256 * 256)%nat.
Proof.
  pose proof (Nat.div_mod_eq (P + 255) 256) as E.
  pose proof (Nat.mod_upper_bound (P + 255) 256). lia.
Qed.

(** ** The covariance kernels, worker by worker *)

Section Cov3DKernels.
Import Cov3D.
Variables (P : nat) (scales : list vec3) (uquats : list vec4) (visible : list bool).

Lemma cov_fwd_out idx w :
  (P <= idx)%nat ->
  computeCov3DForwardCUDAKernel P scales uquats visible idx w = Some (tt, w).
Proof.
  intros H. unfold computeCov3DForwardCUDAKernel.
  now rewrite bind_run, skipped_out.
Qed.

Lemma cov_fwd_invisible idx w :
  (idx < P)%nat -> visible !! idx = Some false ->
  computeCov3DForwardCUDAKernel P scales uquats visible idx w
  = Some (tt, (w.1, w.2 ++ [Load b_visible idx])).
Proof.
  intros H Hv. unfold computeCov3DForwardCUDAKernel.
  now rewrite bind_run, (skipped_in _ _ _ _ _ _ H Hv).
Qed.

Lemma cov_fwd_visible idx scale quat w :
  (idx < P)%nat -> visible !! idx = Some true ->
  scales !! idx = Some scale -> uquats !! idx = Some quat ->
  (6 * idx + 6 <= length w.1)%nat ->
  computeCov3DForwardCUDAKernel P scales uquats visible idx w
  = Some (tt, (list_inserts (6 * idx) (cov3D_values scale quat) w.1,
               w.2 ++ [Load b_visible idx; Load b_scales idx; Load b_uquats idx]
                   ++ map (Store b_cov3Ds) (seq (6 * idx) 6))).
Proof.
  intros H Hv Hs Hq Hlen. unfold computeCov3DForwardCUDAKernel.
  rewrite bind_run, (skipped_in _ _ _ _ _ _ H Hv). cbn [negb].
  rewrite bind_run, (load_run _ _ _ _ _ Hs).
  rewrite bind_run, (load_run _ _ _ _ _ Hq).
  unfold compute_cov3d_forward.
  rewrite (store_block_run cov3Ds set_cov3Ds); try reflexivity.
  - cbn [fst snd]. unfold cov3Ds, set_cov3Ds. rewrite <- !app_assoc. reflexivity.
  - cbn [fst snd]. unfold cov3Ds. cbn [cov3D_values length]. lia.
Qed.

Hypothesis visible_len : (P <= length visible)%nat.
Hypothesis scales_len : (P <= length scales)%nat.
Hypothesis uquats_len : (P <= length uquats)%nat.

Lemma cov_fwd_worker idx out tr :
  length out = (P * 6)%nat ->
  length (cov_fwd_effect P scales uquats visible idx out) = (P * 6)%nat /\
  exists tr', computeCov3DForwardCUDAKernel P scales uquats visible idx (out, tr)
              = Some (tt, (cov_fwd_effect P scales uquats visible idx out, tr')).
Proof.
  intros Hlen. unfold cov_fwd_effect.
  destruct (decide (idx < P)%nat) as [Hin|Hout].
  - destruct (lookup_lt_is_Some_2 visible idx) as [v Hv]; [lia|].
    destruct (lookup_lt_is_Some_2 scales idx) as [s Hs]; [lia|].
    destruct (lookup_lt_is_Some_2 uquats idx) as [q Hq]; [lia|].
    rewrite Hv, Hs, Hq, bool_decide_eq_true_2 by assumption.
    destruct v.
    + split; [now rewrite length_inserts|].
      eexists. apply cov_fwd_visible; cbn [fst]; try assumption; lia.
    + split; [assumption|]. eexists. now apply cov_fwd_invisible.
  - rewrite bool_decide_eq_false_2 by assumption.
    split; [repeat case_match; assumption|].
    exists tr. rewrite cov_fwd_out by lia. repeat case_match; reflexivity.
Qed.

(** Worker [idx] leaves the rows of the other primitives alone. *)
Lemma cov_fwd_effect_other idx i k out :
  idx <> i -> (k < 6)%nat ->
  cov_fwd_effect P scales uquats visible idx out !! (6 * i + k)%nat = out !! (6 * i + k)%nat.
Proof.
  intros Hne Hk. unfold cov_fwd_effect. repeat case_match; try reflexivity.
  destruct (decide (i < idx)%nat).
  - apply list_lookup_inserts_lt. lia.
  - apply list_lookup_inserts_ge. cbn [cov3D_values length]. lia.
Qed.

End Cov3DKernels.

Section Cov3DBackwardKernels.
Import Cov3D.
Variables (P : nat) (scales : list vec3) (uquats : list vec4) (visible : list bool)
          (dL_dcov3Ds : list R).

Lemma cov_bwd_out idx w :
  (P <= idx)%nat ->
  computeCov3DBackwardCUDAKernel P scales uquats visible dL_dcov3Ds idx w = Some (tt, w).
Proof.
  intros H. unfold computeCov3DBackwardCUDAKernel.
  now rewrite bind_run, skipped_out.
Qed.

Lemma cov_bwd_invisible idx w :
  (idx < P)%nat -> visible !! idx = Some false ->
  computeCov3DBackwardCUDAKernel P scales uquats visible dL_dcov3Ds idx w
  = Some (tt, (w.1, w.2 ++ [Load b_visible idx])).
Proof.
  intros H Hv. unfold computeCov3DBackwardCUDAKernel.
  now rewrite bind_run, (skipped_in _ _ _ _ _ _ H Hv).
Qed.

Lemma cov_bwd_visible idx scale quat w :
  (idx < P)%nat -> visible !! idx = Some true ->
  scales !! idx = Some scale -> uquats !! idx = Some quat ->
  (6 * idx + 6 <= length dL_dcov3Ds)%nat ->
  (idx < length (dL_dscales w.1))%nat -> (idx < length (dL_duquats w.1))%nat ->
  let g := compute_cov3_backward scale quat (take 6 (drop (6 * idx) dL_dcov3Ds)) in
  computeCov3DBackwardCUDAKernel P scales uquats visible dL_dcov3Ds idx w
  = Some (tt, (Grads (<[idx := g.1]> (dL_dscales w.1)) (<[idx := g.2]> (dL_duquats w.1)),
               w.2 ++ [Load b_visible idx; Load b_scales idx; Load b_uquats idx]
                   ++ map (Load b_dL_dcov3Ds) (seq (6 * idx) 6)
                   ++ [Store b_dL_dscales idx; Store b_dL_duquats idx])).
Proof.
  intros H Hv Hs Hq Hlen Hl1 Hl2 g. unfold computeCov3DBackwardCUDAKernel.
  rewrite bind_run, (skipped_in _ _ _ _ _ _ H Hv). cbn [negb].
  rewrite bind_run, (load_run _ _ _ _ _ Hs).
  rewrite bind_run, (load_run _ _ _ _ _ Hq).
  rewrite bind_run, load_block_run by lia. fold g.
  destruct g as [ds dq] eqn:Eg.
  rewrite bind_run, (store_run dL_dscales set_dL_dscales) by assumption.
  rewrite (store_run dL_duquats set_dL_duquats) by assumption.
  cbn [fst snd dL_dscales dL_duquats set_dL_dscales set_dL_duquats].
  rewrite <- !app_assoc. reflexivity.
Qed.

Hypothesis visible_len : (P <= length visible)%nat.
Hypothesis scales_len : (P <= length scales)%nat.
Hypothesis uquats_len : (P <= length uquats)%nat.
Hypothesis dL_dcov3Ds_len : (P * 6 <= length dL_dcov3Ds)%nat.

Lemma cov_bwd_worker idx out tr :
  grads_sized P out ->
  grads_sized P (cov_bwd_effect P scales uquats visible dL_dcov3Ds idx out) /\
  exists tr', computeCov3DBackwardCUDAKernel P scales uquats visible dL_dcov3Ds idx (out, tr)
              = Some (tt, (cov_bwd_effect P scales uquats visible dL_dcov3Ds idx out, tr')).
Proof.
  intros [Hl1 Hl2]. unfold cov_bwd_effect.
  destruct (decide (idx < P)%nat) as [Hin|Hout].
  - destruct (lookup_lt_is_Some_2 visible idx) as [v Hv]; [lia|].
    destruct (lookup_lt_is_Some_2 scales idx) as [s Hs]; [lia|].
    destruct (lookup_lt_is_Some_2 uquats idx) as [q Hq]; [lia|].
    rewrite Hv, Hs, Hq, bool_decide_eq_true_2 by assumption.
    destruct v.
    + split; [split; cbn; now rewrite length_insert|].
      eexists. apply cov_bwd_visible; cbn [fst]; try assumption; lia.
    + split; [now split|]. eexists. now apply cov_bwd_invisible.
  - rewrite bool_decide_eq_false_2 by assumption.
    split; [repeat case_match; now split|].
    exists tr. rewrite cov_bwd_out by lia. repeat case_match; reflexivity.
Qed.

Lemma cov_bwd_effect_other idx i out :
  idx <> i ->
  let out' := cov_bwd_effect P scales uquats visible dL_dcov3Ds idx out in
  (dL_dscales out' !! i, dL_duquats out' !! i) = (dL_dscales out !! i, dL_duquats out !! i).
Proof.
  intros Hne. unfold cov_bwd_effect. repeat case_match; try reflexivity.
  cbn. now rewrite !list_lookup_insert_ne by assumption.
Qed.

End Cov3DBackwardKernels.

(** ** The host entry points of the covariance builder *)

Section Cov3DHost.
Import Cov3D.

Lemma computeCov3DForward_rows (scales : list vec3) (uquats : list vec4)
    (visible : list bool) :
  let P := length scales in
  (P <= length uquats)%nat -> (P <= length visible)%nat ->
  exists cov tr,
    computeCov3DForward scales uquats visible = Some (cov, tr) /\
    length cov = (P * 6)%nat /\
    forall i k, (i < P)%nat -> (k < 6)%nat ->
      (visible !! i = Some false -> cov !! (6 * i + k)%nat = Some 0) /\
      (forall scale quat, visible !! i = Some true ->
         scales !! i = Some scale -> uquats !! i = Some quat ->
         cov !! (6 * i + k)%nat = cov3D_values scale quat !! k).
Proof.
  intros P Hq Hv. unfold computeCov3DForward. fold P.
  destruct (decide (P = 0%nat)) as [HP|HP].
  - rewrite bool_decide_eq_false_2 by (intros H; apply H, HP).
    exists (replicate (P * 6) 0), []. cbn.
    split; [reflexivity|]. split; [now rewrite length_replicate|]. intros; lia.
  - rewrite bool_decide_eq_true_2 by assumption.
    set (f := cov_fwd_effect P scales uquats visible).
    set (init := replicate (P * 6) 0).
    assert (Hinit : length init = (P * 6)%nat) by apply length_replicate.
    assert (Hw : forall idx s tr, length s = (P * 6)%nat ->
              length (f idx s) = (P * 6)%nat /\
              exists tr', computeCov3DForwardCUDAKernel P scales uquats visible idx (s, tr)
                          = Some (tt, (f idx s, tr'))).
    { intros. apply cov_fwd_worker; try assumption. subst P; lia. }
    destruct (for_ranks_run _ f _ (seq 0 ((P + 255) / 256 * 256)) Hw init
                [Launch ((P + 255) / 256) 256] Hinit) as [Hlen [tr' E]].
    cbn [mbind option_bind]. rewrite launch_run. cbn [fst snd app]. rewrite E.
    eexists _, _. split; [reflexivity|]. cbn [snd fst]. split; [exact Hlen|].
    intros i k Hi Hk.
    pose proof (grid_covers P) as Hgrid.
    rewrite (foldl_seq_own f (fun s => s !! (6 * i + k)%nat) _ i) by
      (try lia; intros; now apply cov_fwd_effect_other).
    set (s1 := foldl _ init (seq 0 i)).
    assert (Hs1 : length s1 = (P * 6)%nat).
    { apply (foldl_inv f (fun s => length s = (P * 6)%nat)); [|assumption].
      intros idx s Hs. now apply (Hw idx s []). }
    assert (Hrow : s1 !! (6 * i + k)%nat = Some 0).
    { unfold s1. rewrite (foldl_frame f (fun s => s !! (6 * i + k)%nat)).
      - apply lookup_replicate_2. lia.
      - intros idx s Hin. apply elem_of_seq in Hin.
        apply cov_fwd_effect_other; lia. }
    split.
    + intros Hf. unfold f, cov_fwd_effect. rewrite Hf. exact Hrow.
    + intros scale quat Ht Hs Hq'. unfold f, cov_fwd_effect.
      rewrite Ht, Hs, Hq', bool_decide_eq_true_2 by assumption.
      rewrite list_lookup_inserts by (cbn [cov3D_values length]; lia).
      f_equal. lia.
Qed.

Lemma computeCov3DBackward_rows (scales : list vec3) (uquats : list vec4)
    (visible : list bool) (dL_dcov3Ds : list R) :
  let P := length scales in
  (P <= length uquats)%nat -> (P <= length visible)%nat ->
  (P * 6 <= length dL_dcov3Ds)%nat ->
  exists g tr,
    computeCov3DBackward scales uquats visible dL_dcov3Ds = Some (g, tr) /\
    length (dL_dscales g) = P /\ length (dL_duquats g) = P /\
    forall i, (i < P)%nat ->
      (visible !! i = Some false ->
         dL_dscales g !! i = Some vec3_zero /\ dL_duquats g !! i = Some vec4_zero) /\
      (forall scale quat, visible !! i = Some true ->
         scales !! i = Some scale -> uquats !! i = Some quat ->
         let r := compute_cov3_backward scale quat (take 6 (drop (6 * i) dL_dcov3Ds)) in
         dL_dscales g !! i = Some r.1 /\ dL_duquats g !! i = Some r.2).
Proof.
  intros P Hq Hv Hg. unfold computeCov3DBackward. fold P.
  destruct (decide (P = 0%nat)) as [HP|HP].
  - rewrite bool_decide_eq_false_2 by (intros H; apply H, HP).
    eexists _, _. cbn. split; [reflexivity|]. cbn.
    rewrite !length_replicate. repeat split; try reflexivity; lia.
  - rewrite bool_decide_eq_true_2 by assumption.
    set (f := cov_bwd_effect P scales uquats visible dL_dcov3Ds).
    set (init := Grads (replicate P vec3_zero) (replicate P vec4_zero)).
    assert (Hinit : grads_sized P init).
    { split; apply length_replicate. }
    assert (Hw : forall idx s tr, grads_sized P s ->
              grads_sized P (f idx s) /\
              exists tr', computeCov3DBackwardCUDAKernel P scales uquats visible
                            dL_dcov3Ds idx (s, tr) = Some (tt, (f idx s, tr'))).
    { intros. apply cov_bwd_worker; try assumption. subst P; lia. }
    destruct (for_ranks_run _ f _ (seq 0 ((P + 255) / 256 * 256)) Hw init
                [Launch ((P + 255) / 256) 256] Hinit) as [[Hl1 Hl2] [tr' E]].
    cbn [mbind option_bind]. rewrite launch_run. cbn [fst snd app]. rewrite E.
    eexists _, _. split; [reflexivity|]. cbn [snd fst].
    split; [exact Hl1|]. split; [exact Hl2|].
    intros i Hi.
    pose proof (grid_covers P) as Hgrid.
    pose proof (foldl_seq_own f (fun s => (dL_dscales s !! i, dL_duquats s !! i))
                  ((P + 255) / 256 * 256) i) as Hown.
    cbv beta in Hown. specialize (Hown ltac:(lia)
      ltac:(intros; now apply cov_bwd_effect_other) init).
    pose proof (f_equal fst Hown) as Hown1. pose proof (f_equal snd Hown) as Hown2.
    cbn [fst snd] in Hown1, Hown2. rewrite Hown1, Hown2. clear Hown Hown1 Hown2.
    set (s1 := foldl _ init (seq 0 i)).
    assert (Hs1 : grads_sized P s1).
    { apply (foldl_inv f (grads_sized P)); [|assumption].
      intros idx s Hs. now apply (Hw idx s []). }
    assert (Hrow : (dL_dscales s1 !! i, dL_duquats s1 !! i)
                   = (Some vec3_zero, Some vec4_zero)).
    { unfold s1.
      rewrite (foldl_frame f (fun s => (dL_dscales s !! i, dL_duquats s !! i))).
      - cbn. now rewrite !lookup_replicate_2 by lia.
      - intros idx s Hin. apply cov_bwd_effect_other.
        apply elem_of_seq in Hin. lia. }
    pose proof (f_equal fst Hrow) as Hr1. pose proof (f_equal snd Hrow) as Hr2.
    cbn [fst snd] in Hr1, Hr2. destruct Hs1 as [Hs1 Hs2].
    split.
    + intros Hf. unfold f, cov_bwd_effect. rewrite Hf. now split.
    + intros scale quat Ht Hs Hq'. unfold f, cov_bwd_effect.
      rewrite Ht, Hs, Hq', bool_decide_eq_true_2 by assumption.
      cbn [dL_dscales dL_duquats].
      rewrite !list_lookup_insert_eq by lia. now split.
Qed.

End Cov3DHost.

(** ** The covariance formulas *)

Section Cov3DMath.
Import Cov3D.

(** The glm matrix built by [unit_quaternion_to_rotmatrix] lists the
    entries of the textbook rotation matrix row by row, and glm reads them
    column by column: it denotes the transpose. *)
Lemma rotmatrix_is_transposed quat r c :
  (r < 3)%nat -> (c < 3)%nat ->
  Mat.of_glm (unit_quaternion_to_rotmatrix quat) r c = Mat.trans (Mat.rot quat) r c.
Proof.
  intros Hr Hc.
  destruct r as [|[|[|r]]]; destruct c as [|[|[|c]]]; try lia; reflexivity.
Qed.

Lemma scale_matrix_is_diag scale r c :
  (r < 3)%nat -> (c < 3)%nat ->
  Mat.of_glm (scale_vector_to_matrix scale) r c = Mat.diag scale r c.
Proof.
  intros Hr Hc.
  destruct r as [|[|[|r]]]; destruct c as [|[|[|c]]]; try lia; reflexivity.
Qed.

Lemma mmul_is_mult A B r c :
  (r < 3)%nat -> (c < 3)%nat ->
  Mat.of_glm (A *m B) r c = Mat.mult (Mat.of_glm A) (Mat.of_glm B) r c.
Proof.
  intros Hr Hc.
  destruct r as [|[|[|r]]]; destruct c as [|[|[|c]]]; try lia; reflexivity.
Qed.

Lemma transpose_is_trans A r c :
  (r < 3)%nat -> (c < 3)%nat ->
  Mat.of_glm (transpose A) r c = Mat.trans (Mat.of_glm A) r c.
Proof.
  intros Hr Hc.
  destruct r as [|[|[|r]]]; destruct c as [|[|[|c]]]; try lia; reflexivity.
Qed.

Lemma cov3D_values_upper scale quat :
  cov3D_values scale quat = Mat.upper (cov_R_S2_Rt scale quat).
Proof.
  unfold cov3D_values, Mat.upper, cov_R_S2_Rt. repeat f_equal; to_reals; ring.
Qed.

Lemma cov_R_S2_Rt_alt scale quat r c :
  (r < 3)%nat -> (c < 3)%nat ->
  cov_R_S2_Rt scale quat r c
  = Mat.mult (Mat.mult (Mat.rot quat) (Mat.mult (Mat.diag scale) (Mat.diag scale)))
             (Mat.trans (Mat.rot quat)) r c.
Proof.
  intros Hr Hc.
  destruct r as [|[|[|r]]]; destruct c as [|[|[|c]]]; try lia; to_reals; ring.
Qed.

End Cov3DMath.

Section Cov3DClaims.
Import Cov3D.

Lemma cov_values_psd scale quat :
  let A := Mat.sym_of_six (cov3D_values scale quat) in
  (forall v, 0 <= Mat.quad A v) /\
  (forall lam v, v <> vec3_zero -> Mat.apply A v = lam *^ v -> 0 <= lam).
Proof.
  intros A.
  assert (Hquad : forall v, 0 <= Mat.quad A v).
  { intros v.
    pose (Mv := Mat.apply (Mat.of_glm (scale_vector_to_matrix scale *m
                                       unit_quaternion_to_rotmatrix quat)) v).
    replace (Mat.quad A v)
      with (v3x Mv * v3x Mv + v3y Mv * v3y Mv + v3z Mv * v3z Mv).
    - pose proof (Rle_0_sqr (v3x Mv)). pose proof (Rle_0_sqr (v3y Mv)).
      pose proof (Rle_0_sqr (v3z Mv)). unfold Rsqr in *. lra.
    - subst Mv A. destruct scale, quat, v. to_reals. ring. }
  split; [exact Hquad|].
  intros lam v Hv Heig.
  specialize (Hquad v). unfold Mat.quad in Hquad. rewrite Heig in Hquad.
  destruct v as [a b c]. unfold dot, smul in Hquad. cbn [v3x v3y v3z] in Hquad.
  assert (Hpos : 0 < a * a + b * b + c * c).
  { destruct (Req_dec a 0) as [->|Ha]; [|nra].
    destruct (Req_dec b 0) as [->|Hb]; [|nra].
    destruct (Req_dec c 0) as [->|Hc]; [|nra].
    exfalso. apply Hv. reflexivity. }
  nra.
Qed.

(** C2, in the form the code satisfies.  For a visible primitive the forward worker stores, at
    [cov3Ds[6*idx .. 6*idx+5]], the entries [00, 01, 02, 11, 12, 22] of the
    upper triangle of [Sigma = M^T M] where [M = S R^T], [S = diag(scale)]
    and [R] is the textbook scalar-first rotation matrix of the quaternion;
    that is, [Sigma = R S^2 R^T].  The transpose comes from the glm matrix
    built by [unit_quaternion_to_rotmatrix], which is column-major and so
    denotes [R^T]. *)
Theorem cov3d_forward_upper_R_S2_Rt (P : nat) (scales : list vec3)
    (uquats : list vec4) (visible : list bool) (idx : nat)
    (scale : vec3) (quat : vec4) (cov : list R) :
  (idx < P)%nat -> visible !! idx = Some true ->
  scales !! idx = Some scale -> uquats !! idx = Some quat ->
  (6 * idx + 6 <= length cov)%nat ->
  exec (computeCov3DForwardCUDAKernel P scales uquats visible idx) cov
    = Some (list_inserts (6 * idx) (Mat.upper (cov_R_S2_Rt scale quat)) cov) /\
  (forall r c, (r < 3)%nat -> (c < 3)%nat ->
     Mat.of_glm (unit_quaternion_to_rotmatrix quat) r c = Mat.rot quat c r) /\
  (forall r c, (r < 3)%nat -> (c < 3)%nat ->
     cov_R_S2_Rt scale quat r c
     = Mat.mult (Mat.mult (Mat.rot quat) (Mat.mult (Mat.diag scale) (Mat.diag scale)))
                (Mat.trans (Mat.rot quat)) r c).
Proof.
  intros Hi Hv Hs Hq Hlen. split; [|split].
  - rewrite <- cov3D_values_upper.
    eapply exec_run. now apply cov_fwd_visible.
  - intros r c Hr Hc. now apply rotmatrix_is_transposed.
  - intros r c Hr Hc. now apply cov_R_S2_Rt_alt.
Qed.

Lemma cov3d_forward_upper_R_S2_Rt_witness :
  exec (computeCov3DForwardCUDAKernel 2 Scene.scales Scene.uquats Scene.visible 0)
       Scene.cov3Ds
    = Some (list_inserts (6 * 0)
              (Mat.upper (cov_R_S2_Rt (Vec3 2 1 1) (Vec4 (3/5) 0 0 (4/5)))) Scene.cov3Ds).
Proof.
  apply (cov3d_forward_upper_R_S2_Rt 2 Scene.scales Scene.uquats Scene.visible 0
           (Vec3 2 1 1) (Vec4 (3/5) 0 0 (4/5)) Scene.cov3Ds);
    [lia | reflexivity | reflexivity | reflexivity | cbn; lia].
Defined.

(** C2 as worded fails.  With [M = S R] for the rotation matrix [R]
    itself, [M^T M = R^T S^2 R]: for the unit quaternion [(3/5, 0, 0, 4/5)]
    and the scale [(2, 1, 1)] its entry 01 is [504/625], while the worker
    stores [-504/625]. *)
Lemma cov3d_forward_not_Rt_S2_R :
  let scale := Vec3 2 1 1 in
  let quat := Vec4 (3/5) 0 0 (4/5) in
  let claimed := list_inserts 0 (Mat.upper (cov_Rt_S2_R scale quat)) (replicate 6 0) in
  v4x quat * v4x quat + v4y quat * v4y quat + v4z quat * v4z quat + v4w quat * v4w quat = 1 /\
  exists out,
    exec (computeCov3DForwardCUDAKernel 1 [scale] [quat] [true] 0) (replicate 6 0)
      = Some out /\
    elt out 1 = - (504 / 625) /\ elt claimed 1 = 504 / 625 /\
    Some out <> Some claimed.
Proof.
  intros scale quat claimed. split; [subst quat; cbn [v4x v4y v4z v4w]; lra|].
  eexists. split.
  - eapply exec_run.
    apply (cov_fwd_visible 1 [scale] [quat] [true] 0 scale quat (replicate 6 0, []));
      [lia | reflexivity | reflexivity | reflexivity | cbn; lia].
  - assert (Hout : elt (list_inserts (6 * 0) (cov3D_values scale quat) (replicate 6 0)) 1
                   = - (504 / 625)) by (to_reals; field).
    assert (Hclaimed : elt claimed 1 = 504 / 625) by (to_reals; field).
    cbn [fst]. split; [exact Hout|]. split; [exact Hclaimed|].
    intros H.
    assert (Heq : elt (list_inserts (6 * 0) (cov3D_values scale quat) (replicate 6 0)) 1
                  = elt claimed 1) by congruence.
    rewrite Hout, Hclaimed in Heq. lra.
Qed.

(** C5, in the form the code satisfies.  Whatever the scale and the
    quaternion, unit or not, the covariance formula of the forward worker,
    evaluated in exact arithmetic, gives six entries whose symmetric matrix
    is positive semi-definite: its quadratic form is nowhere negative, and
    every eigenvalue (with a real non-zero eigenvector) is non-negative.
    The binary32 entries the kernel stores are these up to rounding
    only. *)
Theorem cov3d_forward_psd (P : nat) (scales : list vec3)
    (uquats : list vec4) (visible : list bool) (idx : nat)
    (scale : vec3) (quat : vec4) (cov : list R) :
  (idx < P)%nat -> visible !! idx = Some true ->
  scales !! idx = Some scale -> uquats !! idx = Some quat ->
  (6 * idx + 6 <= length cov)%nat ->
  exists cov',
    exec (computeCov3DForwardCUDAKernel P scales uquats visible idx) cov = Some cov' /\
    let A := Mat.sym_of_six (take 6 (drop (6 * idx) cov')) in
    (forall v, 0 <= Mat.quad A v) /\
    (forall lam v, v <> vec3_zero -> Mat.apply A v = lam *^ v -> 0 <= lam).
Proof.
  intros Hi Hv Hs Hq Hlen.
  exists (list_inserts (6 * idx) (cov3D_values scale quat) cov). split.
  - eapply exec_run. now apply cov_fwd_visible.
  - pose proof (take_drop_inserts cov (cov3D_values scale quat) (6 * idx)) as E.
    cbn [cov3D_values length] in E. rewrite E by lia.
    apply cov_values_psd.
Qed.

Lemma cov3d_forward_psd_witness :
  exists cov',
    exec (computeCov3DForwardCUDAKernel 2 Scene.scales Scene.uquats Scene.visible 0)
         Scene.cov3Ds = Some cov' /\
    let A := Mat.sym_of_six (take 6 (drop (6 * 0) cov')) in
    (forall v, 0 <= Mat.quad A v) /\
    (forall lam v, v <> vec3_zero -> Mat.apply A v = lam *^ v -> 0 <= lam).
Proof.
  apply (cov3d_forward_psd 2 Scene.scales Scene.uquats Scene.visible 0
           (Vec3 2 1 1) (Vec4 (3/5) 0 0 (4/5)) Scene.cov3Ds);
    [lia | reflexivity | reflexivity | reflexivity | cbn; lia].
Defined.

(** C5 as worded fails: rounding breaks the invariant.  For the scale
    [(1, 0, 0)] and the quaternion [(0.6f, 0, 0, 0.8f)] the six binary32
    entries are finite, and the matrix rebuilt from them takes a negative
    value at [(24, 7, 0)].  Every sum of the formula has at most one
    non-zero term at this input, so the entries are the same whether or
    not multiplications and additions are fused. *)
Lemma cov3d_forward_binary32_indefinite :
  forallb F32.is_finite (F32.cov3D_values FloatScene.scale FloatScene.quat) = true /\
  Mat.quad
    (Mat.sym_of_six (F32.to_R <$> F32.cov3D_values FloatScene.scale FloatScene.quat))
    FloatScene.probe < 0.
Proof.
  assert (E : F32.cov3D_values FloatScene.scale FloatScene.quat
              = [SpecFloat.S754_finite false 10522677 (-27);
                 SpecFloat.S754_finite true 9019435 (-25);
                 SpecFloat.S754_zero false;
                 SpecFloat.S754_finite false 15461883 (-24);
                 SpecFloat.S754_zero false; SpecFloat.S754_zero false])
    by (vm_compute; reflexivity).
  rewrite E. split; [reflexivity|].
  unfold Mat.quad, Mat.apply, Mat.sym_of_six, dot, FloatScene.probe.
  cbn. powers_of_two. lra.
Qed.

End Cov3DClaims.

Section Cov3DBackwardClaim.
Import Cov3D.

Lemma drot_correct quat i r c :
  (i < 4)%nat -> (r < 3)%nat -> (c < 3)%nat ->
  derivable_pt_lim (fun t => Mat.rot (Mat.qset quat i t) r c) (Mat.qidx quat i)
    (Mat.drot i quat r c).
Proof.
  intros Hi Hr Hc. destruct quat as [q0 q1 q2 q3].
  destruct i as [|[|[|[|i]]]]; try lia;
    destruct r as [|[|[|r]]]; try lia;
    destruct c as [|[|[|c]]]; try lia; derivative.
Qed.

Lemma cov_backward_structure (g : list R) scale quat :
  length g = 6%nat ->
  let out := compute_cov3_backward scale quat g in
  let Rm := Mat.of_glm (unit_quaternion_to_rotmatrix quat) in
  let M := Mat.mult (Mat.diag scale) Rm in
  let dL_dM := Mat.scal 2 (Mat.mult M (halved_sym g)) in
  let dL_dR := Mat.mult (Mat.diag scale) dL_dM in
  out.1 = Vec3 (Mat.row_dot Rm dL_dM 0) (Mat.row_dot Rm dL_dM 1) (Mat.row_dot Rm dL_dM 2) /\
  out.2 = Vec4 (Mat.pairing (Mat.trans (Mat.drot 0 quat)) dL_dR)
               (Mat.pairing (Mat.trans (Mat.drot 1 quat)) dL_dR)
               (Mat.pairing (Mat.trans (Mat.drot 2 quat)) dL_dR)
               (Mat.pairing (Mat.trans (Mat.drot 3 quat)) dL_dR).
Proof.
  intros Hg. destruct (six_cases g Hg) as (g0 & g1 & g2 & g3 & g4 & g5 & ->).
  destruct scale as [sx sy sz], quat as [r x y z].
  split; to_reals; f_equal; field.
Qed.

Lemma cov_backward_derivatives (g : list R) sx sy sz r x y z :
  length g = 6%nat ->
  let scale := Vec3 sx sy sz in
  let quat := Vec4 r x y z in
  let out := compute_cov3_backward scale quat g in
  derivable_pt_lim (fun t => cov_pairing g (Vec3 t sy sz) quat) sx (v3x out.1) /\
  derivable_pt_lim (fun t => cov_pairing g (Vec3 sx t sz) quat) sy (v3y out.1) /\
  derivable_pt_lim (fun t => cov_pairing g (Vec3 sx sy t) quat) sz (v3z out.1) /\
  derivable_pt_lim (fun t => cov_pairing g scale (Vec4 t x y z)) r (v4x out.2) /\
  derivable_pt_lim (fun t => cov_pairing g scale (Vec4 r t y z)) x (v4y out.2) /\
  derivable_pt_lim (fun t => cov_pairing g scale (Vec4 r x t z)) y (v4z out.2) /\
  derivable_pt_lim (fun t => cov_pairing g scale (Vec4 r x y t)) z (v4w out.2).
Proof.
  intros Hg. destruct (six_cases g Hg) as (g0 & g1 & g2 & g3 & g4 & g5 & ->).
  intros scale quat out. subst scale quat out.
  repeat split; derivative.
Qed.

End Cov3DBackwardClaim.

Section Cov3DBackwardTheorem.
Import Cov3D.

(** C3.  For a visible primitive the backward worker stores the scale and
    quaternion gradients [ds], [dq] such that, with [g] the six incoming
    covariance gradients, [Rm] the matrix of [unit_quaternion_to_rotmatrix],
    [M = S Rm] and [Sigma = M^T M]:
    - the gradient with respect to [M] is [dL_dM = 2 M G], where [G] is the
      full symmetric matrix of [g] with the off-diagonal entries halved;
    - [ds] is, axis by axis, row [i] of [Rm] dotted with row [i] of [dL_dM];
    - [dq] pairs the closed-form partial derivatives of the
      quaternion-to-matrix map with [dL_dM] once its rows are scaled by the
      scale components;
    - [ds] and [dq] are the partial derivatives, in the three scale and the
      four quaternion components, of the forward covariance paired with
      [g]: the exact adjoint of the forward map. *)
Theorem cov3d_backward_adjoint (P : nat) (scales : list vec3)
    (uquats : list vec4) (visible : list bool) (dL_dcov3Ds : list R) (idx : nat)
    (sx sy sz r x y z : R) (out : grads) :
  (idx < P)%nat -> visible !! idx = Some true ->
  scales !! idx = Some (Vec3 sx sy sz) -> uquats !! idx = Some (Vec4 r x y z) ->
  (6 * idx + 6 <= length dL_dcov3Ds)%nat ->
  (idx < length (dL_dscales out))%nat -> (idx < length (dL_duquats out))%nat ->
  let scale := Vec3 sx sy sz in
  let quat := Vec4 r x y z in
  let g := take 6 (drop (6 * idx) dL_dcov3Ds) in
  exists ds dq,
    exec (computeCov3DBackwardCUDAKernel P scales uquats visible dL_dcov3Ds idx) out
      = Some (Grads (<[idx := ds]> (dL_dscales out)) (<[idx := dq]> (dL_duquats out))) /\
    (let Rm := Mat.of_glm (unit_quaternion_to_rotmatrix quat) in
     let M := Mat.mult (Mat.diag scale) Rm in
     let dL_dM := Mat.scal 2 (Mat.mult M (halved_sym g)) in
     let dL_dR := Mat.mult (Mat.diag scale) dL_dM in
     ds = Vec3 (Mat.row_dot Rm dL_dM 0) (Mat.row_dot Rm dL_dM 1) (Mat.row_dot Rm dL_dM 2) /\
     dq = Vec4 (Mat.pairing (Mat.trans (Mat.drot 0 quat)) dL_dR)
               (Mat.pairing (Mat.trans (Mat.drot 1 quat)) dL_dR)
               (Mat.pairing (Mat.trans (Mat.drot 2 quat)) dL_dR)
               (Mat.pairing (Mat.trans (Mat.drot 3 quat)) dL_dR)) /\
    (forall i row col, (i < 4)%nat -> (row < 3)%nat -> (col < 3)%nat ->
       derivable_pt_lim (fun t => Mat.rot (Mat.qset quat i t) row col) (Mat.qidx quat i)
         (Mat.drot i quat row col)) /\
    derivable_pt_lim (fun t => cov_pairing g (Vec3 t sy sz) quat) sx (v3x ds) /\
    derivable_pt_lim (fun t => cov_pairing g (Vec3 sx t sz) quat) sy (v3y ds) /\
    derivable_pt_lim (fun t => cov_pairing g (Vec3 sx sy t) quat) sz (v3z ds) /\
    derivable_pt_lim (fun t => cov_pairing g scale (Vec4 t x y z)) r (v4x dq) /\
    derivable_pt_lim (fun t => cov_pairing g scale (Vec4 r t y z)) x (v4y dq) /\
    derivable_pt_lim (fun t => cov_pairing g scale (Vec4 r x t z)) y (v4z dq) /\
    derivable_pt_lim (fun t => cov_pairing g scale (Vec4 r x y t)) z (v4w dq).
Proof.
  intros Hi Hv Hs Hq Hlen Hl1 Hl2 scale quat g.
  assert (Hg : length g = 6%nat).
  { unfold g. rewrite length_take, length_drop. lia. }
  exists (compute_cov3_backward scale quat g).1, (compute_cov3_backward scale quat g).2.
  split; [|split; [|split]].
  - eapply exec_run. now apply cov_bwd_visible.
  - now apply cov_backward_structure.
  - intros. now apply drot_correct.
  - now apply cov_backward_derivatives.
Qed.

Lemma cov3d_backward_adjoint_witness :
  exists ds dq,
    exec (computeCov3DBackwardCUDAKernel 2 Scene.scales Scene.uquats Scene.visible
            Scene.dL_dcov3Ds 0) Scene.grads0
      = Some (Grads (<[0%nat := ds]> (dL_dscales Scene.grads0))
                    (<[0%nat := dq]> (dL_duquats Scene.grads0))) /\
    derivable_pt_lim
      (fun t => cov_pairing (take 6 (drop (6 * 0) Scene.dL_dcov3Ds))
                  (Vec3 t 1 1) (Vec4 (3/5) 0 0 (4/5))) 2 (v3x ds).
Proof.
  destruct (cov3d_backward_adjoint 2 Scene.scales Scene.uquats Scene.visible
              Scene.dL_dcov3Ds 0 2 1 1 (3/5) 0 0 (4/5) Scene.grads0)
    as (ds & dq & E & _ & _ & D & _);
    [lia | reflexivity | reflexivity | reflexivity | cbn; lia | cbn; lia | cbn; lia |].
  exists ds, dq. split; [exact E | exact D].
Defined.

(** C10.  [computeCov3DForward] returns a fresh [P x 6] tensor that is zero
    in every row of an invisible primitive and holds the six forward values
    in every row of a visible one; [computeCov3DBackward] returns fresh
    [P x 3] and [P x 4] tensors that are zero in every row of an invisible
    primitive and hold the worker's gradients in every row of a visible
    one. *)
Theorem computeCov3D_invisible_rows_zero (scales : list vec3) (uquats : list vec4)
    (visible : list bool) (dL_dcov3Ds : list R) :
  let P := length scales in
  (P <= length uquats)%nat -> (P <= length visible)%nat ->
  (P * 6 <= length dL_dcov3Ds)%nat ->
  (exists cov tr,
     computeCov3DForward scales uquats visible = Some (cov, tr) /\
     length cov = (P * 6)%nat /\
     forall i k, (i < P)%nat -> (k < 6)%nat ->
       (visible !! i = Some false -> cov !! (6 * i + k)%nat = Some 0) /\
       (forall scale quat, visible !! i = Some true ->
          scales !! i = Some scale -> uquats !! i = Some quat ->
          cov !! (6 * i + k)%nat = cov3D_values scale quat !! k)) /\
  (exists g tr,
     computeCov3DBackward scales uquats visible dL_dcov3Ds = Some (g, tr) /\
     length (dL_dscales g) = P /\ length (dL_duquats g) = P /\
     forall i, (i < P)%nat ->
       (visible !! i = Some false ->
          dL_dscales g !! i = Some vec3_zero /\ dL_duquats g !! i = Some vec4_zero) /\
       (forall scale quat, visible !! i = Some true ->
          scales !! i = Some scale -> uquats !! i = Some quat ->
          let r := compute_cov3_backward scale quat (take 6 (drop (6 * i) dL_dcov3Ds)) in
          dL_dscales g !! i = Some r.1 /\ dL_duquats g !! i = Some r.2)).
Proof.
  intros P Hq Hv Hg. split.
  - now apply computeCov3DForward_rows.
  - now apply computeCov3DBackward_rows.
Qed.

Lemma computeCov3D_invisible_rows_zero_witness :
  (exists cov tr,
     computeCov3DForward Scene.scales Scene.uquats Scene.visible = Some (cov, tr) /\
     forall k, (k < 6)%nat -> cov !! (6 * 1 + k)%nat = Some 0) /\
  (exists g tr,
     computeCov3DBackward Scene.scales Scene.uquats Scene.visible Scene.dL_dcov3Ds
       = Some (g, tr) /\
     dL_dscales g !! 1%nat = Some vec3_zero /\ dL_duquats g !! 1%nat = Some vec4_zero).
Proof.
  destruct (computeCov3D_invisible_rows_zero Scene.scales Scene.uquats Scene.visible
              Scene.dL_dcov3Ds) as [(cov & tr & E & _ & Hrows) (g & tr' & E' & _ & _ & Hrows')];
    [cbn; lia | cbn; lia | cbn; lia |].
  split.
  - exists cov, tr. split; [exact E|].
    intros k Hk. apply (Hrows 1%nat k); [cbn; lia | exact Hk | reflexivity].
  - exists g, tr'. split; [exact E'|].
    apply (Hrows' 1%nat); [cbn; lia | reflexivity].
Defined.

End Cov3DBackwardTheorem.

(** ** The colour kernels, worker by worker *)

Section SHKernels.
Import SH.
Variables (P : nat) (deg : Z) (max_coeffs : nat)
          (dirs shs : list vec3) (visibility_filter : list bool).

Lemma sh_fwd_out idx w :
  (P <= idx)%nat ->
  ComputeColorFromSHForwardCUDAKernel P deg max_coeffs dirs shs visibility_filter idx w
  = Some (tt, w).
Proof.
  intros H. unfold ComputeColorFromSHForwardCUDAKernel.
  now rewrite bind_run, skipped_out.
Qed.

Lemma sh_fwd_invisible idx w :
  (idx < P)%nat -> visibility_filter !! idx = Some false ->
  ComputeColorFromSHForwardCUDAKernel P deg max_coeffs dirs shs visibility_filter idx w
  = Some (tt, (w.1, w.2 ++ [Load b_visibility_filter idx])).
Proof.
  intros H Hv. unfold ComputeColorFromSHForwardCUDAKernel.
  now rewrite bind_run, (skipped_in _ _ _ _ _ _ H Hv).
Qed.

Lemma sh_fwd_visible idx dir w :
  (idx < P)%nat -> visibility_filter !! idx = Some true ->
  dirs !! idx = Some dir ->
  (idx * max_coeffs + coeffs deg <= length shs)%nat ->
  (3 * idx + 3 <= length (clamped w.1))%nat -> (idx < length (colors w.1))%nat ->
  let raw := result deg dir (take (coeffs deg) (drop (idx * max_coeffs) shs)) in
  exists tr,
    ComputeColorFromSHForwardCUDAKernel P deg max_coeffs dirs shs visibility_filter idx w
    = Some (tt, (Fwd (<[idx := clamp_color raw]> (colors w.1))
                     (list_inserts (3 * idx) (clamp_mask raw) (clamped w.1)), tr)).
Proof.
  intros H Hv Hd Hsh Hc Hcol raw. unfold ComputeColorFromSHForwardCUDAKernel.
  rewrite bind_run, (skipped_in _ _ _ _ _ _ H Hv). cbn [negb].
  rewrite bind_run, (load_run _ _ _ _ _ Hd).
  rewrite bind_run, load_block_run by assumption. fold raw.
  rewrite bind_run, (store_run clamped set_clamped) by (cbn [fst]; lia).
  rewrite bind_run, (store_run clamped set_clamped)
    by (cbn [fst clamped set_clamped]; rewrite length_insert; lia).
  rewrite bind_run, (store_run clamped set_clamped)
    by (cbn [fst clamped set_clamped]; rewrite !length_insert; lia).
  rewrite (store_run colors set_colors) by (cbn [fst]; assumption).
  unfold set_colors, set_clamped. cbn [fst snd clamped colors].
  eexists. do 3 f_equal. f_equal.
  unfold clamp_mask. cbn [list_inserts].
  replace (3 * idx + 0)%nat with (3 * idx)%nat by lia.
  replace (3 * idx + 1)%nat with (S (3 * idx)) by lia.
  replace (3 * idx + 2)%nat with (S (S (3 * idx))) by lia.
  rewrite (list_insert_insert_ne _ (S (S (3 * idx))) (S (3 * idx))) by lia.
  rewrite (list_insert_insert_ne _ (S (S (3 * idx))) (3 * idx)) by lia.
  rewrite (list_insert_insert_ne _ (S (3 * idx)) (3 * idx)) by lia.
  reflexivity.
Qed.

Variables (clamped_in : list bool) (dL_dcolors : list vec3).

Lemma sh_bwd_out idx w :
  (P <= idx)%nat ->
  ComputeColorFromSHBackwardCUDAKernel P deg max_coeffs dirs shs visibility_filter
    clamped_in dL_dcolors idx w = Some (tt, w).
Proof.
  intros H. unfold ComputeColorFromSHBackwardCUDAKernel.
  now rewrite bind_run, skipped_out.
Qed.

Lemma sh_bwd_invisible idx w :
  (idx < P)%nat -> visibility_filter !! idx = Some false ->
  ComputeColorFromSHBackwardCUDAKernel P deg max_coeffs dirs shs visibility_filter
    clamped_in dL_dcolors idx w
  = Some (tt, (w.1, w.2 ++ [Load b_visibility_filter idx])).
Proof.
  intros H Hv. unfold ComputeColorFromSHBackwardCUDAKernel.
  now rewrite bind_run, (skipped_in _ _ _ _ _ _ H Hv).
Qed.

Lemma coeffs_pos : (1 <= coeffs deg)%nat.
Proof. unfold coeffs. repeat case_match; lia. Qed.

Lemma backward_length dir sh g : length (backward deg dir sh g).1 = coeffs deg.
Proof.
  unfold backward, coeffs.
  destruct (deg >? 0)%Z, (deg >? 1)%Z, (deg >? 2)%Z; reflexivity.
Qed.

Lemma sh_bwd_visible idx dir g c0 c1 c2 w :
  (idx < P)%nat -> visibility_filter !! idx = Some true ->
  dirs !! idx = Some dir -> dL_dcolors !! idx = Some g ->
  clamped_in !! (3 * idx + 0)%nat = Some c0 ->
  clamped_in !! (3 * idx + 1)%nat = Some c1 ->
  clamped_in !! (3 * idx + 2)%nat = Some c2 ->
  (idx * max_coeffs + coeffs deg <= length shs)%nat ->
  (idx * max_coeffs + coeffs deg <= length (dL_dshs w.1))%nat ->
  (idx < length (dL_ddirs w.1))%nat ->
  let sh := vec3_zero :: take (coeffs deg - 1) (drop (idx * max_coeffs + 1) shs) in
  let r := backward deg dir sh (clamp_rule g c0 c1 c2) in
  exists tr,
    ComputeColorFromSHBackwardCUDAKernel P deg max_coeffs dirs shs visibility_filter
      clamped_in dL_dcolors idx w
    = Some (tt, (Bwd (<[idx := r.2]> (dL_ddirs w.1))
                     (list_inserts (idx * max_coeffs) r.1 (dL_dshs w.1)), tr)).
Proof.
  intros H Hv Hd Hg H0 H1 H2 Hsh Hout Hdd sh r.
  pose proof coeffs_pos as Hn.
  unfold ComputeColorFromSHBackwardCUDAKernel.
  rewrite bind_run, (skipped_in _ _ _ _ _ _ H Hv). cbn [negb].
  rewrite bind_run, (load_run _ _ _ _ _ Hd).
  rewrite bind_run, (load_run _ _ _ _ _ Hg).
  rewrite bind_run, (load_run _ _ _ _ _ H0).
  rewrite bind_run, (load_run _ _ _ _ _ H1).
  rewrite bind_run, (load_run _ _ _ _ _ H2).
  rewrite bind_run, load_block_run by lia. fold sh. fold r.
  pose proof (backward_length dir sh (clamp_rule g c0 c1 c2)) as Hlen. fold r in Hlen.
  destruct r as [dL_dsh dL_ddir]. cbn [fst snd] in *.
  rewrite bind_run, (store_block_run dL_dshs set_dL_dshs); try reflexivity;
    [|now intros []|cbn [fst]; lia].
  rewrite (store_run dL_ddirs set_dL_ddirs) by (cbn [fst]; assumption).
  cbn [fst snd dL_dshs dL_ddirs set_dL_dshs set_dL_ddirs].
  eexists. reflexivity.
Qed.

End SHKernels.

(** ** The colour formulas *)

(** Names the coefficients [sh[k]] met in the goal, component by component. *)
Ltac name_coeffs sh :=
  repeat match goal with
         | |- context [elt sh ?k] => generalize (elt sh k); intros [? ? ?]
         end.

Ltac split_degree deg :=
  let H := fresh in
  assert (H : (deg = 0 \/ deg = 1 \/ deg = 2 \/ deg = 3)%Z) by lia;
  destruct H as [->|[->|[->| ->]]].

Section SHMath.
Import SH.

Lemma coeffs_square deg :
  (0 <= deg <= 3)%Z -> Z.of_nat (coeffs deg) = ((deg + 1) * (deg + 1))%Z.
Proof. intros H. split_degree deg; reflexivity. Qed.

(** The forward polynomial is the expansion truncated after band [deg],
    plus the bias. *)
Lemma result_expansion deg dir sh :
  (0 <= deg <= 3)%Z ->
  result deg dir sh = vadds (SH_expansion (coeffs deg) dir sh) 0.5.
Proof.
  intros H. destruct dir as [x y z].
  split_degree deg; unfold result, SH_expansion, coeffs;
    cbn [Z.gtb Z.compare Pos.compare Pos.compare_cont seq foldl];
    name_coeffs sh; to_reals; f_equal; ring.
Qed.

(** The backward body never looks at [sh[0]]. *)
Lemma backward_ignores_sh0 deg dir c c' sh g :
  backward deg dir (c :: sh) g = backward deg dir (c' :: sh) g.
Proof. reflexivity. Qed.

Lemma backward_values deg dir sh g k :
  (0 <= deg <= 3)%Z -> (k < coeffs deg)%nat ->
  (backward deg dir sh g).1 !! k = Some (SH_basis k dir *^ g).
Proof.
  intros H Hk. destruct dir as [x y z], g as [g0 g1 g2].
  split_degree deg; unfold coeffs in Hk;
    cbn [Z.gtb Z.compare Pos.compare Pos.compare_cont] in Hk;
    do 16 (try (destruct k as [|k]; [to_reals; do 2 f_equal; ring|])); lia.
Qed.

Lemma backward_direction deg x y z sh g :
  (0 <= deg <= 3)%Z ->
  let out := backward deg (Vec3 x y z) sh g in
  derivable_pt_lim (fun t => dot (result deg (Vec3 t y z) sh) g) x (v3x out.2) /\
  derivable_pt_lim (fun t => dot (result deg (Vec3 x t z) sh) g) y (v3y out.2) /\
  derivable_pt_lim (fun t => dot (result deg (Vec3 x y t) sh) g) z (v3z out.2).
Proof.
  intros H out. subst out. destruct g as [g0 g1 g2].
  split_degree deg; unfold result, backward;
    cbn [Z.gtb Z.compare Pos.compare Pos.compare_cont];
    name_coeffs sh; repeat split; derivative.
Qed.

End SHMath.

Lemma elt_take {T} `{Inhabited T} (l : list T) n k :
  (k < n)%nat -> elt (take n l) k = elt l k.
Proof.
  intros Hk. unfold elt. rewrite !list_lookup_total_alt.
  now rewrite lookup_take_lt.
Qed.

Lemma elt_drop {T} `{Inhabited T} (l : list T) off k v :
  l !! (off + k)%nat = Some v -> elt (drop off l) k = v.
Proof.
  intros Hv. unfold elt. rewrite list_lookup_total_alt, lookup_drop, Hv.
  reflexivity.
Qed.

Lemma take_drop_head {T} (l : list T) off n :
  (off + S n <= length l)%nat ->
  exists c, take (S n) (drop off l) = c :: take n (drop (off + 1) l).
Proof.
  intros Hlen. destruct (lookup_lt_is_Some_2 l off) as [c Hc]; [lia|].
  exists c. rewrite (drop_S _ _ _ Hc). cbn [take]. now rewrite Nat.add_1_r.
Qed.

Lemma fltb_spec a : fltb a 0 = true <-> a < 0.
Proof. unfold fltb. destruct (Rlt_dec a 0); split; intros; try lra; congruence. Qed.

Lemma fmax_Rmax a : fmax a 0 = Rmax a 0.
Proof.
  unfold fmax, Rmax. destruct (Rlt_dec a 0), (Rle_dec a 0); lra.
Qed.

Lemma clamp_color_Rmax raw :
  clamp_color raw = Vec3 (Rmax (v3x raw) 0) (Rmax (v3y raw) 0) (Rmax (v3z raw) 0).
Proof. unfold clamp_color, vmax. now rewrite !fmax_Rmax. Qed.

Lemma clamp_mask_spec raw :
  Forall2 (fun (b : bool) a => b = true <-> a < 0)
    (clamp_mask raw) [v3x raw; v3y raw; v3z raw].
Proof. unfold clamp_mask. repeat constructor; apply fltb_spec. Qed.

Lemma normalize_unit dir : dot dir dir = 1 -> normalize dir = dir.
Proof.
  intros H. unfold normalize. rewrite H, sqrt_1, Rinv_1.
  destruct dir. unfold vmuls. cbn [v3x v3y v3z]. f_equal; ring.
Qed.

Section SHClaims.
Import SH.

(** C1.  For a visible primitive and a degree in 0..3, the backward worker
    first masks the incoming colour gradient (each channel times 0 where
    the clamp mask is set, times 1 otherwise), then stores, for each of the
    [(deg+1)^2] consumed coefficients [k], the basis function [k] at the
    stored direction times the masked gradient, leaving the other
    coefficient gradients as they were, and stores as direction gradient
    the partial derivatives, in the three direction components, of the
    forward polynomial dotted with the masked gradient. *)
Theorem sh_backward_gradients (P : nat) (deg : Z) (max_coeffs : nat)
    (dirs shs : list vec3) (visibility_filter clamped : list bool)
    (dL_dcolors : list vec3) (idx : nat) (x y z : R) (g : vec3)
    (c0 c1 c2 : bool) (out : bwd) :
  (0 <= deg <= 3)%Z ->
  (idx < P)%nat -> visibility_filter !! idx = Some true ->
  dirs !! idx = Some (Vec3 x y z) -> dL_dcolors !! idx = Some g ->
  clamped !! (3 * idx + 0)%nat = Some c0 ->
  clamped !! (3 * idx + 1)%nat = Some c1 ->
  clamped !! (3 * idx + 2)%nat = Some c2 ->
  (idx * max_coeffs + coeffs deg <= length shs)%nat ->
  (idx * max_coeffs + coeffs deg <= length (dL_dshs out))%nat ->
  (idx < length (dL_ddirs out))%nat ->
  let n := coeffs deg in
  let dir := Vec3 x y z in
  let sh := take n (drop (idx * max_coeffs) shs) in
  let gm := Vec3 (v3x g * (if c0 then 0 else 1))
                 (v3y g * (if c1 then 0 else 1))
                 (v3z g * (if c2 then 0 else 1)) in
  Z.of_nat n = ((deg + 1) * (deg + 1))%Z /\
  exists dL_dsh dL_ddir,
    exec (ComputeColorFromSHBackwardCUDAKernel P deg max_coeffs dirs shs
            visibility_filter clamped dL_dcolors idx) out
      = Some (Bwd (<[idx := dL_ddir]> (dL_ddirs out))
                  (list_inserts (idx * max_coeffs) dL_dsh (dL_dshs out))) /\
    length dL_dsh = n /\
    (forall k, (k < n)%nat -> dL_dsh !! k = Some (SH_basis k dir *^ gm)) /\
    (forall j, (j < idx * max_coeffs \/ idx * max_coeffs + n <= j)%nat ->
       list_inserts (idx * max_coeffs) dL_dsh (dL_dshs out) !! j = dL_dshs out !! j) /\
    result deg dir sh = vadds (SH_expansion n dir sh) 0.5 /\
    derivable_pt_lim (fun t => dot (result deg (Vec3 t y z) sh) gm) x (v3x dL_ddir) /\
    derivable_pt_lim (fun t => dot (result deg (Vec3 x t z) sh) gm) y (v3y dL_ddir) /\
    derivable_pt_lim (fun t => dot (result deg (Vec3 x y t) sh) gm) z (v3z dL_ddir).
Proof.
  intros Hdeg Hi Hv Hd Hg H0 H1 H2 Hsh Hout Hdd n dir sh gm.
  split; [now apply coeffs_square|].
  pose proof (coeffs_pos deg) as Hn.
  destruct (sh_bwd_visible P deg max_coeffs dirs shs visibility_filter clamped
              dL_dcolors idx dir g c0 c1 c2 (out, []) Hi Hv Hd Hg H0 H1 H2 Hsh Hout Hdd)
    as [tr E].
  destruct (take_drop_head shs (idx * max_coeffs) (n - 1)) as [c Hc]; [lia|].
  replace (S (n - 1)) with n in Hc by lia. fold sh in Hc.
  change (clamp_rule g c0 c1 c2) with gm in E. cbn [fst] in E.
  rewrite (backward_ignores_sh0 deg dir vec3_zero c) in E.
  fold n in E. rewrite <- Hc in E.
  exists (backward deg dir sh gm).1, (backward deg dir sh gm).2.
  split; [exact (exec_run _ _ _ _ _ E)|].
  split; [apply backward_length|].
  split; [intros k Hk; now apply backward_values|].
  split.
  { intros j [Hj|Hj].
    - now apply list_lookup_inserts_lt.
    - apply list_lookup_inserts_ge. rewrite backward_length. exact Hj. }
  split; [now apply result_expansion|].
  now apply backward_direction.
Qed.

Lemma sh_backward_gradients_witness :
  exists dL_dsh dL_ddir,
    exec (ComputeColorFromSHBackwardCUDAKernel 1 3 16 SHScene.dirs SHScene.shs
            SHScene.visibility_filter SHScene.clamped SHScene.dL_dcolors 0) SHScene.bwd0
      = Some (Bwd (<[0%nat := dL_ddir]> (dL_ddirs SHScene.bwd0))
                  (list_inserts (0 * 16) dL_dsh (dL_dshs SHScene.bwd0))) /\
    dL_dsh !! 0%nat = Some (SH_basis 0 (Vec3 0 0 1) *^ Vec3 (1 * 1) (2 * 0) (3 * 1)).
Proof.
  destruct (sh_backward_gradients 1 3 16 SHScene.dirs SHScene.shs
              SHScene.visibility_filter SHScene.clamped SHScene.dL_dcolors 0
              0 0 1 (Vec3 1 2 3) false true false SHScene.bwd0)
    as (_ & dL_dsh & dL_ddir & E & _ & Hk & _);
    [lia | lia | reflexivity | reflexivity | reflexivity | reflexivity
     | reflexivity | reflexivity | cbn; lia | cbn; lia | cbn; lia |].
  exists dL_dsh, dL_ddir. split; [exact E|].
  apply (Hk 0%nat). cbn. lia.
Defined.

End SHClaims.

Section SHForwardClaims.
Import SH.

(** C4, in the form the code satisfies.  For a visible primitive and a degree in 0..3, the
    forward worker evaluates the real spherical-harmonics expansion,
    truncated after band [deg] (the first [(deg+1)^2] terms, with the
    constants [SH_C0] .. [SH_C3]), at the direction stored for the
    primitive, exactly as it is stored; it adds the bias 0.5, records per
    channel in the clamp mask whether that value is negative, and stores
    its component-wise clamp to [>= 0] as the colour.  The worker does not
    normalize the direction; for a direction of unit length the stored
    and the normalized direction are the same. *)
Theorem sh_forward_color (P : nat) (deg : Z) (max_coeffs : nat)
    (dirs shs : list vec3) (visibility_filter : list bool) (idx : nat)
    (dir : vec3) (out : fwd) :
  (0 <= deg <= 3)%Z ->
  (idx < P)%nat -> visibility_filter !! idx = Some true ->
  dirs !! idx = Some dir ->
  (idx * max_coeffs + coeffs deg <= length shs)%nat ->
  (3 * idx + 3 <= length (clamped out))%nat -> (idx < length (colors out))%nat ->
  let n := coeffs deg in
  let sh := take n (drop (idx * max_coeffs) shs) in
  let raw := vadds (SH_expansion n dir sh) 0.5 in
  Z.of_nat n = ((deg + 1) * (deg + 1))%Z /\
  exec (ComputeColorFromSHForwardCUDAKernel P deg max_coeffs dirs shs
          visibility_filter idx) out
    = Some (Fwd (<[idx := clamp_color raw]> (colors out))
                (list_inserts (3 * idx) (clamp_mask raw) (clamped out))) /\
  Forall2 (fun (b : bool) a => b = true <-> a < 0)
    (clamp_mask raw) [v3x raw; v3y raw; v3z raw] /\
  clamp_color raw = Vec3 (Rmax (v3x raw) 0) (Rmax (v3y raw) 0) (Rmax (v3z raw) 0) /\
  (dot dir dir = 1 -> normalize dir = dir).
Proof.
  intros Hdeg Hi Hv Hd Hsh Hc Hcol n sh raw.
  split; [now apply coeffs_square|].
  split.
  - destruct (sh_fwd_visible P deg max_coeffs dirs shs visibility_filter idx dir
                (out, []) Hi Hv Hd Hsh Hc Hcol) as [tr E].
    cbn [fst] in E. fold n in E. fold sh in E.
    rewrite (result_expansion deg dir sh Hdeg) in E. fold n in E.
    exact (exec_run _ _ _ _ _ E).
  - split; [apply clamp_mask_spec|].
    split; [apply clamp_color_Rmax|]. apply normalize_unit.
Qed.

Lemma sh_forward_color_witness :
  let raw := vadds (SH_expansion (coeffs 3) (Vec3 0 0 1)
                      (take (coeffs 3) (drop (0 * 16) SHScene.shs))) 0.5 in
  exec (ComputeColorFromSHForwardCUDAKernel 1 3 16 SHScene.dirs SHScene.shs
          SHScene.visibility_filter 0) SHScene.fwd0
    = Some (Fwd (<[0%nat := clamp_color raw]> (colors SHScene.fwd0))
                (list_inserts (3 * 0) (clamp_mask raw) (clamped SHScene.fwd0))).
Proof.
  apply (sh_forward_color 1 3 16 SHScene.dirs SHScene.shs SHScene.visibility_filter 0
           (Vec3 0 0 1) SHScene.fwd0);
    [lia | lia | reflexivity | reflexivity | cbn; lia | cbn; lia | cbn; lia].
Defined.

(** C4 as worded fails: the expansion is evaluated at the stored
    direction, not at its normalization.  For the stored direction
    [(0, 0, 2)], degree 1 and [sh[2] = (1, 1, 1)] the worker stores the
    colour [2 * SH_C1 + 0.5] in every channel; at the normalized direction
    [(0, 0, 1)] the expansion gives [SH_C1 + 0.5]. *)
Lemma sh_forward_not_normalized :
  let dir := Vec3 0 0 2 in
  let sh := [vec3_zero; vec3_zero; Vec3 1 1 1; vec3_zero] in
  let claimed := clamp_color (vadds (SH_expansion 4 (normalize dir) sh) 0.5) in
  normalize dir = Vec3 0 0 1 /\
  exists out,
    exec (ComputeColorFromSHForwardCUDAKernel 1 1 4 [dir] sh [true] 0)
         (Fwd [vec3_zero] [false; false; false]) = Some out /\
    colors out !! 0%nat
      = Some (Vec3 (2 * SH_C1 + 0.5) (2 * SH_C1 + 0.5) (2 * SH_C1 + 0.5)) /\
    claimed = Vec3 (SH_C1 + 0.5) (SH_C1 + 0.5) (SH_C1 + 0.5) /\
    colors out !! 0%nat <> Some claimed.
Proof.
  intros dir sh claimed.
  assert (Hn : normalize dir = Vec3 0 0 1).
  { unfold normalize, dir, dot, vmuls. cbn [v3x v3y v3z].
    replace (0 * 0 + 0 * 0 + 2 * 2) with (2 * 2) by ring.
    rewrite sqrt_square by lra. f_equal; field. }
  split; [exact Hn|].
  assert (Hclamp : forall v, 0 <= v -> clamp_color (Vec3 v v v) = Vec3 v v v).
  { intros v Hv. unfold clamp_color, vmax, fmax. cbn [v3x v3y v3z].
    destruct (Rlt_dec v 0); [lra|reflexivity]. }
  assert (Hclaimed : claimed = Vec3 (SH_C1 + 0.5) (SH_C1 + 0.5) (SH_C1 + 0.5)).
  { subst claimed. rewrite Hn.
    replace (vadds (SH_expansion 4 (Vec3 0 0 1) sh) 0.5)
      with (Vec3 (SH_C1 + 0.5) (SH_C1 + 0.5) (SH_C1 + 0.5))
      by (to_reals; f_equal; ring).
    apply Hclamp. unfold SH_C1. lra. }
  destruct (sh_fwd_visible 1 1 4 [dir] sh [true] 0 dir
              (Fwd [vec3_zero] [false; false; false], []))
    as [tr E]; [lia | reflexivity | reflexivity | cbn; lia | cbn; lia | cbn; lia |].
  eexists. split; [exact (exec_run _ _ _ _ _ E)|].
  cbn [fst colors].
  assert (Hcol : <[0%nat := clamp_color (result 1 dir (take (coeffs 1) (drop (0 * 4) sh)))]>
                   [vec3_zero] !! 0%nat
                 = Some (Vec3 (2 * SH_C1 + 0.5) (2 * SH_C1 + 0.5) (2 * SH_C1 + 0.5))).
  { replace (result 1 dir (take (coeffs 1) (drop (0 * 4) sh)))
      with (Vec3 (2 * SH_C1 + 0.5) (2 * SH_C1 + 0.5) (2 * SH_C1 + 0.5))
      by (to_reals; f_equal; ring).
    rewrite Hclamp by (unfold SH_C1; lra). reflexivity. }
  split; [exact Hcol|]. split; [exact Hclaimed|].
  rewrite Hcol, Hclaimed. intros H. injection H as H _ _.
  unfold SH_C1 in H. lra.
Qed.

(** C6.  For degrees [d < d'] in 0..3, a direction and a coefficient block
    whose entries of the bands above [d] are zero, the forward worker run
    at degree [d'] stores exactly the colour and the clamp mask it stores
    when run at degree [d]. *)
Theorem sh_forward_degree_extension (P : nat) (d d' : Z) (max_coeffs : nat)
    (dirs shs : list vec3) (visibility_filter : list bool) (idx : nat)
    (dir : vec3) (out : fwd) :
  (0 <= d)%Z -> (d < d')%Z -> (d' <= 3)%Z ->
  (idx < P)%nat -> visibility_filter !! idx = Some true ->
  dirs !! idx = Some dir ->
  (idx * max_coeffs + coeffs d' <= length shs)%nat ->
  (forall k, (coeffs d <= k < coeffs d')%nat ->
     shs !! (idx * max_coeffs + k)%nat = Some vec3_zero) ->
  (3 * idx + 3 <= length (clamped out))%nat -> (idx < length (colors out))%nat ->
  exists out',
    exec (ComputeColorFromSHForwardCUDAKernel P d' max_coeffs dirs shs
            visibility_filter idx) out = Some out' /\
    exec (ComputeColorFromSHForwardCUDAKernel P d max_coeffs dirs shs
            visibility_filter idx) out = Some out'.
Proof.
  intros Hd0 Hdd Hd3 Hi Hv Hd Hsh Hz Hc Hcol.
  assert (Hmono : (coeffs d <= coeffs d')%nat).
  { split_degree d; split_degree d'; try lia; cbn; lia. }
  destruct (sh_fwd_visible P d' max_coeffs dirs shs visibility_filter idx dir
              (out, []) Hi Hv Hd Hsh Hc Hcol) as [tr' E'].
  destruct (sh_fwd_visible P d max_coeffs dirs shs visibility_filter idx dir
              (out, []) Hi Hv Hd ltac:(lia) Hc Hcol) as [tr E].
  cbn [fst] in E, E'.
  set (D := drop (idx * max_coeffs) shs) in *.
  assert (Hzero : forall k, (coeffs d <= k < coeffs d')%nat -> elt D k = vec3_zero).
  { intros k Hk. apply elt_drop. now apply Hz. }
  assert (Hres : result d dir (take (coeffs d) D) = result d' dir (take (coeffs d') D)).
  { clear E E' Hz Hsh. destruct dir as [x y z].
    split_degree d; split_degree d'; try lia; unfold result, coeffs in *;
      cbn [Z.gtb Z.compare Pos.compare Pos.compare_cont] in *;
      rewrite !elt_take by lia;
      rewrite ?(Hzero 1%nat), ?(Hzero 2%nat), ?(Hzero 3%nat), ?(Hzero 4%nat),
        ?(Hzero 5%nat), ?(Hzero 6%nat), ?(Hzero 7%nat), ?(Hzero 8%nat),
        ?(Hzero 9%nat), ?(Hzero 10%nat), ?(Hzero 11%nat), ?(Hzero 12%nat),
        ?(Hzero 13%nat), ?(Hzero 14%nat), ?(Hzero 15%nat) by lia;
      name_coeffs D; to_reals; f_equal; ring. }
  rewrite Hres in E.
  eexists. split; [exact (exec_run _ _ _ _ _ E')|exact (exec_run _ _ _ _ _ E)].
Qed.

Lemma sh_forward_degree_extension_witness :
  let shs := [Vec3 1 2 3; vec3_zero; vec3_zero; vec3_zero] in
  exists out',
    exec (ComputeColorFromSHForwardCUDAKernel 1 1 4 SHScene.dirs shs
            SHScene.visibility_filter 0) SHScene.fwd0 = Some out' /\
    exec (ComputeColorFromSHForwardCUDAKernel 1 0 4 SHScene.dirs shs
            SHScene.visibility_filter 0) SHScene.fwd0 = Some out'.
Proof.
  intros shs.
  apply (sh_forward_degree_extension 1 0 1 4 SHScene.dirs shs
           SHScene.visibility_filter 0 (Vec3 0 0 1) SHScene.fwd0);
    [lia | lia | lia | lia | reflexivity | reflexivity | cbn; lia | | cbn; lia | cbn; lia].
  intros k Hk. cbn in Hk.
  destruct k as [|[|[|[|k]]]]; [lia | reflexivity | reflexivity | reflexivity | lia].
Defined.

End SHForwardClaims.

(** ** Whole launches leave the slots of skipped primitives alone *)

Section LaunchFrame.
Context {St V : Type}.
Variables (body : nat -> K St unit) (I : St -> Prop)
          (slots : nat -> St -> V) (skip : nat -> Prop).

Hypothesis worker : forall idx s tr, I s ->
  exists s' tr', body idx (s, tr) = Some (tt, (s', tr')) /\ I s' /\
    (forall i, i <> idx -> slots i s' = slots i s) /\
    (skip idx -> s' = s).

Lemma for_ranks_frame ranks : forall s tr, I s ->
  exists s' tr', for_ranks body ranks (s, tr) = Some (tt, (s', tr')) /\ I s' /\
    forall i, skip i -> slots i s' = slots i s.
Proof.
  induction ranks as [|idx ranks IH]; intros s tr Hs.
  - exists s, tr. repeat split; auto.
  - destruct (worker idx s tr Hs) as (s1 & tr1 & E1 & I1 & Hother & Hskip).
    destruct (IH s1 tr1 I1) as (s2 & tr2 & E2 & I2 & Hrest).
    exists s2, tr2. split; [|split; [assumption|]].
    + cbn [for_ranks]. now rewrite bind_run, E1.
    + intros i Hi. rewrite (Hrest i Hi).
      destruct (decide (i = idx)) as [->|Hne].
      * now rewrite (Hskip Hi).
      * now apply Hother.
Qed.

Lemma launch_frame grid block s :
  I s ->
  exists s', exec (launch grid block body) s = Some s' /\ I s' /\
    forall i, skip i -> slots i s' = slots i s.
Proof.
  intros Hs.
  destruct (for_ranks_frame (seq 0 (grid * block)) s [Launch grid block] Hs)
    as (s' & tr' & E & I' & Hframe).
  exists s'. split; [|split; assumption].
  unfold exec. rewrite launch_run. cbn [fst snd app]. now rewrite E.
Qed.

End LaunchFrame.

Lemma take_drop_inserts_other {A} (l k : list A) off off' m :
  (off' + m <= off \/ off + length k <= off')%nat ->
  take m (drop off' (list_inserts off k l)) = take m (drop off' l).
Proof.
  intros H. apply list_eq. intros j.
  destruct (decide (j < m)%nat) as [Hj|Hj].
  - rewrite !lookup_take_lt, !lookup_drop by lia.
    destruct H as [H|H].
    + apply list_lookup_inserts_lt. lia.
    + apply list_lookup_inserts_ge. lia.
  - now rewrite !lookup_take_ge by lia.
Qed.

Lemma stride_apart (i idx m n : nat) :
  i <> idx -> (n <= m)%nat ->
  (i * m + m <= idx * m \/ idx * m + n <= i * m)%nat.
Proof.
  intros Hne Hn. destruct (decide (i < idx)%nat).
  - left. replace (i * m + m)%nat with (S i * m)%nat by lia.
    apply Nat.mul_le_mono_r. lia.
  - right. assert (S idx * m <= i * m)%nat by (apply Nat.mul_le_mono_r; lia). lia.
Qed.

Lemma stride_inside (idx P m n : nat) :
  (idx < P)%nat -> (n <= m)%nat -> (idx * m + n <= P * m)%nat.
Proof.
  intros Hi Hn. assert (S idx * m <= P * m)%nat by (apply Nat.mul_le_mono_r; lia). lia.
Qed.

Section LaunchFrames.
Import SH Cov3D.
Variables (P : nat) (visible : list bool).
Hypothesis visible_len : (P <= length visible)%nat.

Lemma sh_forward_launch_frame deg max_coeffs dirs shs (out : fwd) :
  (P <= length dirs)%nat -> (P * max_coeffs <= length shs)%nat ->
  (coeffs deg <= max_coeffs)%nat ->
  (P <= length (colors out))%nat -> (3 * P <= length (clamped out))%nat ->
  exists out',
    exec (ComputeColorFromSHForwardCUDA P deg max_coeffs dirs shs visible) out = Some out' /\
    forall i, is_skipped P visible i -> fwd_slots i out' = fwd_slots i out.
Proof.
  intros Hd Hsh Hmc Hc Hm.
  destruct (launch_frame
              (ComputeColorFromSHForwardCUDAKernel P deg max_coeffs dirs shs visible)
              (fun o => (P <= length (colors o))%nat /\ (3 * P <= length (clamped o))%nat)
              fwd_slots (is_skipped P visible)) with (grid := ((P + 255) / 256)%nat)
              (block := 256%nat) (s := out) as (out' & E & _ & Hframe).
  - intros idx s tr [Hs1 Hs2].
    destruct (decide (idx < P)%nat) as [Hin|Hout].
    + destruct (lookup_lt_is_Some_2 visible idx) as [[|] Hv]; [lia| |].
      * destruct (lookup_lt_is_Some_2 dirs idx) as [dir Hdir]; [lia|].
        destruct (sh_fwd_visible P deg max_coeffs dirs shs visible idx dir (s, tr))
          as [tr' E]; try assumption; cbn [fst]; try lia.
        { pose proof (stride_inside idx P max_coeffs (coeffs deg) Hin Hmc). lia. }
        eexists _, _. split; [exact E|]. cbn [fst colors clamped].
        split; [rewrite length_insert, length_inserts; now split|].
        split.
        -- intros i Hne. unfold fwd_slots. cbn [colors clamped].
           rewrite list_lookup_insert_ne by congruence. f_equal.
           apply take_drop_inserts_other. cbn [clamp_mask length]. lia.
        -- intros [Hsk|Hsk]; [lia|congruence].
      * eexists _, _. split; [now apply sh_fwd_invisible|]. cbn [fst]. auto.
    + eexists _, _. split; [apply sh_fwd_out; lia|]. auto.
  - now split.
  - exists out'. split; assumption.
Qed.

Lemma sh_backward_launch_frame deg max_coeffs dirs shs clamped dL_dcolors (out : bwd) :
  (P <= length dirs)%nat -> (P * max_coeffs <= length shs)%nat ->
  (coeffs deg <= max_coeffs)%nat ->
  (3 * P <= length clamped)%nat -> (P <= length dL_dcolors)%nat ->
  (P <= length (dL_ddirs out))%nat -> (P * max_coeffs <= length (dL_dshs out))%nat ->
  exists out',
    exec (ComputeColorFromSHBackwardCUDA P deg max_coeffs dirs shs visible
            clamped dL_dcolors) out = Some out' /\
    forall i, is_skipped P visible i -> bwd_slots max_coeffs i out' = bwd_slots max_coeffs i out.
Proof.
  intros Hd Hsh Hmc Hcl Hg Hdd Hds.
  destruct (launch_frame
              (ComputeColorFromSHBackwardCUDAKernel P deg max_coeffs dirs shs visible
                 clamped dL_dcolors)
              (fun o => (P <= length (dL_ddirs o))%nat /\
                        (P * max_coeffs <= length (dL_dshs o))%nat)
              (bwd_slots max_coeffs) (is_skipped P visible)) with (grid := ((P + 255) / 256)%nat)
              (block := 256%nat) (s := out) as (out' & E & _ & Hframe).
  - intros idx s tr [Hs1 Hs2].
    destruct (decide (idx < P)%nat) as [Hin|Hout].
    + destruct (lookup_lt_is_Some_2 visible idx) as [[|] Hv]; [lia| |].
      * destruct (lookup_lt_is_Some_2 dirs idx) as [dir Hdir]; [lia|].
        destruct (lookup_lt_is_Some_2 dL_dcolors idx) as [g Hgi]; [lia|].
        destruct (lookup_lt_is_Some_2 clamped (3 * idx + 0)) as [c0 H0]; [lia|].
        destruct (lookup_lt_is_Some_2 clamped (3 * idx + 1)) as [c1 H1]; [lia|].
        destruct (lookup_lt_is_Some_2 clamped (3 * idx + 2)) as [c2 H2]; [lia|].
        pose proof (stride_inside idx P max_coeffs (coeffs deg) Hin Hmc) as Hblock.
        destruct (sh_bwd_visible P deg max_coeffs dirs shs visible clamped dL_dcolors
                    idx dir g c0 c1 c2 (s, tr))
          as [tr' E]; try assumption; cbn [fst]; try lia.
        eexists _, _. split; [exact E|]. cbn [fst dL_ddirs dL_dshs].
        split; [rewrite length_insert, length_inserts; now split|].
        split.
        -- intros i Hne. unfold bwd_slots. cbn [dL_ddirs dL_dshs].
           rewrite list_lookup_insert_ne by congruence. f_equal.
           apply take_drop_inserts_other. rewrite backward_length.
           now apply stride_apart.
        -- intros [Hsk|Hsk]; [lia|congruence].
      * eexists _, _. split; [now apply sh_bwd_invisible|]. cbn [fst]. auto.
    + eexists _, _. split; [apply sh_bwd_out; lia|]. auto.
  - now split.
  - exists out'. split; assumption.
Qed.

Lemma cov_forward_launch_frame scales uquats (out : list R) :
  (P <= length scales)%nat -> (P <= length uquats)%nat ->
  (6 * P <= length out)%nat ->
  exists out',
    exec (launch ((P + 255) / 256) 256
            (computeCov3DForwardCUDAKernel P scales uquats visible)) out = Some out' /\
    forall i, is_skipped P visible i -> cov_slots i out' = cov_slots i out.
Proof.
  intros Hs Hq Hout.
  destruct (launch_frame
              (computeCov3DForwardCUDAKernel P scales uquats visible)
              (fun o => (6 * P <= length o)%nat)
              cov_slots (is_skipped P visible)) with (grid := ((P + 255) / 256)%nat)
              (block := 256%nat) (s := out) as (out' & E & _ & Hframe).
  - intros idx s tr Hlen.
    destruct (decide (idx < P)%nat) as [Hin|Hout'].
    + destruct (lookup_lt_is_Some_2 visible idx) as [[|] Hv]; [lia| |].
      * destruct (lookup_lt_is_Some_2 scales idx) as [sc Hsc]; [lia|].
        destruct (lookup_lt_is_Some_2 uquats idx) as [q Hqi]; [lia|].
        eexists _, _. split; [apply (cov_fwd_visible P scales uquats visible idx sc q);
                              try assumption; cbn [fst]; lia|].
        cbn [fst]. split; [now rewrite length_inserts|].
        split.
        -- intros i Hne. unfold cov_slots.
           apply take_drop_inserts_other. cbn [cov3D_values length]. lia.
        -- intros [Hsk|Hsk]; [lia|congruence].
      * eexists _, _. split; [now apply cov_fwd_invisible|]. cbn [fst]. auto.
    + eexists _, _. split; [apply cov_fwd_out; lia|]. auto.
  - assumption.
  - exists out'. split; assumption.
Qed.

Lemma cov_backward_launch_frame scales uquats dL_dcov3Ds (out : grads) :
  (P <= length scales)%nat -> (P <= length uquats)%nat ->
  (6 * P <= length dL_dcov3Ds)%nat ->
  (P <= length (dL_dscales out))%nat -> (P <= length (dL_duquats out))%nat ->
  exists out',
    exec (launch ((P + 255) / 256) 256
            (computeCov3DBackwardCUDAKernel P scales uquats visible dL_dcov3Ds)) out
      = Some out' /\
    forall i, is_skipped P visible i -> grads_slots i out' = grads_slots i out.
Proof.
  intros Hs Hq Hg Ho1 Ho2.
  destruct (launch_frame
              (computeCov3DBackwardCUDAKernel P scales uquats visible dL_dcov3Ds)
              (fun o => (P <= length (dL_dscales o))%nat /\ (P <= length (dL_duquats o))%nat)
              grads_slots (is_skipped P visible)) with (grid := ((P + 255) / 256)%nat)
              (block := 256%nat) (s := out) as (out' & E & _ & Hframe).
  - intros idx s tr [Hl1 Hl2].
    destruct (decide (idx < P)%nat) as [Hin|Hout'].
    + destruct (lookup_lt_is_Some_2 visible idx) as [[|] Hv]; [lia| |].
      * destruct (lookup_lt_is_Some_2 scales idx) as [sc Hsc]; [lia|].
        destruct (lookup_lt_is_Some_2 uquats idx) as [q Hqi]; [lia|].
        eexists _, _.
        split; [apply (cov_bwd_visible P scales uquats visible dL_dcov3Ds idx sc q);
                try assumption; cbn [fst]; lia|].
        cbn [fst dL_dscales dL_duquats].
        split; [rewrite !length_insert; now split|].
        split.
        -- intros i Hne. unfold grads_slots. cbn [dL_dscales dL_duquats].
           now rewrite !list_lookup_insert_ne by congruence.
        -- intros [Hsk|Hsk]; [lia|congruence].
      * eexists _, _. split; [now apply cov_bwd_invisible|]. cbn [fst]. auto.
    + eexists _, _. split; [apply cov_bwd_out; lia|]. auto.
  - now split.
  - exists out'. split; assumption.
Qed.

End LaunchFrames.

Section SHDegreeZero.
Import SH.

Lemma sh_forward_single (max_coeffs : nat) (c : vec3) (m0 m1 m2 : bool) :
  exec (ComputeColorFromSHForwardCUDA 1 0 max_coeffs [Vec3 0 0 1] [Vec3 1 1 1] [true])
       (Fwd [c] [m0; m1; m2])
  = Some (Fwd [Vec3 (SH_C0 * 1 + 0.5) (SH_C0 * 1 + 0.5) (SH_C0 * 1 + 0.5)]
              [false; false; false]).
Proof.
  unfold exec, ComputeColorFromSHForwardCUDA.
  change ((1 + 255) / 256)%nat with 1%nat. rewrite launch_run.
  change (seq 0 (1 * 256)) with (0%nat :: seq 1 255).
  cbn [for_ranks fst snd app]. rewrite bind_run.
  destruct (sh_fwd_visible 1 0 max_coeffs [Vec3 0 0 1] [Vec3 1 1 1] [true] 0
              (Vec3 0 0 1) (Fwd [c] [m0; m1; m2], [Launch 1 256]))
    as [tr E]; [lia | reflexivity | reflexivity | cbn; lia | cbn; lia | cbn; lia |].
  change (take (coeffs 0) (drop (0 * max_coeffs) [Vec3 1 1 1])) with [Vec3 1 1 1] in E.
  change (result 0 (Vec3 0 0 1) [Vec3 1 1 1])
    with (Vec3 (SH_C0 * 1 + 0.5) (SH_C0 * 1 + 0.5) (SH_C0 * 1 + 0.5)) in E.
  assert (Hpos : ~ SH_C0 * 1 + 0.5 < 0) by (unfold SH_C0; lra).
  assert (Hcol : forall v, ~ v < 0 -> clamp_color (Vec3 v v v) = Vec3 v v v).
  { intros v Hv. unfold clamp_color, vmax, fmax. cbn [v3x v3y v3z].
    now destruct (Rlt_dec v 0). }
  assert (Hmask : forall v, ~ v < 0 -> clamp_mask (Vec3 v v v) = [false; false; false]).
  { intros v Hv. unfold clamp_mask, fltb. cbn [v3x v3y v3z].
    now destruct (Rlt_dec v 0). }
  rewrite (Hcol _ Hpos), (Hmask _ Hpos) in E.
  rewrite E. rewrite for_ranks_idle; [reflexivity|].
  intros idx w' Hin. apply elem_of_seq in Hin. apply sh_fwd_out. lia.
Qed.

(** C7, in the form the code satisfies.  At degree 0 the colour a visible
    primitive gets is the component-wise clamp to [>= 0] of
    [SH_C0 * c0 + 0.5], where [c0] is its coefficient 0: no other
    coefficient and no component of the direction enters.  For one
    primitive, degree 0, direction [(0, 0, 1)] and [c0 = (1, 1, 1)], the
    launch leaves the colour [SH_C0 + 0.5] in every channel and the clamp
    mask [(false, false, false)].  In binary32 that colour is
    [13121374 * 2^-24], which is 0.78209484 to eight decimals, whatever the
    direction and the further coefficients. *)
Theorem sh_forward_degree0 (P : nat) (max_coeffs : nat)
    (dirs shs : list vec3) (visibility_filter : list bool) (idx : nat)
    (dir c0 : vec3) (out : fwd) :
  (idx < P)%nat -> visibility_filter !! idx = Some true ->
  dirs !! idx = Some dir -> shs !! (idx * max_coeffs)%nat = Some c0 ->
  (3 * idx + 3 <= length (clamped out))%nat -> (idx < length (colors out))%nat ->
  let raw := Vec3 (SH_C0 * v3x c0 + 0.5) (SH_C0 * v3y c0 + 0.5) (SH_C0 * v3z c0 + 0.5) in
  let c32 := SpecFloat.S754_finite false 13121374 (-24) in
  exec (ComputeColorFromSHForwardCUDAKernel P 0 max_coeffs dirs shs
          visibility_filter idx) out
    = Some (Fwd (<[idx := Vec3 (Rmax (v3x raw) 0) (Rmax (v3y raw) 0) (Rmax (v3z raw) 0)]>
                   (colors out))
                (list_inserts (3 * idx) (clamp_mask raw) (clamped out))) /\
  (forall (mc : nat) (c : vec3) (m0 m1 m2 : bool),
     exec (ComputeColorFromSHForwardCUDA 1 0 mc [Vec3 0 0 1] [Vec3 1 1 1] [true])
          (Fwd [c] [m0; m1; m2])
     = Some (Fwd [Vec3 (SH_C0 * 1 + 0.5) (SH_C0 * 1 + 0.5) (SH_C0 * 1 + 0.5)]
                 [false; false; false])) /\
  (forall (dir32 : F32.vec3) (rest : list F32.vec3),
     F32.forward 0 dir32 (F32.Vec3 (F32.lit 1 1) (F32.lit 1 1) (F32.lit 1 1) :: rest)
     = ([false; false; false], F32.Vec3 c32 c32 c32)) /\
  Rabs (F32.to_R c32 - 0.78209484) < 0.000000005.
Proof.
  intros Hi Hv Hd Hc0 Hc Hcol raw c32. split; [|split; [|split]].
  - apply lookup_lt_Some in Hc0 as Hlen.
    destruct (sh_fwd_visible P 0 max_coeffs dirs shs visibility_filter idx dir
                (out, []) Hi Hv Hd ltac:(cbn; lia) Hc Hcol) as [tr E].
    cbn [fst] in E. rewrite <- clamp_color_Rmax.
    replace raw
      with (result 0 dir (take (coeffs 0) (drop (idx * max_coeffs) shs))).
    + exact (exec_run _ _ _ _ _ E).
    + rewrite (drop_S _ _ _ Hc0). reflexivity.
  - intros mc c m0 m1 m2. apply sh_forward_single.
  - intros dir32 rest. vm_compute. reflexivity.
  - unfold c32. cbn. powers_of_two. apply Rabs_def1; lra.
Qed.

Lemma sh_forward_degree0_witness :
  exec (ComputeColorFromSHForwardCUDAKernel 1 0 16 SHScene.dirs SHScene.shs
          SHScene.visibility_filter 0) SHScene.fwd0
    = Some (Fwd (<[0%nat := Vec3 (Rmax (SH_C0 * 1 + 0.5) 0) (Rmax (SH_C0 * 1 + 0.5) 0)
                             (Rmax (SH_C0 * 1 + 0.5) 0)]> (colors SHScene.fwd0))
                (list_inserts (3 * 0)
                   (clamp_mask (Vec3 (SH_C0 * 1 + 0.5) (SH_C0 * 1 + 0.5) (SH_C0 * 1 + 0.5)))
                   (clamped SHScene.fwd0))).
Proof.
  apply (sh_forward_degree0 1 16 SHScene.dirs SHScene.shs SHScene.visibility_filter 0
           (Vec3 0 0 1) (Vec3 1 1 1) SHScene.fwd0);
    [lia | reflexivity | reflexivity | reflexivity | cbn; lia | cbn; lia].
Defined.

(** C7 as worded fails in its last decimals: the colour the kernel computes
    in the example is the binary32 value [13121374 * 2^-24], more than
    [4 * 10^-8] away from 0.78209479, the value of [SH_C0 + 0.5] read as
    decimal numbers.  The product [SH_C0 * 1] is exact, so the value is the
    same whether or not it is fused with the addition. *)
Lemma sh_forward_degree0_binary32 :
  F32.forward 0 FloatScene.dir FloatScene.sh
  = ([false; false; false],
     F32.Vec3 (SpecFloat.S754_finite false 13121374 (-24))
              (SpecFloat.S754_finite false 13121374 (-24))
              (SpecFloat.S754_finite false 13121374 (-24))) /\
  0.00000004 < Rabs (F32.to_R (SpecFloat.S754_finite false 13121374 (-24)) - 0.78209479).
Proof.
  split; [vm_compute; reflexivity|].
  cbn. powers_of_two. rewrite Rabs_right; lra.
Qed.

End SHDegreeZero.

(** ** Skipped workers and empty launches *)

Section Frame.
Import SH Cov3D.

(** C8.  In each of the four kernels the worker of an index [idx] with
    [idx >= P], or with a false visibility flag, returns with the output
    arrays exactly as they were, whatever the other arrays hold (even
    nothing).  Its access log is empty when [idx >= P]: the bound is tested
    first and the flag is not read; otherwise the log is the single load of
    the flag.  Over a whole launch on arrays that hold the [P] primitives,
    the output slots of such an index are, at the end, what they were
    before the call. *)
Theorem skipped_worker_is_inert (P idx : nat) (visible : list bool) :
  (P <= idx)%nat \/ ((idx < P)%nat /\ visible !! idx = Some false) ->
  let reads (b : buffer) := if bool_decide (P <= idx)%nat then [] else [Load b idx] in
  ((forall deg max_coeffs dirs shs (out : fwd) log,
      ComputeColorFromSHForwardCUDAKernel P deg max_coeffs dirs shs visible idx (out, log)
      = Some (tt, (out, log ++ reads b_visibility_filter))) /\
   (forall deg max_coeffs dirs shs mask dL_dcolors (out : bwd) log,
      ComputeColorFromSHBackwardCUDAKernel P deg max_coeffs dirs shs visible
        mask dL_dcolors idx (out, log)
      = Some (tt, (out, log ++ reads b_visibility_filter))) /\
   (forall scales uquats (out : list R) log,
      computeCov3DForwardCUDAKernel P scales uquats visible idx (out, log)
      = Some (tt, (out, log ++ reads b_visible))) /\
   (forall scales uquats dL_dcov3Ds (out : grads) log,
      computeCov3DBackwardCUDAKernel P scales uquats visible dL_dcov3Ds idx (out, log)
      = Some (tt, (out, log ++ reads b_visible)))) /\
  ((P <= length visible)%nat ->
   (forall deg max_coeffs dirs shs (out : fwd),
      (P <= length dirs)%nat -> (P * max_coeffs <= length shs)%nat ->
      (coeffs deg <= max_coeffs)%nat ->
      (P <= length (colors out))%nat -> (3 * P <= length (clamped out))%nat ->
      exists out',
        exec (ComputeColorFromSHForwardCUDA P deg max_coeffs dirs shs visible) out
          = Some out' /\
        fwd_slots idx out' = fwd_slots idx out) /\
   (forall deg max_coeffs dirs shs (mask : list bool) dL_dcolors (out : bwd),
      (P <= length dirs)%nat -> (P * max_coeffs <= length shs)%nat ->
      (coeffs deg <= max_coeffs)%nat ->
      (3 * P <= length mask)%nat -> (P <= length dL_dcolors)%nat ->
      (P <= length (dL_ddirs out))%nat -> (P * max_coeffs <= length (dL_dshs out))%nat ->
      exists out',
        exec (ComputeColorFromSHBackwardCUDA P deg max_coeffs dirs shs visible
                mask dL_dcolors) out = Some out' /\
        bwd_slots max_coeffs idx out' = bwd_slots max_coeffs idx out) /\
   (forall scales uquats (out : list R),
      (P <= length scales)%nat -> (P <= length uquats)%nat ->
      (6 * P <= length out)%nat ->
      exists out',
        exec (launch ((P + 255) / 256) 256
                (computeCov3DForwardCUDAKernel P scales uquats visible)) out = Some out' /\
        cov_slots idx out' = cov_slots idx out) /\
   (forall scales uquats dL_dcov3Ds (out : grads),
      (P <= length scales)%nat -> (P <= length uquats)%nat ->
      (6 * P <= length dL_dcov3Ds)%nat ->
      (P <= length (dL_dscales out))%nat -> (P <= length (dL_duquats out))%nat ->
      exists out',
        exec (launch ((P + 255) / 256) 256
                (computeCov3DBackwardCUDAKernel P scales uquats visible dL_dcov3Ds)) out
          = Some out' /\
        grads_slots idx out' = grads_slots idx out)).
Proof.
  intros Hskip reads.
  assert (Hsk : is_skipped P visible idx).
  { destruct Hskip as [H|[_ H]]; [now left|now right]. }
  split.
  - destruct Hskip as [Hout|[Hin Hv]]; subst reads; cbv beta.
    + rewrite bool_decide_eq_true_2 by assumption.
      repeat split; intros; rewrite app_nil_r.
      * now apply sh_fwd_out.
      * now apply sh_bwd_out.
      * now apply cov_fwd_out.
      * now apply cov_bwd_out.
    + rewrite bool_decide_eq_false_2 by lia.
      repeat split; intros.
      * now apply sh_fwd_invisible.
      * now apply sh_bwd_invisible.
      * now apply cov_fwd_invisible.
      * now apply cov_bwd_invisible.
  - intros Hvis. repeat split.
    + intros deg max_coeffs dirs shs out. intros.
      destruct (sh_forward_launch_frame P visible Hvis deg max_coeffs dirs shs out)
        as (out' & E & Hframe); try assumption.
      exists out'. split; [exact E|now apply Hframe].
    + intros deg max_coeffs dirs shs mask grad out. intros.
      destruct (sh_backward_launch_frame P visible Hvis deg max_coeffs dirs shs
                  mask grad out) as (out' & E & Hframe); try assumption.
      exists out'. split; [exact E|now apply Hframe].
    + intros scales uquats out. intros.
      destruct (cov_forward_launch_frame P visible Hvis scales uquats out)
        as (out' & E & Hframe); try assumption.
      exists out'. split; [exact E|now apply Hframe].
    + intros scales uquats dL_dcov3Ds out. intros.
      destruct (cov_backward_launch_frame P visible Hvis scales uquats dL_dcov3Ds out)
        as (out' & E & Hframe); try assumption.
      exists out'. split; [exact E|now apply Hframe].
Qed.

Lemma skipped_worker_is_inert_witness :
  computeCov3DForwardCUDAKernel 2 [] [] Scene.visible 1 (Scene.cov3Ds, [])
    = Some (tt, (Scene.cov3Ds, [Load b_visible 1])) /\
  ComputeColorFromSHForwardCUDAKernel 2 3 16 [] [] Scene.visible 1 (SHScene.fwd0, [])
    = Some (tt, (SHScene.fwd0, [Load b_visibility_filter 1])) /\
  exists out',
    exec (launch ((2 + 255) / 256) 256
            (computeCov3DForwardCUDAKernel 2 Scene.scales Scene.uquats Scene.visible))
         Scene.cov3Ds = Some out' /\
    cov_slots 1 out' = cov_slots 1 Scene.cov3Ds.
Proof.
  destruct (skipped_worker_is_inert 2 1 Scene.visible) as [(Hf & _ & Hc & _) Hcall];
    [right; split; [lia | reflexivity]|].
  destruct Hcall as (_ & _ & Hcov & _); [cbn; lia|].
  split; [apply (Hc [] [] Scene.cov3Ds [])|].
  split; [apply (Hf 3%Z 16%nat [] [] SHScene.fwd0 [])|].
  apply (Hcov Scene.scales Scene.uquats Scene.cov3Ds); cbn; lia.
Defined.


End Frame.

(** * Further properties of the covariance builder *)

(** Equal lists of reals, entry by entry. *)
Ltac list_ring :=
  repeat (apply (f_equal2 cons); [ring|]); reflexivity.

(** Equal vectors, quaternions and pairs of them, component by component. *)
Ltac vec_eq :=
  repeat match goal with
         | |- (_, _) = (_, _) => apply (f_equal2 pair)
         | |- Vec3 _ _ _ = Vec3 _ _ _ => apply f_equal3
         | |- Vec4 _ _ _ _ = Vec4 _ _ _ _ => apply f_equal4
         end.

Section Cov3DFurther.
Import Cov3D.

(** X1.  For a quaternion of unit norm the matrix built by
    [unit_quaternion_to_rotmatrix] is a rotation: its transpose is its
    inverse on both sides and its determinant is 1. *)
Theorem rotmatrix_orthogonal (q : vec4) :
  norm2 q = 1 ->
  let Rm := unit_quaternion_to_rotmatrix q in
  transpose Rm *m Rm = mat3_diag 1 /\
  Rm *m transpose Rm = mat3_diag 1 /\
  det (Mat.of_glm Rm) = 1.
Proof.
  intros H Rm. subst Rm. destruct q as [r x y z].
  unfold norm2 in H. cbn [v4x v4y v4z v4w] in H.
  repeat split; to_reals; [do 2 f_equal; nsatz | do 2 f_equal; nsatz | nsatz].
Qed.

Lemma rotmatrix_orthogonal_witness :
  let Rm := unit_quaternion_to_rotmatrix (Vec4 (3/5) 0 0 (4/5)) in
  transpose Rm *m Rm = mat3_diag 1 /\
  Rm *m transpose Rm = mat3_diag 1 /\
  det (Mat.of_glm Rm) = 1.
Proof.
  apply (rotmatrix_orthogonal (Vec4 (3/5) 0 0 (4/5))).
  unfold norm2. cbn [v4x v4y v4z v4w]. lra.
Defined.

(** X2.  Whatever its norm, the conjugate quaternion gives the transposed
    matrix and the opposite quaternion gives the same matrix; a quaternion
    with no vector part, zero included, gives the identity. *)
Theorem rotmatrix_conjugate_opposite (q : vec4) :
  unit_quaternion_to_rotmatrix (qconj q) = transpose (unit_quaternion_to_rotmatrix q) /\
  unit_quaternion_to_rotmatrix (qneg q) = unit_quaternion_to_rotmatrix q /\
  unit_quaternion_to_rotmatrix (Vec4 (v4x q) 0 0 0) = mat3_diag 1.
Proof.
  destruct q as [r x y z]. repeat split; to_reals; do 2 f_equal; ring.
Qed.

(** X3.  The six covariance values do not change when the quaternion is
    replaced by its opposite or when the sign of a scale component is
    flipped, and they are homogeneous of degree 2 in the scale. *)
Theorem cov3d_forward_symmetries (sx sy sz c : R) (q : vec4) :
  let s := Vec3 sx sy sz in
  cov3D_values s (qneg q) = cov3D_values s q /\
  cov3D_values (Vec3 (- sx) sy sz) q = cov3D_values s q /\
  cov3D_values (Vec3 sx (- sy) sz) q = cov3D_values s q /\
  cov3D_values (Vec3 sx sy (- sz)) q = cov3D_values s q /\
  cov3D_values (c *^ s) q = Rmult (c * c) <$> cov3D_values s q.
Proof.
  destruct q as [r x y z]. repeat split; to_reals; list_ring.
Qed.

(** X4.  The matrix [Sigma] of [compute_cov3d_forward] is symmetric, so the
    entries [Sigma[0][1]], [Sigma[0][2]], [Sigma[1][2]] it stores are those
    of the upper and of the lower triangle alike. *)
Theorem Sigma_symmetric (scale : vec3) (quat : vec4) :
  transpose (Sigma scale quat) = Sigma scale quat.
Proof.
  destruct scale, quat. to_reals. do 2 f_equal; ring.
Qed.

(** X5.  For a quaternion of unit norm the stored covariance has the
    trace, the sum of principal minors and the determinant of
    [diag(sx^2, sy^2, sz^2)], hence its characteristic polynomial: the
    eigenvalues of the covariance are the squared scales. *)
Theorem cov3d_trace_det (sx sy sz : R) (q : vec4) :
  norm2 q = 1 ->
  let A := Mat.sym_of_six (cov3D_values (Vec3 sx sy sz) q) in
  tr A = sx * sx + sy * sy + sz * sz /\
  minors A = (sx * sx) * (sy * sy) + (sx * sx) * (sz * sz) + (sy * sy) * (sz * sz) /\
  det A = (sx * sx) * (sy * sy) * (sz * sz).
Proof.
  intros H A. subst A. destruct q as [r x y z].
  unfold norm2 in H. cbn [v4x v4y v4z v4w] in H.
  repeat split; to_reals; nsatz.
Qed.

Lemma cov3d_trace_det_witness :
  let A := Mat.sym_of_six (cov3D_values (Vec3 2 1 1) (Vec4 (3/5) 0 0 (4/5))) in
  tr A = 2 * 2 + 1 * 1 + 1 * 1 /\
  minors A = (2 * 2) * (1 * 1) + (2 * 2) * (1 * 1) + (1 * 1) * (1 * 1) /\
  det A = (2 * 2) * (1 * 1) * (1 * 1).
Proof.
  apply (cov3d_trace_det 2 1 1 (Vec4 (3/5) 0 0 (4/5))).
  unfold norm2. cbn [v4x v4y v4z v4w]. lra.
Defined.

End Cov3DFurther.

Section Cov3DBackwardFurther.
Import Cov3D.

(** X7.  [compute_cov3_backward] is linear in the incoming covariance
    gradient: for gradients [g1], [g2] and a factor [a], the scale and
    quaternion gradients of [a * g1 + g2] are [a] times those of [g1] plus
    those of [g2]; a zero gradient gives zero gradients. *)
Theorem cov3_backward_linear (scale : vec3) (quat : vec4) (a : R) (g1 g2 : list R) :
  length g1 = 6%nat -> length g2 = 6%nat ->
  let out := compute_cov3_backward scale quat (axpy a g1 g2) in
  let out1 := compute_cov3_backward scale quat g1 in
  let out2 := compute_cov3_backward scale quat g2 in
  out.1 = a *^ out1.1 +^ out2.1 /\
  out.2 = qaxpy a out1.2 out2.2 /\
  compute_cov3_backward scale quat (replicate 6 0) = (vec3_zero, vec4_zero).
Proof.
  intros H1 H2.
  destruct (six_cases g1 H1) as (a0 & a1 & a2 & a3 & a4 & a5 & ->).
  destruct (six_cases g2 H2) as (b0 & b1 & b2 & b3 & b4 & b5 & ->).
  destruct scale, quat. repeat split; to_reals; vec_eq; field.
Qed.

Lemma cov3_backward_linear_witness :
  let out := compute_cov3_backward (Vec3 2 1 1) (Vec4 (3/5) 0 0 (4/5))
               (axpy 3 probe6 probe6) in
  let out1 := compute_cov3_backward (Vec3 2 1 1) (Vec4 (3/5) 0 0 (4/5))
                probe6 in
  out.1 = 3 *^ out1.1 +^ out1.1.
Proof.
  apply (cov3_backward_linear (Vec3 2 1 1) (Vec4 (3/5) 0 0 (4/5)) 3
           probe6 probe6); reflexivity.
Defined.

(** X8.  Forward and backward agree with Euler's identity: the covariance
    is homogeneous of degree 2 in the scale, and the scale dotted with the
    scale gradient is twice the covariance paired with the incoming
    gradient. *)
Theorem cov3_backward_euler (scale : vec3) (quat : vec4) (g : list R) :
  length g = 6%nat ->
  dot scale (compute_cov3_backward scale quat g).1 = 2 * cov_pairing g scale quat.
Proof.
  intros H. destruct (six_cases g H) as (g0 & g1 & g2 & g3 & g4 & g5 & ->).
  destruct scale, quat. to_reals. field.
Qed.

Lemma cov3_backward_euler_witness :
  dot (Vec3 2 1 1)
      (compute_cov3_backward (Vec3 2 1 1) (Vec4 (3/5) 0 0 (4/5)) probe6).1
  = 2 * cov_pairing probe6 (Vec3 2 1 1) (Vec4 (3/5) 0 0 (4/5)).
Proof.
  apply (cov3_backward_euler (Vec3 2 1 1) (Vec4 (3/5) 0 0 (4/5)) probe6).
  reflexivity.
Defined.

(** X9.  Under the symmetries of the forward pass the gradients follow:
    for the opposite quaternion the scale gradient is the same and the
    quaternion gradient is the opposite; when a scale component changes
    sign, so does its gradient, and nothing else; scaling the scale vector
    by [c] scales the scale gradient by [c] and the quaternion gradient by
    [c^2], so a zero scale gives a zero quaternion gradient. *)
Theorem cov3_backward_symmetries (sx sy sz c : R) (q : vec4) (g : list R) :
  length g = 6%nat ->
  let s := Vec3 sx sy sz in
  let out := compute_cov3_backward s q g in
  compute_cov3_backward s (qneg q) g = (out.1, qneg out.2) /\
  compute_cov3_backward (Vec3 (- sx) sy sz) q g
    = (Vec3 (- v3x out.1) (v3y out.1) (v3z out.1), out.2) /\
  compute_cov3_backward (Vec3 sx (- sy) sz) q g
    = (Vec3 (v3x out.1) (- v3y out.1) (v3z out.1), out.2) /\
  compute_cov3_backward (Vec3 sx sy (- sz)) q g
    = (Vec3 (v3x out.1) (v3y out.1) (- v3z out.1), out.2) /\
  compute_cov3_backward (c *^ s) q g = (c *^ out.1, qaxpy (c * c) out.2 vec4_zero).
Proof.
  intros H. destruct (six_cases g H) as (g0 & g1 & g2 & g3 & g4 & g5 & ->).
  destruct q as [r x y z]. repeat split; to_reals; vec_eq; field.
Qed.

Lemma cov3_backward_symmetries_witness :
  let out := compute_cov3_backward (Vec3 2 1 1) (Vec4 (3/5) 0 0 (4/5)) probe6 in
  compute_cov3_backward (Vec3 2 1 1) (qneg (Vec4 (3/5) 0 0 (4/5))) probe6
  = (out.1, qneg out.2).
Proof.
  apply (cov3_backward_symmetries 2 1 1 1 (Vec4 (3/5) 0 0 (4/5)) probe6).
  reflexivity.
Defined.

End Cov3DBackwardFurther.

(** * Further properties of the colour evaluator *)

(** Equal lists of vectors, entry by entry. *)
Ltac list_vec_ring :=
  repeat (apply (f_equal2 cons); [vec_eq; ring|]); reflexivity.

(** Turns a list of known length into its entries. *)
Ltac explode sh Hlen :=
  repeat (destruct sh as [|[? ? ?] sh]; cbn [length] in Hlen; try lia).

Section SHFurther.
Import SH.

(** The forward polynomial is linear in each coefficient: its derivative in
    a channel of [sh[k]], dotted with [g], is the basis function [k] times
    that channel of [g]. *)
Lemma result_coefficient (deg : Z) (dir : vec3) (sh : list vec3) (g : vec3) (k : nat) :
  (0 <= deg <= 3)%Z -> length sh = coeffs deg -> (k < coeffs deg)%nat ->
  let c := elt sh k in
  derivable_pt_lim
    (fun t => dot (result deg dir (<[k := Vec3 t (v3y c) (v3z c)]> sh)) g) (v3x c)
    (SH_basis k dir * v3x g) /\
  derivable_pt_lim
    (fun t => dot (result deg dir (<[k := Vec3 (v3x c) t (v3z c)]> sh)) g) (v3y c)
    (SH_basis k dir * v3y g) /\
  derivable_pt_lim
    (fun t => dot (result deg dir (<[k := Vec3 (v3x c) (v3y c) t]> sh)) g) (v3z c)
    (SH_basis k dir * v3z g).
Proof.
  intros Hdeg Hlen Hk c. subst c. destruct dir as [x y z], g as [g0 g1 g2].
  split_degree deg; unfold coeffs in Hlen, Hk;
    cbn [Z.gtb Z.compare Pos.compare Pos.compare_cont] in Hlen, Hk;
    explode sh Hlen;
    do 16 (try (destruct k as [|k]; [repeat split; derivative|])); lia.
Qed.

(** The entry [k] of the coefficient gradients of the backward body. *)
Lemma backward_entry (deg : Z) (dir : vec3) (sh : list vec3) (g : vec3) (k : nat) :
  (0 <= deg <= 3)%Z -> (k < coeffs deg)%nat ->
  elt (backward deg dir sh g).1 k = SH_basis k dir *^ g.
Proof.
  intros Hdeg Hk. unfold elt. rewrite list_lookup_total_alt.
  now rewrite (backward_values deg dir sh g k Hdeg Hk).
Qed.

(** X10.  The backward body is linear in the colour gradient it is given:
    the coefficient gradients and the direction gradient of [a * g1 + g2]
    are [a] times those of [g1] plus those of [g2].  This holds at every
    degree. *)
Theorem sh_backward_linear (deg : Z) (dir : vec3) (sh : list vec3) (a : R)
    (g1 g2 : vec3) :
  let out := backward deg dir sh (a *^ g1 +^ g2) in
  let out1 := backward deg dir sh g1 in
  let out2 := backward deg dir sh g2 in
  out.1 = zip_with (fun u v => a *^ u +^ v) out1.1 out2.1 /\
  out.2 = a *^ out1.2 +^ out2.2.
Proof.
  destruct dir as [x y z], g1 as [a0 a1 a2], g2 as [b0 b1 b2].
  unfold backward.
  destruct (deg >? 0)%Z, (deg >? 1)%Z, (deg >? 2)%Z;
    name_coeffs sh; split; to_reals; first [list_vec_ring | vec_eq; ring].
Qed.

(** X11.  When the three clamp flags of a visible primitive are set, the
    backward worker stores zero as direction gradient and zero in each of
    the coefficient gradients it writes, for every finite incoming colour
    gradient (exact arithmetic).  The flags act by multiplying the gradient
    by 0, not by overwriting it: in binary32 a finite channel becomes a
    zero, and an infinite or NaN channel becomes NaN. *)
Theorem sh_backward_all_clamped (P : nat) (deg : Z) (max_coeffs : nat)
    (dirs shs : list vec3) (visibility_filter clamped : list bool)
    (dL_dcolors : list vec3) (idx : nat) (dir g : vec3) (out : bwd) :
  (idx < P)%nat -> visibility_filter !! idx = Some true ->
  dirs !! idx = Some dir -> dL_dcolors !! idx = Some g ->
  clamped !! (3 * idx + 0)%nat = Some true ->
  clamped !! (3 * idx + 1)%nat = Some true ->
  clamped !! (3 * idx + 2)%nat = Some true ->
  (idx * max_coeffs + coeffs deg <= length shs)%nat ->
  (idx * max_coeffs + coeffs deg <= length (dL_dshs out))%nat ->
  (idx < length (dL_ddirs out))%nat ->
  exec (ComputeColorFromSHBackwardCUDAKernel P deg max_coeffs dirs shs
          visibility_filter clamped dL_dcolors idx) out
    = Some (Bwd (<[idx := vec3_zero]> (dL_ddirs out))
                (list_inserts (idx * max_coeffs) (replicate (coeffs deg) vec3_zero)
                   (dL_dshs out))) /\
  (forall (g32 : F32.vec3) (channel : F32.vec3 -> F32.f32),
     channel ∈ [F32.v3x; F32.v3y; F32.v3z] ->
     let masked := channel (F32.clamp_rule g32 true true true) in
     (F32.is_finite (channel g32) = true ->
        F32.is_finite masked = true /\ F32.to_R masked = 0) /\
     (F32.is_finite (channel g32) = false -> masked = SpecFloat.S754_nan)).
Proof.
  intros Hi Hv Hd Hg H0 H1 H2 Hsh Hout Hdd. split.
  - destruct (sh_bwd_visible P deg max_coeffs dirs shs visibility_filter clamped
                dL_dcolors idx dir g true true true (out, []) Hi Hv Hd Hg H0 H1 H2
                Hsh Hout Hdd) as [tr E].
    rewrite (exec_run _ _ _ _ _ E). cbn [fst]. do 2 f_equal.
    + f_equal. set (sh := vec3_zero :: _). clearbody sh.
      destruct dir as [x y z], g as [g0 g1 g2]. unfold backward, clamp_rule.
      destruct (deg >? 0)%Z, (deg >? 1)%Z, (deg >? 2)%Z;
        name_coeffs sh; to_reals; vec_eq; ring.
    + f_equal. set (sh := vec3_zero :: _). clearbody sh.
      destruct dir as [x y z], g as [g0 g1 g2]. unfold backward, clamp_rule, coeffs.
      destruct (deg >? 0)%Z, (deg >? 1)%Z, (deg >? 2)%Z;
        name_coeffs sh; to_reals; list_vec_ring.
  - intros [a b c] channel Hch masked. subst masked.
    assert (Hzero : forall v : F32.f32,
              (F32.is_finite v = true ->
                 F32.is_finite (F32.mul v (F32.of_int 0)) = true /\
                 F32.to_R (F32.mul v (F32.of_int 0)) = 0) /\
              (F32.is_finite v = false ->
                 F32.mul v (F32.of_int 0) = SpecFloat.S754_nan)).
    { intros v. change (F32.of_int 0) with (SpecFloat.S754_zero false).
      destruct v; cbn; split; intros H; try discriminate; auto. }
    repeat (apply elem_of_cons in Hch as [->|Hch]; [apply Hzero|]).
    now apply elem_of_nil in Hch.
Qed.

Lemma sh_backward_all_clamped_witness :
  exec (ComputeColorFromSHBackwardCUDAKernel 1 3 16 SHScene.dirs SHScene.shs
          SHScene.visibility_filter [true; true; true] SHScene.dL_dcolors 0) SHScene.bwd0
    = Some (Bwd (<[0%nat := vec3_zero]> (dL_ddirs SHScene.bwd0))
                (list_inserts (0 * 16) (replicate (coeffs 3) vec3_zero)
                   (dL_dshs SHScene.bwd0))).
Proof.
  apply (sh_backward_all_clamped 1 3 16 SHScene.dirs SHScene.shs
           SHScene.visibility_filter [true; true; true] SHScene.dL_dcolors 0
           (Vec3 0 0 1) (Vec3 1 2 3) SHScene.bwd0);
    [lia | reflexivity | reflexivity | reflexivity | reflexivity | reflexivity
     | reflexivity | cbn; lia | cbn; lia | cbn; lia].
Defined.

(** X12.  The coefficient gradients of the backward body are the partial
    derivatives of the forward polynomial: for a degree in 0..3 and a
    consumed coefficient [k], channel by channel, the derivative of the
    pre-clamp colour dotted with the gradient [g], taken in the channel of
    [sh[k]], is that channel of the gradient stored for [k]. *)
Theorem sh_backward_coefficient_derivative (deg : Z) (dir : vec3) (sh : list vec3)
    (g : vec3) (k : nat) :
  (0 <= deg <= 3)%Z -> length sh = coeffs deg -> (k < coeffs deg)%nat ->
  let c := elt sh k in
  let d := elt (backward deg dir sh g).1 k in
  derivable_pt_lim
    (fun t => dot (result deg dir (<[k := Vec3 t (v3y c) (v3z c)]> sh)) g) (v3x c) (v3x d) /\
  derivable_pt_lim
    (fun t => dot (result deg dir (<[k := Vec3 (v3x c) t (v3z c)]> sh)) g) (v3y c) (v3y d) /\
  derivable_pt_lim
    (fun t => dot (result deg dir (<[k := Vec3 (v3x c) (v3y c) t]> sh)) g) (v3z c) (v3z d).
Proof.
  intros Hdeg Hlen Hk c d. subst d.
  rewrite (backward_entry deg dir sh g k Hdeg Hk). unfold smul. cbn [v3x v3y v3z].
  exact (result_coefficient deg dir sh g k Hdeg Hlen Hk).
Qed.

Lemma sh_backward_coefficient_derivative_witness :
  let sh := [Vec3 1 2 3; Vec3 0 1 0; Vec3 1 1 1; Vec3 2 0 1] in
  derivable_pt_lim
    (fun t => dot (result 1 (Vec3 0 0 1) (<[2%nat := Vec3 t 1 1]> sh)) (Vec3 1 2 3)) 1
    (v3x (elt (backward 1 (Vec3 0 0 1) sh (Vec3 1 2 3)).1 2)).
Proof.
  intros sh.
  apply (sh_backward_coefficient_derivative 1 (Vec3 0 0 1) sh (Vec3 1 2 3) 2);
    [lia | reflexivity | cbn; lia].
Defined.

(** X13.  The degree is not validated but saturates: both workers behave
    at any degree above 3 as at degree 3, and at any degree below 0 as at
    degree 0. *)
Theorem sh_degree_saturates (P : nat) (deg : Z) (max_coeffs : nat)
    (dirs shs : list vec3) (visibility_filter clamped : list bool)
    (dL_dcolors : list vec3) (idx : nat) :
  let sat := Z.max 0 (Z.min 3 deg) in
  ComputeColorFromSHForwardCUDAKernel P deg max_coeffs dirs shs visibility_filter idx
  = ComputeColorFromSHForwardCUDAKernel P sat max_coeffs dirs shs visibility_filter idx /\
  ComputeColorFromSHBackwardCUDAKernel P deg max_coeffs dirs shs visibility_filter
    clamped dL_dcolors idx
  = ComputeColorFromSHBackwardCUDAKernel P sat max_coeffs dirs shs visibility_filter
      clamped dL_dcolors idx.
Proof.
  intros sat.
  assert (H0 : (sat >? 0)%Z = (deg >? 0)%Z).
  { subst sat. destruct (Z.gtb_spec deg 0), (Z.gtb_spec (Z.max 0 (Z.min 3 deg)) 0);
      try reflexivity; lia. }
  assert (H1 : (sat >? 1)%Z = (deg >? 1)%Z).
  { subst sat. destruct (Z.gtb_spec deg 1), (Z.gtb_spec (Z.max 0 (Z.min 3 deg)) 1);
      try reflexivity; lia. }
  assert (H2 : (sat >? 2)%Z = (deg >? 2)%Z).
  { subst sat. destruct (Z.gtb_spec deg 2), (Z.gtb_spec (Z.max 0 (Z.min 3 deg)) 2);
      try reflexivity; lia. }
  unfold ComputeColorFromSHForwardCUDAKernel, ComputeColorFromSHBackwardCUDAKernel,
    coeffs, result, backward.
  now rewrite H0, H1, H2.
Qed.

(** X14.  At degree 0 the backward worker reads no coefficient: whatever
    the coefficient array holds, even nothing, it stores a zero direction
    gradient and [SH_C0] times the masked colour gradient as the gradient
    of coefficient 0, and writes no other coefficient gradient. *)
Theorem sh_backward_degree0 (P : nat) (max_coeffs : nat)
    (dirs shs : list vec3) (visibility_filter clamped : list bool)
    (dL_dcolors : list vec3) (idx : nat) (dir g : vec3) (c0 c1 c2 : bool) (out : bwd) :
  (idx < P)%nat -> visibility_filter !! idx = Some true ->
  dirs !! idx = Some dir -> dL_dcolors !! idx = Some g ->
  clamped !! (3 * idx + 0)%nat = Some c0 ->
  clamped !! (3 * idx + 1)%nat = Some c1 ->
  clamped !! (3 * idx + 2)%nat = Some c2 ->
  (idx * max_coeffs < length (dL_dshs out))%nat ->
  (idx < length (dL_ddirs out))%nat ->
  let gm := Vec3 (v3x g * (if c0 then 0 else 1))
                 (v3y g * (if c1 then 0 else 1))
                 (v3z g * (if c2 then 0 else 1)) in
  ComputeColorFromSHBackwardCUDAKernel P 0 max_coeffs dirs shs visibility_filter
    clamped dL_dcolors idx (out, [])
  = Some (tt, (Bwd (<[idx := vec3_zero]> (dL_ddirs out))
                   (<[(idx * max_coeffs)%nat := SH_C0 *^ gm]> (dL_dshs out)),
               [Load b_visibility_filter idx; Load b_dirs idx; Load b_dL_dcolors idx;
                Load b_clamped (3 * idx + 0); Load b_clamped (3 * idx + 1);
                Load b_clamped (3 * idx + 2);
                Store b_dL_dshs (idx * max_coeffs); Store b_dL_ddirs idx])).
Proof.
  intros Hi Hv Hd Hg H0 H1 H2 Hout Hdd gm.
  unfold ComputeColorFromSHBackwardCUDAKernel.
  rewrite bind_run, (skipped_in _ _ _ _ _ _ Hi Hv). cbn [negb].
  rewrite bind_run, (load_run _ _ _ _ _ Hd).
  rewrite bind_run, (load_run _ _ _ _ _ Hg).
  rewrite bind_run, (load_run _ _ _ _ _ H0).
  rewrite bind_run, (load_run _ _ _ _ _ H1).
  rewrite bind_run, (load_run _ _ _ _ _ H2).
  change (coeffs 0 - 1)%nat with 0%nat. cbn [load_block]. rewrite bind_run, ret_run.
  change (clamp_rule g c0 c1 c2) with gm.
  replace (backward 0 dir [vec3_zero] gm) with ([SH_C0 *^ gm], vec3_zero)
    by (destruct dir, gm; to_reals; vec_eq; try ring; list_vec_ring).
  cbn [store_block]. rewrite bind_run.
  rewrite bind_run, (store_run dL_dshs set_dL_dshs) by (cbn [fst]; assumption).
  rewrite ret_run.
  rewrite (store_run dL_ddirs set_dL_ddirs) by (cbn [fst]; assumption).
  reflexivity.
Qed.

Lemma sh_backward_degree0_witness :
  ComputeColorFromSHBackwardCUDAKernel 1 0 16 SHScene.dirs [] SHScene.visibility_filter
    SHScene.clamped SHScene.dL_dcolors 0 (SHScene.bwd0, [])
  = Some (tt, (Bwd (<[0%nat := vec3_zero]> (dL_ddirs SHScene.bwd0))
                   (<[(0 * 16)%nat := SH_C0 *^ Vec3 (1 * 1) (2 * 0) (3 * 1)]>
                      (dL_dshs SHScene.bwd0)),
               [Load b_visibility_filter 0; Load b_dirs 0; Load b_dL_dcolors 0;
                Load b_clamped (3 * 0 + 0); Load b_clamped (3 * 0 + 1);
                Load b_clamped (3 * 0 + 2);
                Store b_dL_dshs (0 * 16); Store b_dL_ddirs 0])).
Proof.
  apply (sh_backward_degree0 1 16 SHScene.dirs [] SHScene.visibility_filter
           SHScene.clamped SHScene.dL_dcolors 0 (Vec3 0 0 1) (Vec3 1 2 3)
           false true false SHScene.bwd0);
    [lia | reflexivity | reflexivity | reflexivity | reflexivity | reflexivity
     | reflexivity | cbn; lia | cbn; lia].
Defined.

End SHFurther.

(** ** The clamp and the chain rule *)

Lemma dpl_local (f g : R -> R) x l (delta : R) :
  0 < delta -> (forall t, Rabs (t - x) < delta -> g t = f t) ->
  derivable_pt_lim f x l -> derivable_pt_lim g x l.
Proof.
  intros Hd Hloc Hf eps Heps. destruct (Hf eps Heps) as [d1 H1].
  assert (Hmin : 0 < Rmin d1 delta) by (apply Rmin_pos; [apply cond_pos|assumption]).
  exists (mkposreal _ Hmin). intros h Hh Hlt. cbn [pos] in Hlt.
  rewrite (Hloc (x + h)), (Hloc x).
  - apply H1; [assumption|]. eapply Rlt_le_trans; [exact Hlt|apply Rmin_l].
  - replace (x - x) with 0 by ring. now rewrite Rabs_R0.
  - replace (x + h - x) with h by ring.
    eapply Rlt_le_trans; [exact Hlt|apply Rmin_r].
Qed.

Lemma dpl_same (f g : R -> R) x l :
  (forall t, g t = f t) -> derivable_pt_lim f x l -> derivable_pt_lim g x l.
Proof. intros H. apply (dpl_local f g x l 1); [lra|auto]. Qed.

(** Near a point where a differentiable function is not zero, it keeps its
    sign. *)
Lemma dpl_keeps_sign (f : R -> R) x l :
  derivable_pt_lim f x l -> f x <> 0 ->
  exists delta, 0 < delta /\
    forall t, Rabs (t - x) < delta -> (f x < 0 -> f t < 0) /\ (0 < f x -> 0 < f t).
Proof.
  intros Hf Hne.
  pose proof (derivable_continuous_pt f x (exist _ l Hf)) as Hc.
  destruct (Hc (Rabs (f x))) as (alp & Halp & Hnear); [now apply Rabs_pos_lt|].
  exists alp. split; [assumption|]. intros t Ht.
  destruct (Req_dec t x) as [->|Hx]; [tauto|].
  assert (Hd : Rabs (f t - f x) < Rabs (f x)).
  { apply (Hnear t). split; [split; [exact I|congruence]|exact Ht]. }
  split; intros Hs.
  - rewrite (Rabs_left (f x)) in Hd by assumption.
    apply Rabs_def2 in Hd. lra.
  - rewrite (Rabs_right (f x)) in Hd by lra.
    apply Rabs_def2 in Hd. lra.
Qed.

(** [max(f, 0) * g] has the derivative of [f * g] where [f] is positive and
    derivative 0 where [f] is negative: the factor the clamp rule puts on
    [g]. *)
Lemma dpl_clamped (f : R -> R) x l (g : R) :
  derivable_pt_lim f x l -> f x <> 0 ->
  derivable_pt_lim (fun t => fmax (f t) 0 * g) x
    (l * (g * (if fltb (f x) 0 then 0 else 1))).
Proof.
  intros Hf Hne. destruct (dpl_keeps_sign f x l Hf Hne) as (delta & Hd & Hsign).
  unfold fltb. destruct (Rlt_dec (f x) 0) as [Hneg|Hpos].
  - apply (dpl_local (fun _ => 0) _ x _ delta Hd).
    + intros t Ht. destruct (Hsign t Ht) as [Hs _]. specialize (Hs Hneg).
      unfold fmax. destruct (Rlt_dec (f t) 0); lra.
    + eapply dpl_ext; [apply derivable_pt_lim_const|ring].
  - assert (Hp : 0 < f x) by lra.
    apply (dpl_local (fun t => f t * g) _ x _ delta Hd).
    + intros t Ht. destruct (Hsign t Ht) as [_ Hs]. specialize (Hs Hp).
      unfold fmax. destruct (Rlt_dec (f t) 0); lra.
    + eapply dpl_ext.
      * refine (dpl_mult f (fun _ => g) _ _ _ Hf (derivable_pt_lim_const _ _)).
      * cbv beta. ring.
Qed.

(** The chain rule through the clamp, for a colour that moves with [t]:
    where no channel of the pre-clamp colour is zero, the clamped colour
    dotted with [g] has the derivative of the pre-clamp colour dotted with
    the gradient masked by the clamp flags. *)
Lemma dpl_clamp_color (r : R -> vec3) x (l g : vec3) :
  derivable_pt_lim (fun t => v3x (r t)) x (v3x l) ->
  derivable_pt_lim (fun t => v3y (r t)) x (v3y l) ->
  derivable_pt_lim (fun t => v3z (r t)) x (v3z l) ->
  v3x (r x) <> 0 -> v3y (r x) <> 0 -> v3z (r x) <> 0 ->
  derivable_pt_lim (fun t => dot (clamp_color (r t)) g) x
    (dot l (SH.clamp_rule g (fltb (v3x (r x)) 0) (fltb (v3y (r x)) 0)
              (fltb (v3z (r x)) 0))).
Proof.
  intros Hx Hy Hz Nx Ny Nz.
  unfold dot, clamp_color, vmax, SH.clamp_rule. cbn [v3x v3y v3z].
  apply dpl_plus; [apply dpl_plus|].
  - exact (dpl_clamped _ x _ (v3x g) Hx Nx).
  - exact (dpl_clamped _ x _ (v3y g) Hy Ny).
  - exact (dpl_clamped _ x _ (v3z g) Hz Nz).
Qed.

(** If the colour [r t] dotted with any [g'] has derivative [L g'] at [x],
    the clamped colour dotted with [g] has derivative [L] of the gradient
    masked by the clamp flags of [r x], provided no channel of [r x] is
    zero. *)
Lemma dpl_clamp_dot (r : R -> vec3) x (L : vec3 -> R) (g : vec3) :
  (forall g', derivable_pt_lim (fun t => dot (r t) g') x (L g')) ->
  v3x (r x) <> 0 -> v3y (r x) <> 0 -> v3z (r x) <> 0 ->
  derivable_pt_lim (fun t => dot (clamp_color (r t)) g) x
    (L (SH.clamp_rule g (fltb (v3x (r x)) 0) (fltb (v3y (r x)) 0)
          (fltb (v3z (r x)) 0))).
Proof.
  intros HL Nx Ny Nz.
  assert (Hx : derivable_pt_lim (fun t => v3x (r t)) x (L (Vec3 1 0 0))).
  { refine (dpl_same _ _ _ _ _ (HL (Vec3 1 0 0))).
    intros t. unfold dot. cbn [v3x v3y v3z]. ring. }
  assert (Hy : derivable_pt_lim (fun t => v3y (r t)) x (L (Vec3 0 1 0))).
  { refine (dpl_same _ _ _ _ _ (HL (Vec3 0 1 0))).
    intros t. unfold dot. cbn [v3x v3y v3z]. ring. }
  assert (Hz : derivable_pt_lim (fun t => v3z (r t)) x (L (Vec3 0 0 1))).
  { refine (dpl_same _ _ _ _ _ (HL (Vec3 0 0 1))).
    intros t. unfold dot. cbn [v3x v3y v3z]. ring. }
  set (gm := SH.clamp_rule _ _ _ _).
  set (l := Vec3 (L (Vec3 1 0 0)) (L (Vec3 0 1 0)) (L (Vec3 0 0 1))).
  assert (E : L gm = dot l gm).
  { apply (uniqueness_limite (fun t => dot (r t) gm) x); [apply HL|].
    unfold dot, l. cbn [v3x v3y v3z].
    apply dpl_plus; [apply dpl_plus|].
    - eapply dpl_ext;
        [exact (dpl_mult _ (fun _ => v3x gm) _ _ _ Hx (derivable_pt_lim_const _ _))
        |cbv beta; ring].
    - eapply dpl_ext;
        [exact (dpl_mult _ (fun _ => v3y gm) _ _ _ Hy (derivable_pt_lim_const _ _))
        |cbv beta; ring].
    - eapply dpl_ext;
        [exact (dpl_mult _ (fun _ => v3z gm) _ _ _ Hz (derivable_pt_lim_const _ _))
        |cbv beta; ring]. }
  rewrite E. exact (dpl_clamp_color r x l g Hx Hy Hz Nx Ny Nz).
Qed.

Section SHTraining.
Import SH.

(** X15.  Forward and backward fit together.  Run the forward worker of a
    visible primitive, then the backward worker on the clamp mask the
    forward worker stored.  If no channel of the pre-clamp colour is zero
    (where the clamp has a kink), the stored direction gradient and the
    stored coefficient gradients are the partial derivatives of the colour
    the forward worker stored, dotted with the incoming colour gradient:
    in the three direction components, and in the three channels of every
    coefficient the degree consumes. *)
Theorem sh_forward_backward_gradient (P : nat) (deg : Z) (max_coeffs : nat)
    (dirs shs : list vec3) (visibility_filter : list bool)
    (dL_dcolors : list vec3) (idx : nat) (x y z : R) (g : vec3)
    (fout : fwd) (bout : bwd) :
  (0 <= deg <= 3)%Z ->
  (idx < P)%nat -> visibility_filter !! idx = Some true ->
  dirs !! idx = Some (Vec3 x y z) -> dL_dcolors !! idx = Some g ->
  (idx * max_coeffs + coeffs deg <= length shs)%nat ->
  (3 * idx + 3 <= length (clamped fout))%nat -> (idx < length (colors fout))%nat ->
  (idx * max_coeffs + coeffs deg <= length (dL_dshs bout))%nat ->
  (idx < length (dL_ddirs bout))%nat ->
  let n := coeffs deg in
  let dir := Vec3 x y z in
  let sh := take n (drop (idx * max_coeffs) shs) in
  let raw := result deg dir sh in
  let color (d : vec3) (s : list vec3) := dot (clamp_color (result deg d s)) g in
  v3x raw <> 0 -> v3y raw <> 0 -> v3z raw <> 0 ->
  exists fout' dL_dsh dL_ddir,
    exec (ComputeColorFromSHForwardCUDAKernel P deg max_coeffs dirs shs
            visibility_filter idx) fout = Some fout' /\
    colors fout' !! idx = Some (clamp_color raw) /\
    exec (ComputeColorFromSHBackwardCUDAKernel P deg max_coeffs dirs shs
            visibility_filter (clamped fout') dL_dcolors idx) bout
      = Some (Bwd (<[idx := dL_ddir]> (dL_ddirs bout))
                  (list_inserts (idx * max_coeffs) dL_dsh (dL_dshs bout))) /\
    length dL_dsh = n /\
    derivable_pt_lim (fun t => color (Vec3 t y z) sh) x (v3x dL_ddir) /\
    derivable_pt_lim (fun t => color (Vec3 x t z) sh) y (v3y dL_ddir) /\
    derivable_pt_lim (fun t => color (Vec3 x y t) sh) z (v3z dL_ddir) /\
    forall k, (k < n)%nat ->
      let c := elt sh k in
      let d := elt dL_dsh k in
      derivable_pt_lim
        (fun t => color dir (<[k := Vec3 t (v3y c) (v3z c)]> sh)) (v3x c) (v3x d) /\
      derivable_pt_lim
        (fun t => color dir (<[k := Vec3 (v3x c) t (v3z c)]> sh)) (v3y c) (v3y d) /\
      derivable_pt_lim
        (fun t => color dir (<[k := Vec3 (v3x c) (v3y c) t]> sh)) (v3z c) (v3z d).
Proof.
  intros Hdeg Hi Hv Hd Hg Hsh Hcl Hcol Hout Hdd n dir sh raw color Nx Ny Nz.
  pose proof (coeffs_pos deg) as Hn.
  destruct (sh_fwd_visible P deg max_coeffs dirs shs visibility_filter idx dir
              (fout, []) Hi Hv Hd Hsh Hcl Hcol) as [trf Ef].
  cbn [fst] in Ef. fold n in Ef. fold sh in Ef. fold raw in Ef.
  set (fout' := Fwd _ _) in Ef.
  assert (Hm : forall j b, clamp_mask raw !! j = Some b ->
                 clamped fout' !! (3 * idx + j)%nat = Some b).
  { intros j b Hj. unfold fout'. cbn [clamped].
    assert (j < 3)%nat by (apply lookup_lt_Some in Hj; exact Hj).
    rewrite list_lookup_inserts by (cbn [length clamp_mask]; lia).
    now replace (3 * idx + j - 3 * idx)%nat with j by lia. }
  set (c0 := fltb (v3x raw) 0). set (c1 := fltb (v3y raw) 0).
  set (c2 := fltb (v3z raw) 0).
  destruct (sh_bwd_visible P deg max_coeffs dirs shs visibility_filter
              (clamped fout') dL_dcolors idx dir g c0 c1 c2 (bout, []) Hi Hv Hd Hg
              (Hm 0%nat c0 eq_refl) (Hm 1%nat c1 eq_refl) (Hm 2%nat c2 eq_refl)
              Hsh Hout Hdd) as [trb Eb].
  destruct (take_drop_head shs (idx * max_coeffs) (n - 1)) as [c Hc]; [lia|].
  replace (S (n - 1)) with n in Hc by lia. fold sh in Hc.
  set (gm := clamp_rule g c0 c1 c2) in *. cbn [fst] in Eb.
  rewrite (backward_ignores_sh0 deg dir vec3_zero c) in Eb.
  fold n in Eb. rewrite <- Hc in Eb.
  assert (Hlen : length sh = n).
  { unfold sh. rewrite length_take, length_drop. lia. }
  exists fout', (backward deg dir sh gm).1, (backward deg dir sh gm).2.
  split; [exact (exec_run _ _ _ _ _ Ef)|].
  split; [unfold fout'; cbn [colors]; now apply list_lookup_insert_eq|].
  split; [exact (exec_run _ _ _ _ _ Eb)|].
  split; [apply backward_length|].
  split; [|split; [|split]].
  - exact (dpl_clamp_dot (fun t => result deg (Vec3 t y z) sh) x
             (fun g' => v3x (backward deg dir sh g').2) g
             (fun g' => proj1 (backward_direction deg x y z sh g' Hdeg)) Nx Ny Nz).
  - exact (dpl_clamp_dot (fun t => result deg (Vec3 x t z) sh) y
             (fun g' => v3y (backward deg dir sh g').2) g
             (fun g' => proj1 (proj2 (backward_direction deg x y z sh g' Hdeg)))
             Nx Ny Nz).
  - exact (dpl_clamp_dot (fun t => result deg (Vec3 x y t) sh) z
             (fun g' => v3z (backward deg dir sh g').2) g
             (fun g' => proj2 (proj2 (backward_direction deg x y z sh g' Hdeg)))
             Nx Ny Nz).
  - intros k Hk cc d.
    assert (Hid : <[k := Vec3 (v3x cc) (v3y cc) (v3z cc)]> sh = sh).
    { apply list_insert_id. unfold cc, elt.
      rewrite list_lookup_total_alt.
      destruct (lookup_lt_is_Some_2 sh k) as [v ->]; [lia|]. now destruct v. }
    unfold d. rewrite (backward_entry deg dir sh gm k Hdeg Hk).
    unfold smul. cbn [v3x v3y v3z].
    pose proof (dpl_clamp_dot
                  (fun t => result deg dir (<[k := Vec3 t (v3y cc) (v3z cc)]> sh)) (v3x cc)
                  (fun g' => SH_basis k dir * v3x g') g
                  (fun g' => proj1 (result_coefficient deg dir sh g' k Hdeg Hlen Hk)))
      as Dx.
    pose proof (dpl_clamp_dot
                  (fun t => result deg dir (<[k := Vec3 (v3x cc) t (v3z cc)]> sh)) (v3y cc)
                  (fun g' => SH_basis k dir * v3y g') g
                  (fun g' => proj1 (proj2 (result_coefficient deg dir sh g' k Hdeg Hlen Hk))))
      as Dy.
    pose proof (dpl_clamp_dot
                  (fun t => result deg dir (<[k := Vec3 (v3x cc) (v3y cc) t]> sh)) (v3z cc)
                  (fun g' => SH_basis k dir * v3z g') g
                  (fun g' => proj2 (proj2 (result_coefficient deg dir sh g' k Hdeg Hlen Hk))))
      as Dz.
    cbv beta in Dx, Dy, Dz. rewrite Hid in Dx, Dy, Dz.
    split; [exact (Dx Nx Ny Nz)|]. split; [exact (Dy Nx Ny Nz)|exact (Dz Nx Ny Nz)].
Qed.

Lemma sh_forward_backward_gradient_witness :
  exists fout' dL_dsh dL_ddir,
    exec (ComputeColorFromSHForwardCUDAKernel 1 1 16 SHScene.dirs SHScene.shs
            SHScene.visibility_filter 0) SHScene.fwd0 = Some fout' /\
    exec (ComputeColorFromSHBackwardCUDAKernel 1 1 16 SHScene.dirs SHScene.shs
            SHScene.visibility_filter (clamped fout') SHScene.dL_dcolors 0) SHScene.bwd0
      = Some (Bwd (<[0%nat := dL_ddir]> (dL_ddirs SHScene.bwd0))
                  (list_inserts (0 * 16) dL_dsh (dL_dshs SHScene.bwd0))) /\
    derivable_pt_lim
      (fun t => dot (clamp_color (result 1 (Vec3 0 0 t) (take 4 SHScene.shs))) (Vec3 1 2 3))
      1 (v3z dL_ddir).
Proof.
  destruct (sh_forward_backward_gradient 1 1 16 SHScene.dirs SHScene.shs
              SHScene.visibility_filter SHScene.dL_dcolors 0 0 0 1 (Vec3 1 2 3)
              SHScene.fwd0 SHScene.bwd0)
    as (fout' & dL_dsh & dL_ddir & Ef & _ & Eb & _ & _ & _ & Dz & _);
    [lia | lia | reflexivity | reflexivity | reflexivity | cbn; lia | cbn; lia
     | cbn; lia | cbn; lia | cbn; lia
     | to_reals; unfold SH_C0, SH_C1; lra
     | to_reals; unfold SH_C0, SH_C1; lra
     | to_reals; unfold SH_C0, SH_C1; lra |].
  exists fout', dL_dsh, dL_ddir. split; [exact Ef|]. split; [exact Eb|exact Dz].
Defined.

End SHTraining.

Section SHBackwardDegrees.
Import SH.

(** X20.  Raising the degree does not disturb the gradients of the lower
    bands: for degrees [d <= d'] in 0..3, the first [(d+1)^2] coefficient
    gradients of the backward body at degree [d'] are those at degree [d],
    whatever the coefficients; and when the coefficients of the bands above
    [d] are zero, so is the contribution of those bands to the direction
    gradient, which is then the one at degree [d]. *)
Theorem sh_backward_degree_extension (d d' : Z) (dir : vec3) (sh : list vec3) (g : vec3) :
  (0 <= d)%Z -> (d <= d')%Z -> (d' <= 3)%Z ->
  take (coeffs d) (backward d' dir sh g).1 = (backward d dir sh g).1 /\
  ((forall k, (coeffs d <= k < coeffs d')%nat -> elt sh k = vec3_zero) ->
   (backward d' dir sh g).2 = (backward d dir sh g).2).
Proof.
  intros Hd0 Hdd Hd3. destruct dir as [x y z], g as [g0 g1 g2].
  split.
  - split_degree d; split_degree d'; try lia; reflexivity.
  - intros Hzero.
    split_degree d; split_degree d'; try lia; try reflexivity;
      unfold backward, coeffs in *;
      cbn [Z.gtb Z.compare Pos.compare Pos.compare_cont] in *;
      rewrite ?(Hzero 1%nat), ?(Hzero 2%nat), ?(Hzero 3%nat), ?(Hzero 4%nat),
        ?(Hzero 5%nat), ?(Hzero 6%nat), ?(Hzero 7%nat), ?(Hzero 8%nat),
        ?(Hzero 9%nat), ?(Hzero 10%nat), ?(Hzero 11%nat), ?(Hzero 12%nat),
        ?(Hzero 13%nat), ?(Hzero 14%nat), ?(Hzero 15%nat) by lia;
      name_coeffs sh; to_reals; vec_eq; ring.
Qed.

Lemma sh_backward_degree_extension_witness :
  take (coeffs 1)
    (backward 2 (Vec3 0 0 1) (replicate 4 (Vec3 1 1 1) ++ replicate 5 vec3_zero)
       (Vec3 1 2 3)).1
    = (backward 1 (Vec3 0 0 1) (replicate 4 (Vec3 1 1 1) ++ replicate 5 vec3_zero)
         (Vec3 1 2 3)).1 /\
  (backward 2 (Vec3 0 0 1) (replicate 4 (Vec3 1 1 1) ++ replicate 5 vec3_zero)
     (Vec3 1 2 3)).2
    = (backward 1 (Vec3 0 0 1) (replicate 4 (Vec3 1 1 1) ++ replicate 5 vec3_zero)
         (Vec3 1 2 3)).2.
Proof.
  destruct (sh_backward_degree_extension 1 2 (Vec3 0 0 1)
              (replicate 4 (Vec3 1 1 1) ++ replicate 5 vec3_zero) (Vec3 1 2 3))
    as [Hsh Hdir]; [lia | lia | lia |].
  split; [exact Hsh|]. apply Hdir.
  intros k Hk. cbn in Hk.
  do 9 (destruct k as [|k]; [try lia; reflexivity|]). lia.
Defined.

End SHBackwardDegrees.

(** * Schedules

    A launch is modelled with its workers run one after the other by
    rising index.  The device runs them in any order; the results below
    show that the order does not matter. *)

Lemma list_inserts_disjoint {A} (l k m : list A) i j :
  (i + length k <= j \/ j + length m <= i)%nat ->
  list_inserts i k (list_inserts j m l) = list_inserts j m (list_inserts i k l).
Proof.
  intros Hd. apply list_eq. intros p.
  destruct (decide (p < length l)%nat) as [Hp|Hp].
  - destruct (decide (i <= p < i + length k)%nat) as [Hi|Hi].
    + rewrite list_lookup_inserts by (rewrite ?length_inserts; lia).
      destruct (decide (p < j)%nat).
      * rewrite (list_lookup_inserts_lt _ j) by lia.
        now rewrite list_lookup_inserts by lia.
      * rewrite (list_lookup_inserts_ge _ j) by lia.
        now rewrite list_lookup_inserts by lia.
    + assert (Hl : forall l', list_inserts i k l' !! p = l' !! p).
      { intros l'. destruct (decide (p < i)%nat).
        - now apply list_lookup_inserts_lt.
        - apply list_lookup_inserts_ge. lia. }
      rewrite Hl. destruct (decide (j <= p < j + length m)%nat) as [Hj|Hj].
      * now rewrite !list_lookup_inserts by (rewrite ?length_inserts; lia).
      * destruct (decide (p < j)%nat).
        -- rewrite !(list_lookup_inserts_lt _ j) by lia. now rewrite Hl.
        -- rewrite !(list_lookup_inserts_ge _ j) by lia. now rewrite Hl.
  - rewrite !lookup_ge_None_2; [reflexivity| |]; rewrite !length_inserts; lia.
Qed.

Lemma list_inserts_again {A} (l k : list A) i :
  list_inserts i k (list_inserts i k l) = list_inserts i k l.
Proof.
  apply list_eq. intros p.
  destruct (decide (p < length l)%nat) as [Hp|Hp].
  - destruct (decide (i <= p < i + length k)%nat) as [Hi|Hi].
    + now rewrite !list_lookup_inserts by (rewrite ?length_inserts; lia).
    + destruct (decide (p < i)%nat).
      * now rewrite list_lookup_inserts_lt by lia.
      * now rewrite list_lookup_inserts_ge by lia.
  - rewrite !lookup_ge_None_2; [reflexivity| |]; rewrite !length_inserts; lia.
Qed.

Section Schedules.
Context {St : Type}.
Variables (body : nat -> K St unit) (f : nat -> St -> St) (I : St -> Prop) (P : nat).

Hypothesis worker : forall idx s tr, I s ->
  I (f idx s) /\ exists tr', body idx (s, tr) = Some (tt, (f idx s, tr')).
Hypothesis commute : forall i j s, I s -> f i (f j s) = f j (f i s).
Hypothesis again : forall i s, I s -> f i (f i s) = f i s.
Hypothesis idle : forall i s, (P <= i)%nat -> f i s = s.


Lemma run_inv ranks s : I s -> I (run_workers f s ranks).
Proof.
  intros Hs. apply (foldl_inv f I); [|assumption].
  intros idx s' Hs'. now apply (worker idx s' []).
Qed.

Lemma run_push x ranks : forall s, I s ->
  f x (run_workers f s ranks) = run_workers f (f x s) ranks.
Proof.
  induction ranks as [|a ranks IH]; intros s Hs; [reflexivity|].
  cbn [run_workers foldl]. fold (run_workers f (f a s) ranks).
  fold (run_workers f (f a (f x s)) ranks).
  rewrite IH by now apply (worker a s []).
  now rewrite commute.
Qed.

Lemma run_absorb x ranks : forall s, I s ->
  (x ∈ ranks \/ (P <= x)%nat) -> f x (run_workers f s ranks) = run_workers f s ranks.
Proof.
  intros s Hs [Hin|Hge]; [|now apply idle].
  revert s Hs. induction ranks as [|a ranks IH]; intros s Hs.
  - now apply elem_of_nil in Hin.
  - cbn [run_workers foldl]. fold (run_workers f (f a s) ranks).
    apply elem_of_cons in Hin as [->|Hin].
    + rewrite run_push by now apply (worker a s []).
      now rewrite again.
    + apply IH; [assumption|]. now apply (worker a s []).
Qed.

Lemma run_permutation ranks ranks' :
  ranks ≡ₚ ranks' -> forall s, I s -> run_workers f s ranks = run_workers f s ranks'.
Proof.
  induction 1 as [|x l l' _ IH|x y l|l l' l'' _ IH1 _ IH2]; intros s Hs.
  - reflexivity.
  - cbn [run_workers foldl]. apply IH. now apply (worker x s []).
  - cbn [run_workers foldl]. now rewrite commute.
  - now rewrite IH1, IH2.
Qed.

Lemma run_covered ranks' : forall ranks s, I s ->
  (forall i, i ∈ ranks' -> (i < P)%nat -> i ∈ ranks) ->
  run_workers f s (ranks ++ ranks') = run_workers f s ranks.
Proof.
  induction ranks' as [|a ranks' IH]; intros ranks s Hs Hsub.
  - now rewrite app_nil_r.
  - replace (ranks ++ a :: ranks') with ((ranks ++ [a]) ++ ranks')
      by now rewrite <- app_assoc.
    rewrite IH; [|assumption|].
    + unfold run_workers. rewrite foldl_app. cbn [foldl].
      apply run_absorb; [assumption|].
      destruct (decide (a < P)%nat); [left|right; lia].
      apply Hsub; [constructor|assumption].
    + intros i Hi HP. apply elem_of_app. left. apply Hsub; [now constructor|assumption].
Qed.

(** The outputs depend on which primitives had their worker run, and on
    nothing else: not on the order, not on how often. *)
Lemma run_schedule ranks ranks' s :
  I s -> (forall i, (i < P)%nat -> i ∈ ranks <-> i ∈ ranks') ->
  run_workers f s ranks = run_workers f s ranks'.
Proof.
  intros Hs Hset.
  rewrite <- (run_covered ranks' ranks s Hs) by (intros i Hi HP; now apply Hset).
  rewrite (run_permutation (ranks ++ ranks') (ranks' ++ ranks)) by
    (try assumption; apply Permutation_app_comm).
  apply run_covered; [assumption|]. intros i Hi HP. now apply Hset.
Qed.

Lemma any_schedule grid block ranks s :
  I s -> (P <= grid * block)%nat -> (forall i, (i < P)%nat -> i ∈ ranks) ->
  exists s', I s' /\ exec (launch grid block body) s = Some s' /\
             exec (for_ranks body ranks) s = Some s'.
Proof.
  intros Hs Hgrid Hcover.
  destruct (for_ranks_run body f I (seq 0 (grid * block)) worker s
              [Launch grid block] Hs) as [HI [tr1 E1]].
  destruct (for_ranks_run body f I ranks worker s [] Hs) as [_ [tr2 E2]].
  exists (run_workers f s (seq 0 (grid * block))). split; [exact HI|]. split.
  - unfold exec. rewrite launch_run. cbn [fst snd app]. now rewrite E1.
  - unfold exec. rewrite E2. cbn [fst]. f_equal. apply run_schedule; [assumption|].
    intros i Hi. split; intros _; [|now apply Hcover].
    apply elem_of_seq. lia.
Qed.

(** What a launch leaves is left as it is by every worker run once more. *)
Lemma launch_settled grid block s :
  I s -> (P <= grid * block)%nat ->
  exists s', I s' /\ exec (launch grid block body) s = Some s' /\
             forall i, f i s' = s'.
Proof.
  intros Hs Hgrid.
  destruct (for_ranks_run body f I (seq 0 (grid * block)) worker s
              [Launch grid block] Hs) as [HI [tr1 E1]].
  exists (run_workers f s (seq 0 (grid * block))). split; [exact HI|]. split.
  - unfold exec. rewrite launch_run. cbn [fst snd app]. now rewrite E1.
  - intros i. apply run_absorb; [assumption|].
    destruct (decide (i < P)%nat); [left|right; lia].
    apply elem_of_seq. lia.
Qed.

End Schedules.

(** ** The four kernels under any schedule *)

Section Cov3DSchedules.
Import Cov3D.
Variables (P : nat) (scales : list vec3) (uquats : list vec4) (visible : list bool).

Lemma cov_fwd_effect_commute i j out :
  cov_fwd_effect P scales uquats visible i (cov_fwd_effect P scales uquats visible j out)
  = cov_fwd_effect P scales uquats visible j (cov_fwd_effect P scales uquats visible i out).
Proof.
  destruct (decide (i = j)) as [->|Hne]; [reflexivity|].
  unfold cov_fwd_effect. repeat case_match; try reflexivity.
  apply list_inserts_disjoint. cbn [cov3D_values length]. lia.
Qed.

Lemma cov_fwd_effect_again i out :
  cov_fwd_effect P scales uquats visible i (cov_fwd_effect P scales uquats visible i out)
  = cov_fwd_effect P scales uquats visible i out.
Proof.
  unfold cov_fwd_effect. repeat case_match; try reflexivity.
  apply list_inserts_again.
Qed.

Lemma cov_fwd_effect_idle i out :
  (P <= i)%nat -> cov_fwd_effect P scales uquats visible i out = out.
Proof.
  intros H. unfold cov_fwd_effect. repeat case_match; try reflexivity.
  match goal with H' : bool_decide _ = true |- _ => apply bool_decide_eq_true_1 in H' end.
  lia.
Qed.

Variable dL_dcov3Ds : list R.

Lemma cov_bwd_effect_commute i j out :
  cov_bwd_effect P scales uquats visible dL_dcov3Ds i
    (cov_bwd_effect P scales uquats visible dL_dcov3Ds j out)
  = cov_bwd_effect P scales uquats visible dL_dcov3Ds j
      (cov_bwd_effect P scales uquats visible dL_dcov3Ds i out).
Proof.
  destruct (decide (i = j)) as [->|Hne]; [reflexivity|].
  unfold cov_bwd_effect. repeat case_match; try reflexivity.
  cbn [dL_dscales dL_duquats]. f_equal; now apply list_insert_insert_ne.
Qed.

Lemma cov_bwd_effect_again i out :
  cov_bwd_effect P scales uquats visible dL_dcov3Ds i
    (cov_bwd_effect P scales uquats visible dL_dcov3Ds i out)
  = cov_bwd_effect P scales uquats visible dL_dcov3Ds i out.
Proof.
  unfold cov_bwd_effect. repeat case_match; try reflexivity.
  cbn [dL_dscales dL_duquats]. f_equal; apply list_insert_insert_eq.
Qed.

Lemma cov_bwd_effect_idle i out :
  (P <= i)%nat -> cov_bwd_effect P scales uquats visible dL_dcov3Ds i out = out.
Proof.
  intros H. unfold cov_bwd_effect. repeat case_match; try reflexivity.
  match goal with H' : bool_decide _ = true |- _ => apply bool_decide_eq_true_1 in H' end.
  lia.
Qed.

End Cov3DSchedules.

Section SHSchedules.
Import SH.
Variables (P : nat) (deg : Z) (max_coeffs : nat)
          (dirs shs : list vec3) (visible : list bool).
Hypothesis visible_len : (P <= length visible)%nat.
Hypothesis dirs_len : (P <= length dirs)%nat.
Hypothesis shs_len : (P * max_coeffs <= length shs)%nat.
Hypothesis stride : (coeffs deg <= max_coeffs)%nat.

Lemma sh_fwd_worker idx out tr :
  fwd_sized P out ->
  fwd_sized P (sh_fwd_effect P deg max_coeffs dirs shs visible idx out) /\
  exists tr',
    ComputeColorFromSHForwardCUDAKernel P deg max_coeffs dirs shs visible idx (out, tr)
    = Some (tt, (sh_fwd_effect P deg max_coeffs dirs shs visible idx out, tr')).
Proof.
  intros [Hc Hm]. unfold sh_fwd_effect.
  destruct (decide (idx < P)%nat) as [Hin|Hout].
  - destruct (lookup_lt_is_Some_2 visible idx) as [v Hv]; [lia|].
    destruct (lookup_lt_is_Some_2 dirs idx) as [dir Hd]; [lia|].
    rewrite Hv, Hd, bool_decide_eq_true_2 by assumption.
    pose proof (stride_inside idx P max_coeffs (coeffs deg) Hin stride).
    destruct v.
    + split; [split; cbn [colors clamped];
              rewrite ?length_insert, ?length_inserts; assumption|].
      apply sh_fwd_visible; cbn [fst]; try assumption; lia.
    + split; [now split|]. eexists. now apply sh_fwd_invisible.
  - rewrite bool_decide_eq_false_2 by assumption.
    split; [repeat case_match; now split|].
    exists tr. rewrite sh_fwd_out by lia. repeat case_match; reflexivity.
Qed.

Lemma sh_fwd_effect_commute i j out :
  sh_fwd_effect P deg max_coeffs dirs shs visible i
    (sh_fwd_effect P deg max_coeffs dirs shs visible j out)
  = sh_fwd_effect P deg max_coeffs dirs shs visible j
      (sh_fwd_effect P deg max_coeffs dirs shs visible i out).
Proof.
  destruct (decide (i = j)) as [->|Hne]; [reflexivity|].
  unfold sh_fwd_effect. repeat case_match; try reflexivity.
  cbn [colors clamped]. f_equal; [now apply list_insert_insert_ne|].
  apply list_inserts_disjoint. cbn [clamp_mask length]. lia.
Qed.

Lemma sh_fwd_effect_again i out :
  sh_fwd_effect P deg max_coeffs dirs shs visible i
    (sh_fwd_effect P deg max_coeffs dirs shs visible i out)
  = sh_fwd_effect P deg max_coeffs dirs shs visible i out.
Proof.
  unfold sh_fwd_effect. repeat case_match; try reflexivity.
  cbn [colors clamped]. f_equal; [apply list_insert_insert_eq|apply list_inserts_again].
Qed.

Lemma sh_fwd_effect_idle i out :
  (P <= i)%nat -> sh_fwd_effect P deg max_coeffs dirs shs visible i out = out.
Proof.
  intros H. unfold sh_fwd_effect. repeat case_match; try reflexivity.
  match goal with H' : bool_decide _ = true |- _ => apply bool_decide_eq_true_1 in H' end.
  lia.
Qed.

Variables (clamped_in : list bool) (dL_dcolors : list vec3).
Hypothesis clamped_len : (3 * P <= length clamped_in)%nat.
Hypothesis dL_dcolors_len : (P <= length dL_dcolors)%nat.

Lemma sh_bwd_worker idx out tr :
  bwd_sized P max_coeffs out ->
  bwd_sized P max_coeffs
    (sh_bwd_effect P deg max_coeffs dirs shs visible clamped_in dL_dcolors idx out) /\
  exists tr',
    ComputeColorFromSHBackwardCUDAKernel P deg max_coeffs dirs shs visible clamped_in
      dL_dcolors idx (out, tr)
    = Some (tt, (sh_bwd_effect P deg max_coeffs dirs shs visible clamped_in dL_dcolors
                   idx out, tr')).
Proof.
  intros [Hd Hs]. unfold sh_bwd_effect.
  destruct (decide (idx < P)%nat) as [Hin|Hout].
  - destruct (lookup_lt_is_Some_2 visible idx) as [v Hv]; [lia|].
    destruct (lookup_lt_is_Some_2 dirs idx) as [dir Hdir]; [lia|].
    destruct (lookup_lt_is_Some_2 dL_dcolors idx) as [g Hg]; [lia|].
    destruct (lookup_lt_is_Some_2 clamped_in (3 * idx + 0)) as [c0 H0]; [lia|].
    destruct (lookup_lt_is_Some_2 clamped_in (3 * idx + 1)) as [c1 H1]; [lia|].
    destruct (lookup_lt_is_Some_2 clamped_in (3 * idx + 2)) as [c2 H2]; [lia|].
    rewrite Hv, Hdir, Hg, H0, H1, H2, bool_decide_eq_true_2 by assumption.
    pose proof (stride_inside idx P max_coeffs (coeffs deg) Hin stride).
    destruct v.
    + split; [split; cbn [dL_ddirs dL_dshs];
              rewrite ?length_insert, ?length_inserts; assumption|].
      apply sh_bwd_visible; cbn [fst]; try assumption; lia.
    + split; [now split|]. eexists. now apply sh_bwd_invisible.
  - rewrite bool_decide_eq_false_2 by assumption.
    split; [repeat case_match; now split|].
    exists tr. rewrite sh_bwd_out by lia. repeat case_match; reflexivity.
Qed.

Lemma sh_bwd_effect_commute i j out :
  sh_bwd_effect P deg max_coeffs dirs shs visible clamped_in dL_dcolors i
    (sh_bwd_effect P deg max_coeffs dirs shs visible clamped_in dL_dcolors j out)
  = sh_bwd_effect P deg max_coeffs dirs shs visible clamped_in dL_dcolors j
      (sh_bwd_effect P deg max_coeffs dirs shs visible clamped_in dL_dcolors i out).
Proof.
  destruct (decide (i = j)) as [->|Hne]; [reflexivity|].
  unfold sh_bwd_effect. repeat case_match; try reflexivity.
  cbn [dL_ddirs dL_dshs]. f_equal; [now apply list_insert_insert_ne|].
  apply list_inserts_disjoint. rewrite !backward_length.
  destruct (stride_apart j i max_coeffs (coeffs deg)) as [Hd|Hd]; try assumption;
    [congruence|lia|lia].
Qed.

Lemma sh_bwd_effect_again i out :
  sh_bwd_effect P deg max_coeffs dirs shs visible clamped_in dL_dcolors i
    (sh_bwd_effect P deg max_coeffs dirs shs visible clamped_in dL_dcolors i out)
  = sh_bwd_effect P deg max_coeffs dirs shs visible clamped_in dL_dcolors i out.
Proof.
  unfold sh_bwd_effect. repeat case_match; try reflexivity.
  cbn [dL_ddirs dL_dshs]. f_equal; [apply list_insert_insert_eq|apply list_inserts_again].
Qed.

Lemma sh_bwd_effect_idle i out :
  (P <= i)%nat ->
  sh_bwd_effect P deg max_coeffs dirs shs visible clamped_in dL_dcolors i out = out.
Proof.
  intros H. unfold sh_bwd_effect. repeat case_match; try reflexivity.
  match goal with H' : bool_decide _ = true |- _ => apply bool_decide_eq_true_1 in H' end.
  lia.
Qed.

(** No worker touches the coefficient gradients past the degree's count. *)
Lemma sh_bwd_effect_unused idx i k out :
  (coeffs deg <= k < max_coeffs)%nat ->
  dL_dshs (sh_bwd_effect P deg max_coeffs dirs shs visible clamped_in dL_dcolors idx out)
    !! (i * max_coeffs + k)%nat
  = dL_dshs out !! (i * max_coeffs + k)%nat.
Proof.
  intros Hk. unfold sh_bwd_effect. repeat case_match; try reflexivity.
  cbn [dL_dshs]. destruct (decide (i = idx)) as [->|Hne].
  - apply list_lookup_inserts_ge. rewrite backward_length. lia.
  - destruct (stride_apart i idx max_coeffs (coeffs deg) Hne stride).
    + apply list_lookup_inserts_lt. lia.
    + apply list_lookup_inserts_ge. rewrite backward_length. lia.
Qed.

End SHSchedules.

Section AnySchedule.
Import Cov3D SH.

(** X16.  The covariance workers do not get in each other's way: on
    tensors that hold the [P] primitives, running the workers of any list
    of indices that names every primitive at least once (in any order, with
    repeats, with surplus indices past [P]) succeeds and leaves the outputs
    the launch leaves.  This holds for the forward and for the backward
    kernel. *)
Theorem cov_any_schedule (P : nat) (scales : list vec3) (uquats : list vec4)
    (visible : list bool) (dL_dcov3Ds : list R) (ranks : list nat) :
  (P <= length scales)%nat -> (P <= length uquats)%nat -> (P <= length visible)%nat ->
  (P * 6 <= length dL_dcov3Ds)%nat ->
  (forall i, (i < P)%nat -> i ∈ ranks) ->
  (forall out : list R, length out = (P * 6)%nat ->
     exists out',
       exec (launch ((P + 255) / 256) 256
               (computeCov3DForwardCUDAKernel P scales uquats visible)) out = Some out' /\
       exec (for_ranks (computeCov3DForwardCUDAKernel P scales uquats visible) ranks) out
         = Some out') /\
  (forall out : grads, grads_sized P out ->
     exists out',
       exec (launch ((P + 255) / 256) 256
               (computeCov3DBackwardCUDAKernel P scales uquats visible dL_dcov3Ds)) out
         = Some out' /\
       exec (for_ranks (computeCov3DBackwardCUDAKernel P scales uquats visible dL_dcov3Ds)
               ranks) out = Some out').
Proof.
  intros Hs Hq Hv Hg Hcover. pose proof (grid_covers P) as Hgrid. split.
  - intros out Hout.
    destruct (any_schedule (computeCov3DForwardCUDAKernel P scales uquats visible)
                (cov_fwd_effect P scales uquats visible)
                (fun o => length o = (P * 6)%nat) P) with
      (grid := ((P + 255) / 256)%nat) (block := 256%nat) (ranks := ranks) (s := out)
      as (out' & _ & E1 & E2); try assumption.
    + intros. apply cov_fwd_worker; assumption.
    + intros. apply cov_fwd_effect_commute; assumption.
    + intros. apply cov_fwd_effect_again; assumption.
    + intros. apply cov_fwd_effect_idle; assumption.
    + now exists out'.
  - intros out Hout.
    destruct (any_schedule
                (computeCov3DBackwardCUDAKernel P scales uquats visible dL_dcov3Ds)
                (cov_bwd_effect P scales uquats visible dL_dcov3Ds)
                (grads_sized P) P) with
      (grid := ((P + 255) / 256)%nat) (block := 256%nat) (ranks := ranks) (s := out)
      as (out' & _ & E1 & E2); try assumption.
    + intros. apply cov_bwd_worker; assumption.
    + intros. apply cov_bwd_effect_commute; assumption.
    + intros. apply cov_bwd_effect_again; assumption.
    + intros. apply cov_bwd_effect_idle; assumption.
    + now exists out'.
Qed.

Lemma cov_any_schedule_witness :
  exists out',
    exec (launch ((2 + 255) / 256) 256
            (computeCov3DForwardCUDAKernel 2 Scene.scales Scene.uquats Scene.visible))
      Scene.cov3Ds = Some out' /\
    exec (for_ranks (computeCov3DForwardCUDAKernel 2 Scene.scales Scene.uquats Scene.visible)
            [1; 300; 0; 1]%nat) Scene.cov3Ds = Some out'.
Proof.
  apply (cov_any_schedule 2 Scene.scales Scene.uquats Scene.visible Scene.dL_dcov3Ds
           [1; 300; 0; 1]%nat);
    [cbn; lia | cbn; lia | cbn; lia | cbn; lia
     | intros i Hi; apply list_elem_of_In; cbn; lia | reflexivity].
Defined.

(** X17.  The same for the two colour kernels, when the stride
    [max_coeffs] is at least the count of coefficients the degree uses, so
    that the blocks of two primitives do not overlap. *)
Theorem sh_any_schedule (P : nat) (deg : Z) (max_coeffs : nat)
    (dirs shs : list vec3) (visibility_filter clamped : list bool)
    (dL_dcolors : list vec3) (ranks : list nat) :
  (P <= length visibility_filter)%nat -> (P <= length dirs)%nat ->
  (P * max_coeffs <= length shs)%nat -> (coeffs deg <= max_coeffs)%nat ->
  (3 * P <= length clamped)%nat -> (P <= length dL_dcolors)%nat ->
  (forall i, (i < P)%nat -> i ∈ ranks) ->
  (forall out : fwd, fwd_sized P out ->
     exists out',
       exec (ComputeColorFromSHForwardCUDA P deg max_coeffs dirs shs visibility_filter) out
         = Some out' /\
       exec (for_ranks (ComputeColorFromSHForwardCUDAKernel P deg max_coeffs dirs shs
                          visibility_filter) ranks) out = Some out') /\
  (forall out : bwd, bwd_sized P max_coeffs out ->
     exists out',
       exec (ComputeColorFromSHBackwardCUDA P deg max_coeffs dirs shs visibility_filter
               clamped dL_dcolors) out = Some out' /\
       exec (for_ranks (ComputeColorFromSHBackwardCUDAKernel P deg max_coeffs dirs shs
                          visibility_filter clamped dL_dcolors) ranks) out = Some out').
Proof.
  intros Hv Hd Hsh Hmc Hcl Hg Hcover. pose proof (grid_covers P) as Hgrid. split.
  - intros out Hout.
    destruct (any_schedule
                (ComputeColorFromSHForwardCUDAKernel P deg max_coeffs dirs shs
                   visibility_filter)
                (sh_fwd_effect P deg max_coeffs dirs shs visibility_filter)
                (fwd_sized P) P) with
      (grid := ((P + 255) / 256)%nat) (block := 256%nat) (ranks := ranks) (s := out)
      as (out' & _ & E1 & E2); try assumption.
    + intros. apply sh_fwd_worker; assumption.
    + intros. apply sh_fwd_effect_commute; assumption.
    + intros. apply sh_fwd_effect_again; assumption.
    + intros. apply sh_fwd_effect_idle; assumption.
    + now exists out'.
  - intros out Hout.
    destruct (any_schedule
                (ComputeColorFromSHBackwardCUDAKernel P deg max_coeffs dirs shs
                   visibility_filter clamped dL_dcolors)
                (sh_bwd_effect P deg max_coeffs dirs shs visibility_filter clamped
                   dL_dcolors)
                (bwd_sized P max_coeffs) P) with
      (grid := ((P + 255) / 256)%nat) (block := 256%nat) (ranks := ranks) (s := out)
      as (out' & _ & E1 & E2); try assumption.
    + intros. apply sh_bwd_worker; assumption.
    + intros. apply sh_bwd_effect_commute; assumption.
    + intros. apply sh_bwd_effect_again; assumption.
    + intros. apply sh_bwd_effect_idle; assumption.
    + now exists out'.
Qed.

Lemma sh_any_schedule_witness :
  exists out',
    exec (ComputeColorFromSHBackwardCUDA 1 3 16 SHScene.dirs SHScene.shs
            SHScene.visibility_filter SHScene.clamped SHScene.dL_dcolors) SHScene.bwd0
      = Some out' /\
    exec (for_ranks (ComputeColorFromSHBackwardCUDAKernel 1 3 16 SHScene.dirs SHScene.shs
                       SHScene.visibility_filter SHScene.clamped SHScene.dL_dcolors)
            [5; 0; 0]%nat) SHScene.bwd0 = Some out'.
Proof.
  apply (sh_any_schedule 1 3 16 SHScene.dirs SHScene.shs SHScene.visibility_filter
           SHScene.clamped SHScene.dL_dcolors [5; 0; 0]%nat);
    [cbn; lia | cbn; lia | cbn; lia | cbn; lia | cbn; lia | cbn; lia
     | intros i Hi; apply list_elem_of_In; cbn; lia
     | split; cbn; lia].
Defined.

(** X18.  A whole forward colour launch: on arrays that hold the [P]
    primitives the launch succeeds, and for every visible primitive the
    colour and the three clamp flags it leaves are those of the forward
    polynomial at that primitive's direction and coefficient block. *)
Theorem sh_forward_launch_rows (P : nat) (deg : Z) (max_coeffs : nat)
    (dirs shs : list vec3) (visibility_filter : list bool) (out : fwd) :
  (P <= length visibility_filter)%nat -> (P <= length dirs)%nat ->
  (P * max_coeffs <= length shs)%nat -> (coeffs deg <= max_coeffs)%nat ->
  fwd_sized P out ->
  exists out',
    exec (ComputeColorFromSHForwardCUDA P deg max_coeffs dirs shs visibility_filter) out
      = Some out' /\
    forall i dir, (i < P)%nat -> visibility_filter !! i = Some true ->
      dirs !! i = Some dir ->
      let raw := result deg dir (take (coeffs deg) (drop (i * max_coeffs) shs)) in
      colors out' !! i = Some (clamp_color raw) /\
      take 3 (drop (3 * i) (clamped out')) = clamp_mask raw.
Proof.
  intros Hv Hd Hsh Hmc Hout. pose proof (grid_covers P) as Hgrid.
  destruct (launch_settled
              (ComputeColorFromSHForwardCUDAKernel P deg max_coeffs dirs shs
                 visibility_filter)
              (sh_fwd_effect P deg max_coeffs dirs shs visibility_filter)
              (fwd_sized P) P) with
    (grid := ((P + 255) / 256)%nat) (block := 256%nat) (s := out)
    as (out' & [Hc Hm] & E & Hfix); try assumption.
  - intros. apply sh_fwd_worker; assumption.
  - intros. apply sh_fwd_effect_commute; assumption.
  - intros. apply sh_fwd_effect_again; assumption.
  - intros. apply sh_fwd_effect_idle; assumption.
  - exists out'. split; [exact E|]. intros i dir Hi Hvi Hdi raw.
    specialize (Hfix i). unfold sh_fwd_effect in Hfix.
    rewrite Hvi, Hdi, bool_decide_eq_true_2 in Hfix by assumption.
    fold raw in Hfix. rewrite <- Hfix. cbn [colors clamped]. split.
    + apply list_lookup_insert_eq. lia.
    + refine (take_drop_inserts (clamped out') (clamp_mask raw) (3 * i) _).
      cbn [clamp_mask length]. lia.
Qed.

Lemma sh_forward_launch_rows_witness :
  exists out',
    exec (ComputeColorFromSHForwardCUDA 1 2 16 SHScene.dirs SHScene.shs
            SHScene.visibility_filter) SHScene.fwd0 = Some out' /\
    colors out' !! 0%nat
      = Some (clamp_color (result 2 (Vec3 0 0 1) (take (coeffs 2) SHScene.shs))).
Proof.
  destruct (sh_forward_launch_rows 1 2 16 SHScene.dirs SHScene.shs
              SHScene.visibility_filter SHScene.fwd0)
    as (out' & E & Hrows);
    [cbn; lia | cbn; lia | cbn; lia | cbn; lia | split; cbn; lia |].
  exists out'. split; [exact E|].
  apply (Hrows 0%nat (Vec3 0 0 1)); [lia | reflexivity | reflexivity].
Defined.

(** X19.  A whole backward colour launch: on arrays that hold the [P]
    primitives, with a stride of at least the coefficient count, the launch
    succeeds; for every visible primitive the direction gradient and the
    first [(deg+1)^2] coefficient gradients of its block are those of the
    backward body; and the remaining entries of every block, visible or
    not, are left as they were (they are not zeroed). *)
Theorem sh_backward_launch_rows (P : nat) (deg : Z) (max_coeffs : nat)
    (dirs shs : list vec3) (visibility_filter clamped : list bool)
    (dL_dcolors : list vec3) (out : bwd) :
  (P <= length visibility_filter)%nat -> (P <= length dirs)%nat ->
  (P * max_coeffs <= length shs)%nat -> (coeffs deg <= max_coeffs)%nat ->
  (3 * P <= length clamped)%nat -> (P <= length dL_dcolors)%nat ->
  bwd_sized P max_coeffs out ->
  exists out',
    exec (ComputeColorFromSHBackwardCUDA P deg max_coeffs dirs shs visibility_filter
            clamped dL_dcolors) out = Some out' /\
    (forall i dir g c0 c1 c2, (i < P)%nat -> visibility_filter !! i = Some true ->
       dirs !! i = Some dir -> dL_dcolors !! i = Some g ->
       clamped !! (3 * i + 0)%nat = Some c0 -> clamped !! (3 * i + 1)%nat = Some c1 ->
       clamped !! (3 * i + 2)%nat = Some c2 ->
       let sh := take (coeffs deg) (drop (i * max_coeffs) shs) in
       let r := backward deg dir sh (clamp_rule g c0 c1 c2) in
       dL_ddirs out' !! i = Some r.2 /\
       take (coeffs deg) (drop (i * max_coeffs) (dL_dshs out')) = r.1) /\
    (forall i k, (coeffs deg <= k < max_coeffs)%nat ->
       dL_dshs out' !! (i * max_coeffs + k)%nat = dL_dshs out !! (i * max_coeffs + k)%nat).
Proof.
  intros Hv Hd Hsh Hmc Hcl Hg Hout. pose proof (grid_covers P) as Hgrid.
  pose proof (coeffs_pos deg) as Hn.
  set (body := ComputeColorFromSHBackwardCUDAKernel P deg max_coeffs dirs shs
                 visibility_filter clamped dL_dcolors).
  set (f := sh_bwd_effect P deg max_coeffs dirs shs visibility_filter clamped dL_dcolors).
  assert (Hw : forall idx s tr, bwd_sized P max_coeffs s ->
            bwd_sized P max_coeffs (f idx s) /\
            exists tr', body idx (s, tr) = Some (tt, (f idx s, tr'))).
  { intros. apply sh_bwd_worker; assumption. }
  destruct (launch_settled body f (bwd_sized P max_coeffs) P Hw) with
    (grid := ((P + 255) / 256)%nat) (block := 256%nat) (s := out)
    as (out' & [Hc Hm] & E & Hfix); try assumption.
  - intros. apply sh_bwd_effect_commute; assumption.
  - intros. apply sh_bwd_effect_again; assumption.
  - intros. apply sh_bwd_effect_idle; assumption.
  - exists out'. split; [exact E|]. split.
    + intros i dir g c0 c1 c2 Hi Hvi Hdi Hgi H0 H1 H2 sh r.
      specialize (Hfix i). unfold f, sh_bwd_effect in Hfix.
      rewrite Hvi, Hdi, Hgi, H0, H1, H2, bool_decide_eq_true_2 in Hfix by assumption.
      pose proof (stride_inside i P max_coeffs (coeffs deg) Hi Hmc) as Hblock.
      destruct (take_drop_head shs (i * max_coeffs) (coeffs deg - 1)) as [c Hc0]; [lia|].
      replace (S (coeffs deg - 1)) with (coeffs deg) in Hc0 by lia. fold sh in Hc0.
      rewrite (backward_ignores_sh0 deg dir vec3_zero c) in Hfix.
      rewrite <- Hc0 in Hfix. fold r in Hfix.
      pose proof (backward_length deg dir sh (clamp_rule g c0 c1 c2)) as Hlen.
      fold r in Hlen. rewrite <- Hfix. cbn [dL_ddirs dL_dshs]. split.
      * apply list_lookup_insert_eq. lia.
      * rewrite <- Hlen at 1. apply take_drop_inserts. lia.
    + intros i k Hk.
      unfold exec in E. unfold body in E.
      change (ComputeColorFromSHBackwardCUDA P deg max_coeffs dirs shs visibility_filter
                clamped dL_dcolors)
        with (launch ((P + 255) / 256) 256 body) in E.
      rewrite launch_run in E. cbn [fst snd app] in E.
      destruct (for_ranks_run body f (bwd_sized P max_coeffs)
                  (seq 0 ((P + 255) / 256 * 256)) Hw out
                  [Launch ((P + 255) / 256) 256] Hout) as [_ [tr' E']].
      fold body in E. rewrite E' in E. cbn [fst] in E.
      injection E as <-.
      apply (foldl_frame f (fun s => dL_dshs s !! (i * max_coeffs + k)%nat)).
      intros idx s _. now apply sh_bwd_effect_unused.
Qed.

Lemma sh_backward_launch_rows_witness :
  exists out',
    exec (ComputeColorFromSHBackwardCUDA 1 1 16 SHScene.dirs SHScene.shs
            SHScene.visibility_filter SHScene.clamped SHScene.dL_dcolors) SHScene.bwd0
      = Some out' /\
    dL_dshs out' !! (0 * 16 + 4)%nat = dL_dshs SHScene.bwd0 !! (0 * 16 + 4)%nat.
Proof.
  destruct (sh_backward_launch_rows 1 1 16 SHScene.dirs SHScene.shs
              SHScene.visibility_filter SHScene.clamped SHScene.dL_dcolors SHScene.bwd0)
    as (out' & E & _ & Hrest);
    [cbn; lia | cbn; lia | cbn; lia | cbn; lia | cbn; lia | cbn; lia | split; cbn; lia |].
  exists out'. split; [exact E|]. apply (Hrest 0%nat 4%nat). cbn. lia.
Defined.

End AnySchedule.
